(** * httpio: a remote HTTP resource read as one ordered byte stream

    A shallow embedding of [httpio.go]: the option constructors, the size
    probe of [GetContext], and the recursive chunk scheduler [getChunk]
    with its goroutines, channels and pipe modelled as a transition
    system over an explicit state. *)

From Stdlib Require Import ZArith String Ascii Lia List Bool.
From stdpp Require Import base list.

Local Open Scope Z_scope.

(** ** Go's [int] on a 64-bit platform *)

Module GoInt.

Definition min_int : Z := - 2 ^ 63.
Definition max_int : Z := 2 ^ 63 - 1.

(** Two's complement wrap-around of an unbounded result. *)
Definition wrap (z : Z) : Z := (z + 2 ^ 63) mod 2 ^ 64 - 2 ^ 63.

Definition add (a b : Z) : Z := wrap (a + b).

Definition in_range (z : Z) : Prop := min_int <= z <= max_int.

End GoInt.

(** ** Errors *)

Inductive ctx_error : Type :=
| Canceled
| DeadlineExceeded.

Inductive error : Type :=
| EOF                                      (* io.EOF *)
| ErrClosedPipe                            (* io.ErrClosedPipe *)
| CtxErr (c : ctx_error)                   (* ctx.Err() *)
| ErrSyntax (fn s : string)                (* strconv.NumError, ErrSyntax *)
| ErrRange (fn s : string)                 (* strconv.NumError, ErrRange *)
| UrlErr (msg : string)                    (* failure of http.NewRequestWithContext *)
| DoErr (msg : string)                     (* error returned by client.Do *)
| BodyReadErr (msg : string)               (* error while reading a response body *)
| Errorf (prefix : string) (e : error)     (* fmt.Errorf("<prefix>: %w", e) *)
| StatusErr (code : Z) (status : string).  (* fmt.Errorf("unexpected statuscode: %d: %s") *)

(** ** The parts of [strconv] and [strings] the package calls *)

Module Strconv.

Definition digit_of (c : ascii) : option Z :=
  let n := Z.of_N (N_of_ascii c) in
  if (48 <=? n) && (n <=? 57) then Some (n - 48) else None.

Definition digit_char (d : Z) : ascii := ascii_of_N (Z.to_N (48 + d)).

Inductive num_error := Syntax | Range.

(** The loop of [ParseUint] in base 10 with 64 bits. *)
Fixpoint parse_digits (s : string) (n : Z) : Z + num_error :=
  match s with
  | EmptyString => inl n
  | String c s' =>
      match digit_of c with
      | None => inr Syntax
      | Some d =>
          if n >=? (2 ^ 64 - 1) / 10 + 1 then inr Range
          else
            let n1 := n * 10 + d in
            if n1 >? 2 ^ 64 - 1 then inr Range else parse_digits s' n1
      end
  end.

Definition num_err (e : num_error) (s : string) : error :=
  match e with
  | Syntax => ErrSyntax "Atoi"%string s
  | Range => ErrRange "Atoi"%string s
  end.

(** [strconv.Atoi]: an optional sign, then decimal digits only, and the
    value must fit [int]. *)
Definition Atoi (s : string) : Z + error :=
  match s with
  | EmptyString => inr (ErrSyntax "Atoi"%string s)
  | String c rest =>
      let neg := Ascii.eqb c "-"%char in
      let body := if neg || Ascii.eqb c "+"%char then rest else s in
      match body with
      | EmptyString => inr (ErrSyntax "Atoi"%string s)
      | _ =>
          match parse_digits body 0 with
          | inr e => inr (num_err e s)
          | inl un =>
              if neg then
                if un >? 2 ^ 63 then inr (ErrRange "Atoi"%string s) else inl (- un)
              else
                if un >=? 2 ^ 63 then inr (ErrRange "Atoi"%string s) else inl un
          end
      end
  end.

(** Decimal rendering, least significant digit first onto [acc]. *)
Fixpoint utoa_aux (fuel : nat) (n : Z) (acc : string) : string :=
  match fuel with
  | O => acc
  | S k =>
      let acc' := String (digit_char (n mod 10)) acc in
      if n <? 10 then acc' else utoa_aux k (n / 10) acc'
  end.

Definition utoa (n : Z) : string :=
  utoa_aux (S (Z.to_nat (Z.log2 n))) n EmptyString.

(** The verb [%d] of [fmt]. *)
Definition Itoa (n : Z) : string :=
  if n <? 0 then String "-"%char (utoa (- n)) else utoa n.

End Strconv.

Module Strs.

(** [strings.Split] for a separator of one byte. *)
Fixpoint Split (s : string) (sep : ascii) : list string :=
  match s with
  | EmptyString => [EmptyString]
  | String c s' =>
      if Ascii.eqb c sep then EmptyString :: Split s' sep
      else
        match Split s' sep with
        | x :: xs => String c x :: xs
        | [] => [String c EmptyString]
        end
  end.

End Strs.

(** ** [net/http] as the package uses it *)

Definition Header : Type := list (string * string).

Definition Header_Add (h : Header) (k v : string) : Header := h ++ [(k, v)].

Fixpoint Header_Get (h : Header) (k : string) : string :=
  match h with
  | [] => EmptyString
  | (k', v) :: h' => if String.eqb k' k then v else Header_Get h' k
  end.

Record Request : Type := {
  Method : string;
  URL : string;
  ReqHeader : Header
}.

Record Response : Type := {
  StatusCode : Z;
  Status : string;
  ContentLength : Z;              (* -1 when the server gave none *)
  RespHeader : Header;
  Body : list Byte.byte;
  BodyErr : option string         (* a read error after the last byte of [Body] *)
}.

(** A client is what [Do] answers; a failure carries its message. *)
Record Client : Type := { Do : Request -> Response + string }.

(** What lies outside the package: the verdict of
    [http.NewRequestWithContext] on a URL, and [http.DefaultClient]. *)
Record Env : Type := {
  url_error : string -> option string;
  DefaultClient : Client
}.

Definition NewRequestWithContext (env : Env) (method url : string)
  : Request + error :=
  match url_error env url with
  | Some msg => inr (UrlErr msg)
  | None => inl {| Method := method; URL := url; ReqHeader := [] |}
  end.

(** ** The package's data *)

Definition DefaultConcurrency : Z := 5.
Definition DefaultChunkSize : Z := 1024 * 1024 * 5.
Definition headerRange : string := "Range".

(** The pipe reader [rd] of the struct is the read side of the pipe kept
    in the scheduler state below. *)
Record remoteFile : Type := {
  client : Client;
  req : Request;
  chunkSize : Z;
  concurrency : Z;
  size : Z;
  debug : bool
}.

(** An option mutates the file and returns an error or nil. *)
Definition Option_ : Type := remoteFile -> remoteFile * option error.

Definition set_size (sz : Z) (f : remoteFile) : remoteFile :=
  {| client := client f; req := req f; chunkSize := chunkSize f;
     concurrency := concurrency f; size := sz; debug := debug f |}.

Fixpoint Options (opts : list Option_) : Option_ :=
  fun f =>
    match opts with
    | [] => (f, None)
    | opt :: rest =>
        match opt f with
        | (f', Some err) => (f', Some err)
        | (f', None) => Options rest f'
        end
    end.

Definition WithHeader (key value : string) : Option_ :=
  fun f =>
    ({| client := client f;
        req := {| Method := Method (req f); URL := URL (req f);
                  ReqHeader := Header_Add (ReqHeader (req f)) key value |};
        chunkSize := chunkSize f; concurrency := concurrency f;
        size := size f; debug := debug f |}, None).

Definition WithClient (c : option Client) : Option_ :=
  fun f =>
    (match c with
     | Some cl =>
         {| client := cl; req := req f; chunkSize := chunkSize f;
            concurrency := concurrency f; size := size f; debug := debug f |}
     | None => f
     end, None).

Definition WithConcurrency (c : Z) : Option_ :=
  fun f =>
    let c := if c <? 1 then 1 else c in
    ({| client := client f; req := req f; chunkSize := chunkSize f;
        concurrency := c; size := size f; debug := debug f |}, None).

Definition WithChunkSize (c : Z) : Option_ :=
  fun f =>
    let c := if c <? 1 then DefaultChunkSize else c in
    ({| client := client f; req := req f; chunkSize := c;
        concurrency := concurrency f; size := size f; debug := debug f |}, None).

Definition WithDebug : Option_ :=
  fun f =>
    ({| client := client f; req := req f; chunkSize := chunkSize f;
        concurrency := concurrency f; size := size f; debug := true |}, None).

(** ** Size resolution, the middle of [GetContext] *)

Definition resolve_size (res : Response) : Z + error :=
  if negb (ContentLength res =? 0) then inl (ContentLength res)
  else
    let contentRange := Header_Get (RespHeader res) headerRange in
    let parts := Strs.Split contentRange "/"%char in
    let totalStr := List.last parts EmptyString in
    if String.eqb totalStr "*" then inl (-1)
    else Strconv.Atoi totalStr.

(** ** The chunk arithmetic of [getChunk] *)

(** [start == f.size+1] *)
Definition is_terminal (f : remoteFile) (start : Z) : bool :=
  start =? GoInt.add (size f) 1.

(** [end := start + f.chunkSize; if end > f.size { end = f.size }] *)
Definition chunk_end (f : remoteFile) (start : Z) : Z :=
  let e := GoInt.add start (chunkSize f) in
  if e >? size f then size f else e.

(** The start offset handed to the next task: [end+1]. *)
Definition next_start (f : remoteFile) (start : Z) : Z :=
  GoInt.add (chunk_end f start) 1.

(** [req.Header.Add(headerRange, fmt.Sprintf("bytes=%d-%d", start, end))]
    on a clone of the request. *)
Definition with_range (r : Request) (a b : Z) : Request :=
  {| Method := Method r; URL := URL r;
     ReqHeader :=
       Header_Add (ReqHeader r) headerRange
         (String.append "bytes="
            (String.append (Strconv.Itoa a)
               (String "-"%char (Strconv.Itoa b)))) |}.

Definition range_request (f : remoteFile) (start : Z) : Request :=
  with_range (req f) start (chunk_end f start).

(** The ranges requested along the chain of tasks that [getChunk start]
    spawns, in spawn order; [fuel] bounds the length of the chain. *)
Fixpoint chunk_ranges (f : remoteFile) (fuel : nat) (start : Z) : list (Z * Z) :=
  match fuel with
  | O => []
  | S k =>
      if is_terminal f start then []
      else (start, chunk_end f start) :: chunk_ranges f k (next_start f start)
  end.

(** What [client.Do] followed by the status check yields for the chunk
    starting at [start]: the error the task closes the sink with, or the
    body the task will copy. *)
Definition fetch (f : remoteFile) (start : Z)
  : error + (list Byte.byte * option string) :=
  match Do (client f) (range_request f start) with
  | inr msg => inl (DoErr msg)
  | inl res =>
      if (StatusCode res <? 200) || (StatusCode res >? 299)
      then inl (StatusErr (StatusCode res) (Status res))
      else inr (Body res, BodyErr res)
  end.

(** ** Goroutines, channels and the pipe as a transition system *)

(** Where a [getChunk] goroutine stands. *)
Inductive pc : Type :=
| TermSelect                         (* terminal branch, at its select *)
| TermDefer                          (* sink closed; close(concurrencyLock) pending *)
| Acquire                            (* at concurrencyLock <- struct{}{} *)
| Fetch                              (* permit held, next task spawned, at client.Do *)
| Select (body : list Byte.byte) (berr : option string)
                                     (* 2xx response in hand, at its select *)
| Copy (rest : list Byte.byte) (berr : option string)
                                     (* inside io.Copy, [rest] not yet written *)
| CloseNext                          (* returning: close(next) pending *)
| Release                            (* returning: <-concurrencyLock pending *)
| Done.

Record task : Type := {
  start : Z;
  at_pc : pc;
  tok : bool;          (* its sequenceLock has been closed *)
  nxt : nat            (* the goroutine it spawned, once past Acquire *)
}.

Record state : Type := {
  tasks : list task;               (* goroutines in spawn order *)
  cl_len : nat;                    (* permits buffered in concurrencyLock *)
  cl_closed : bool;
  ctx_done : option ctx_error;
  pipe : option error;             (* the error the pipe was closed with *)
  reads : list (nat * list Byte.byte);
                                   (* data returned by Read calls, each with
                                      the goroutine whose Write supplied it *)
  rd_err : option error;           (* the error a Read call returned *)
  panicked : bool
}.

Definition set_tasks (ts : list task) (st : state) : state :=
  {| tasks := ts; cl_len := cl_len st; cl_closed := cl_closed st;
     ctx_done := ctx_done st; pipe := pipe st; reads := reads st;
     rd_err := rd_err st; panicked := panicked st |}.

Definition set_cl (n : nat) (closed : bool) (st : state) : state :=
  {| tasks := tasks st; cl_len := n; cl_closed := closed;
     ctx_done := ctx_done st; pipe := pipe st; reads := reads st;
     rd_err := rd_err st; panicked := panicked st |}.

Definition set_ctx (c : ctx_error) (st : state) : state :=
  {| tasks := tasks st; cl_len := cl_len st; cl_closed := cl_closed st;
     ctx_done := Some c; pipe := pipe st; reads := reads st;
     rd_err := rd_err st; panicked := panicked st |}.

Definition set_pipe (e : error) (st : state) : state :=
  {| tasks := tasks st; cl_len := cl_len st; cl_closed := cl_closed st;
     ctx_done := ctx_done st; pipe := Some e; reads := reads st;
     rd_err := rd_err st; panicked := panicked st |}.

Definition add_read (i : nat) (bs : list Byte.byte) (st : state) : state :=
  {| tasks := tasks st; cl_len := cl_len st; cl_closed := cl_closed st;
     ctx_done := ctx_done st; pipe := pipe st;
     reads := reads st ++ [(i, bs)];
     rd_err := rd_err st; panicked := panicked st |}.

Definition set_rd_err (e : error) (st : state) : state :=
  {| tasks := tasks st; cl_len := cl_len st; cl_closed := cl_closed st;
     ctx_done := ctx_done st; pipe := pipe st; reads := reads st;
     rd_err := Some e; panicked := panicked st |}.

Definition set_panicked (st : state) : state :=
  {| tasks := tasks st; cl_len := cl_len st; cl_closed := cl_closed st;
     ctx_done := ctx_done st; pipe := pipe st; reads := reads st;
     rd_err := rd_err st; panicked := true |}.

Definition with_pc (p : pc) (t : task) : task :=
  {| start := start t; at_pc := p; tok := tok t; nxt := nxt t |}.

Definition with_tok (t : task) : task :=
  {| start := start t; at_pc := at_pc t; tok := true; nxt := nxt t |}.

Definition with_nxt (n : nat) (t : task) : task :=
  {| start := start t; at_pc := at_pc t; tok := tok t; nxt := n |}.

Definition set_pc (i : nat) (p : pc) (st : state) : state :=
  set_tasks (alter (with_pc p) i (tasks st)) st.

(** [close(ch)] of the sequenceLock of goroutine [i]. *)
Definition close_seq (i : nat) (st : state) : state :=
  set_tasks (alter with_tok i (tasks st)) st.

(** [wr.CloseWithError(e)]: the first close decides the error. *)
Definition close_with (e : error) (st : state) : state :=
  set_pipe (match pipe st with Some e0 => e0 | None => e end) st.

(** [go f.getChunk(ctx, concurrencyLock, next, start, wr)]: the new
    goroutine tests [start == f.size+1] first. *)
Definition spawn (f : remoteFile) (s : Z) : task :=
  {| start := s;
     at_pc := if is_terminal f s then TermSelect else Acquire;
     tok := false; nxt := 0%nat |}.

(** The state [GetContext] leaves behind at [go file.getChunk(..., 0, wr)]. *)
Definition init_state (f : remoteFile) : state :=
  {| tasks := [spawn f 0]; cl_len := 0%nat; cl_closed := false;
     ctx_done := None; pipe := None; reads := []; rd_err := None;
     panicked := false |}.

Inductive action : Type :=
| AReturn                      (* GetContext returns: deferred close(sl) *)
| ACancel (c : ctx_error)      (* the context is cancelled or expires *)
| AStep (i : nat)              (* goroutine i moves on; at a select it takes
                                  the sequenceLock case *)
| ACtx (i : nat)               (* goroutine i takes the ctx.Done() case *)
| ARead (i n : nat)            (* a Read call receives n bytes from the
                                  pending Write of goroutine i *)
| AReadErr.                    (* a Read call returns the close error *)

(** GetContext has returned the reader: [sl], the sequenceLock of the
    first goroutine, is closed. *)
Definition returned_reader (st : state) : bool :=
  match tasks st with
  | t :: _ => tok t
  | [] => false
  end.

Definition step_task (f : remoteFile) (i : nat) (t : task) (st : state)
  : option state :=
  match at_pc t with
  | TermSelect =>
      if tok t then Some (set_pc i TermDefer (close_with EOF st)) else None
  | TermDefer => Some (set_pc i Done (set_cl (cl_len st) true st))
  | Acquire =>
      if cl_closed st then Some (set_panicked st)   (* send on a closed channel *)
      else if Z.of_nat (cl_len st) <? concurrency f then
        let child := length (tasks st) in
        Some (set_cl (S (cl_len st)) false
                (set_tasks (alter (with_pc Fetch) i
                              (alter (with_nxt child) i (tasks st))
                              ++ [spawn f (next_start f (start t))]) st))
      else None
  | Fetch =>
      match fetch f (start t) with
      | inl e => Some (set_pc i CloseNext (close_with e st))
      | inr (body, berr) => Some (set_pc i (Select body berr) st)
      end
  | Select body berr =>
      if tok t then Some (set_pc i (Copy body berr) st) else None
  | Copy rest berr =>
      match pipe st with
      | Some _ =>
          (* Write fails with ErrClosedPipe, or nothing was left to
             write; a CloseWithError now changes nothing *)
          Some (set_pc i CloseNext st)
      | None =>
          match rest, berr with
          | [], None => Some (set_pc i CloseNext st)
          | [], Some msg =>
              Some (set_pc i CloseNext (close_with (BodyReadErr msg) st))
          | _ :: _, _ => None       (* Write blocks until a Read *)
          end
      end
  | CloseNext => Some (set_pc i Release (close_seq (nxt t) st))
  | Release =>
      match cl_len st with
      | S n => Some (set_pc i Done (set_cl n (cl_closed st) st))
      | O => if cl_closed st then Some (set_pc i Done st) else None
      end
  | Done => None
  end.

Definition step_ctx (i : nat) (t : task) (st : state) : option state :=
  match ctx_done st with
  | None => None
  | Some c =>
      match at_pc t with
      | TermSelect => Some (set_pc i TermDefer (close_with (CtxErr c) st))
      | Select _ _ => Some (set_pc i CloseNext (close_with (CtxErr c) st))
      | _ => None
      end
  end.

Definition step_read (i n : nat) (t : task) (st : state) : option state :=
  match at_pc t, pipe st, rd_err st with
  | Copy rest berr, None, None =>
      if returned_reader st && (0 <? n)%nat && (n <=? length rest)%nat
      then Some (set_pc i (Copy (drop n rest) berr) (add_read i (take n rest) st))
      else None
  | _, _, _ => None
  end.

Definition step (f : remoteFile) (a : action) (st : state) : option state :=
  if panicked st then None
  else
    match a with
    | AReturn =>
        if returned_reader st then None else Some (close_seq 0 st)
    | ACancel c =>
        match ctx_done st with
        | Some _ => None
        | None => Some (set_ctx c st)
        end
    | AStep i =>
        match tasks st !! i with
        | Some t => step_task f i t st
        | None => None
        end
    | ACtx i =>
        match tasks st !! i with
        | Some t => step_ctx i t st
        | None => None
        end
    | ARead i n =>
        match tasks st !! i with
        | Some t => step_read i n t st
        | None => None
        end
    | AReadErr =>
        match pipe st, rd_err st with
        | Some e, None =>
            if returned_reader st then Some (set_rd_err e st) else None
        | _, _ => None
        end
    end.

Fixpoint run (f : remoteFile) (sched : list action) (st : state) : option state :=
  match sched with
  | [] => Some st
  | a :: rest =>
      match step f a st with
      | Some st' => run f rest st'
      | None => None
      end
  end.

Inductive reachable (f : remoteFile) : state -> Prop :=
| reach_init : reachable f (init_state f)
| reach_step st a st' :
    reachable f st -> step f a st = Some st' -> reachable f st'.

(** All bytes the consumer has received, in the order of its Read calls. *)
Definition output (st : state) : list Byte.byte :=
  concat (map snd (reads st)).

(** ** [GetContext] *)

(** The struct literal of [GetContext]. *)
Definition default_file (env : Env) (rq : Request) : remoteFile :=
  {| client := DefaultClient env; req := rq;
     chunkSize := DefaultChunkSize; concurrency := DefaultConcurrency;
     size := 0; debug := false |}.

(** [sizeReq.Header = req.Header.Clone()] *)
Definition size_request (sizeReq : Request) (file : remoteFile) : Request :=
  {| Method := Method sizeReq; URL := URL sizeReq;
     ReqHeader := ReqHeader (req file) |}.

(** The result is the reader (the file and the scheduler state with the
    first goroutine started) or, with a nil reader, an error. *)
Definition GetContext (env : Env) (url : string) (opts : list Option_)
  : (remoteFile * state) + error :=
  match NewRequestWithContext env "GET" url with
  | inr err => inr err
  | inl rq =>
      match Options opts (default_file env rq) with
      | (_, Some err) => inr err
      | (file, None) =>
          match NewRequestWithContext env "HEAD" url with
          | inr err => inr err
          | inl sizeReq =>
              match Do (client file) (size_request sizeReq file) with
              | inr msg =>
                  inr (Errorf "unable to get content range" (DoErr msg))
              | inl res =>
                  match resolve_size res with
                  | inr err => inr err
                  | inl sz =>
                      let file := set_size sz file in
                      inl (file, init_state file)
                  end
              end
          end
      end
  end.

(** [Get] is [GetContext] under [context.Background()]. *)
Definition Get (env : Env) (url : string) (opts : list Option_)
  : (remoteFile * state) + error :=
  GetContext env url opts.

(** ** Servers used in the examples *)

(** The bytes of [content] at the positions [a], ..., [b]. *)
Definition byte_range (content : list Byte.byte) (a b : Z) : list Byte.byte :=
  take (Z.to_nat (b - a + 1)) (drop (Z.to_nat a) content).

Fixpoint string_drop (n : nat) (s : string) : string :=
  match n, s with
  | O, _ => s
  | S k, String _ s' => string_drop k s'
  | S _, EmptyString => EmptyString
  end.

(** Reads [bytes=<a>-<b>]. *)
Definition parse_range (v : string) : option (Z * Z) :=
  match Strs.Split (string_drop 6 v) "-"%char with
  | [a; b] =>
      match Strconv.Atoi a, Strconv.Atoi b with
      | inl a, inl b => Some (a, b)
      | _, _ => None
      end
  | _ => None
  end.

Definition response (code : Z) (status : string) (len : Z)
    (body : list Byte.byte) : Response :=
  {| StatusCode := code; Status := status; ContentLength := len;
     RespHeader := []; Body := body; BodyErr := None |}.

(** A probe answer for an empty resource: [Content-Length: 0] and no
    [Range] header. *)
Definition empty_resource_probe : Response :=
  {| StatusCode := 200; Status := "200 OK"; ContentLength := 0;
     RespHeader := [("Content-Length"%string, "0"%string)];
     Body := []; BodyErr := None |}.

(** A probe answer without a length whose [Range] header gives the total. *)
Definition range_probe (v : string) : Response :=
  {| StatusCode := 200; Status := "200 OK"; ContentLength := 0;
     RespHeader := [(headerRange, v)]; Body := []; BodyErr := None |}.

(** A server that answers HEAD with the length of [content] and every
    range request with exactly the bytes asked for. *)
Definition exact_server (content : list Byte.byte) : Client :=
  {| Do := fun r =>
       if String.eqb (Method r) "HEAD" then
         inl (response 200 "200 OK" (Z.of_nat (length content)) [])
       else
         match List.last (ReqHeader r) (EmptyString, EmptyString) with
         | (k, v) =>
             match (if String.eqb k headerRange then parse_range v else None) with
             | Some (a, b) =>
                 inl (response 206 "206 Partial Content"
                        (Z.of_nat (length (byte_range content a b)))
                        (byte_range content a b))
             | None => inl (response 400 "400 Bad Request" 0 [])
             end
         end |}.

(** The same, but chunks starting at [bad] or later get [code]. *)
Definition failing_server (content : list Byte.byte)
    (bad : Z -> option Z) : Client :=
  {| Do := fun r =>
       if String.eqb (Method r) "HEAD" then
         inl (response 200 "200 OK" (Z.of_nat (length content)) [])
       else
         match List.last (ReqHeader r) (EmptyString, EmptyString) with
         | (k, v) =>
             match (if String.eqb k headerRange then parse_range v else None) with
             | Some (a, b) =>
                 match bad a with
                 | Some code => inl (response code "error" 0 [])
                 | None =>
                     inl (response 206 "206 Partial Content"
                            (Z.of_nat (length (byte_range content a b)))
                            (byte_range content a b))
                 end
             | None => inl (response 400 "400 Bad Request" 0 [])
             end
         end |}.

(** A server that does not tell the length: its HEAD answer carries
    [Range: bytes 0-0/*] and no length; range requests are served as by
    [exact_server]. *)
Definition unknown_size_server (content : list Byte.byte) : Client :=
  {| Do := fun r =>
       if String.eqb (Method r) "HEAD" then inl (range_probe "bytes 0-0/*")
       else Do (exact_server content) r |}.

(** A client whose transport always fails. *)
Definition down_client : Client :=
  {| Do := fun _ => inr "connection refused"%string |}.

(** A client that answers every request with [res]. *)
Definition const_client (res : Response) : Client :=
  {| Do := fun _ => inl res |}.

Definition example_env (c : Client) : Env :=
  {| url_error := fun _ => None; DefaultClient := c |}.

(** Ten bytes, [0] to [9]. *)
Definition ten_bytes : list Byte.byte :=
  [Byte.x30; Byte.x31; Byte.x32; Byte.x33; Byte.x34;
   Byte.x35; Byte.x36; Byte.x37; Byte.x38; Byte.x39].

Definition example_request : Request :=
  {| Method := "GET"; URL := "http://localhost/assets/file"; ReqHeader := [] |}.

(** A file as [GetContext] would leave it after the probe. *)
Definition example_file (c : Client) (sz cs k : Z) : remoteFile :=
  {| client := c; req := example_request; chunkSize := cs;
     concurrency := k; size := sz; debug := false |}.

(** ** Auxiliary notions used in the statements *)

Fixpoint has_char (c : ascii) (s : string) : bool :=
  match s with
  | EmptyString => false
  | String c' s' => Ascii.eqb c' c || has_char c s'
  end.

(** Past both deferred calls that matter to the others. *)
Definition returned (p : pc) : bool :=
  match p with
  | Release | Done => true
  | _ => false
  end.

(** Between the send to [concurrencyLock] and the deferred receive. *)
Definition holds_permit (p : pc) : bool :=
  match p with
  | Fetch | Select _ _ | Copy _ _ | CloseNext | Release => true
  | _ => false
  end.

(** Inside [client.Do]. *)
Definition in_fetch (p : pc) : bool :=
  match p with
  | Fetch => true
  | _ => false
  end.

(** Waiting at a select for the ordering token or for cancellation. *)
Definition at_select (p : pc) : bool :=
  match p with
  | TermSelect | Select _ _ => true
  | _ => false
  end.

(** The task has executed [go f.getChunk(...)]. *)
Definition has_child (f : remoteFile) (t : task) : bool :=
  match at_pc t with
  | Fetch | Select _ _ | Copy _ _ | CloseNext | Release => true
  | Done => negb (is_terminal f (start t))
  | _ => false
  end.

(** Beyond its select, or returned without reaching it. *)
Definition passed (p : pc) : bool :=
  match p with
  | Copy _ _ | CloseNext | Release | Done | TermDefer => true
  | _ => false
  end.

(** [client.Do] has been called. *)
Definition fetched (f : remoteFile) (t : task) : bool :=
  match at_pc t with
  | Select _ _ | Copy _ _ | CloseNext | Release => true
  | Done => negb (is_terminal f (start t))
  | _ => false
  end.

(** The ranges requested so far, in spawn order of their tasks. *)
Definition issued (f : remoteFile) (st : state) : list (Z * Z) :=
  map (fun t => (start t, chunk_end f (start t)))
    (filter (fun t => fetched f t = true) (tasks st)).

Definition fetch_error (f : remoteFile) (s : Z) : option error :=
  match fetch f s with
  | inl e => Some e
  | inr _ => None
  end.

(** The steps, one constructor for each way [step] succeeds. *)
Inductive transition (f : remoteFile) (st : state) : state -> Prop :=
| T_return :
    returned_reader st = false -> transition f st (close_seq 0 st)
| T_cancel c :
    ctx_done st = None -> transition f st (set_ctx c st)
| T_term_eof i t :
    tasks st !! i = Some t -> at_pc t = TermSelect -> tok t = true ->
    transition f st (set_pc i TermDefer (close_with EOF st))
| T_term_ctx i t c :
    tasks st !! i = Some t -> at_pc t = TermSelect -> ctx_done st = Some c ->
    transition f st (set_pc i TermDefer (close_with (CtxErr c) st))
| T_term_defer i t :
    tasks st !! i = Some t -> at_pc t = TermDefer ->
    transition f st (set_pc i Done (set_cl (cl_len st) true st))
| T_panic i t :
    tasks st !! i = Some t -> at_pc t = Acquire -> cl_closed st = true ->
    transition f st (set_panicked st)
| T_acquire i t :
    tasks st !! i = Some t -> at_pc t = Acquire -> cl_closed st = false ->
    Z.of_nat (cl_len st) < concurrency f ->
    transition f st
      (set_cl (S (cl_len st)) false
         (set_tasks (alter (with_pc Fetch) i
                       (alter (with_nxt (length (tasks st))) i (tasks st))
                       ++ [spawn f (next_start f (start t))]) st))
| T_fetch_fail i t e :
    tasks st !! i = Some t -> at_pc t = Fetch -> fetch f (start t) = inl e ->
    transition f st (set_pc i CloseNext (close_with e st))
| T_fetch_ok i t body berr :
    tasks st !! i = Some t -> at_pc t = Fetch ->
    fetch f (start t) = inr (body, berr) ->
    transition f st (set_pc i (Select body berr) st)
| T_select_tok i t body berr :
    tasks st !! i = Some t -> at_pc t = Select body berr -> tok t = true ->
    transition f st (set_pc i (Copy body berr) st)
| T_select_ctx i t body berr c :
    tasks st !! i = Some t -> at_pc t = Select body berr ->
    ctx_done st = Some c ->
    transition f st (set_pc i CloseNext (close_with (CtxErr c) st))
| T_copy_closed i t rest berr e :
    tasks st !! i = Some t -> at_pc t = Copy rest berr -> pipe st = Some e ->
    transition f st (set_pc i CloseNext st)
| T_copy_done i t :
    tasks st !! i = Some t -> at_pc t = Copy [] None -> pipe st = None ->
    transition f st (set_pc i CloseNext st)
| T_copy_err i t msg :
    tasks st !! i = Some t -> at_pc t = Copy [] (Some msg) -> pipe st = None ->
    transition f st (set_pc i CloseNext (close_with (BodyReadErr msg) st))
| T_close_next i t :
    tasks st !! i = Some t -> at_pc t = CloseNext ->
    transition f st (set_pc i Release (close_seq (nxt t) st))
| T_release i t n :
    tasks st !! i = Some t -> at_pc t = Release -> cl_len st = S n ->
    transition f st (set_pc i Done (set_cl n (cl_closed st) st))
| T_release_closed i t :
    tasks st !! i = Some t -> at_pc t = Release -> cl_len st = O ->
    cl_closed st = true ->
    transition f st (set_pc i Done st)
| T_read i t rest berr n :
    tasks st !! i = Some t -> at_pc t = Copy rest berr ->
    pipe st = None -> rd_err st = None -> returned_reader st = true ->
    (0 < n <= length rest)%nat ->
    transition f st
      (set_pc i (Copy (drop n rest) berr) (add_read i (take n rest) st))
| T_read_err e :
    pipe st = Some e -> rd_err st = None -> returned_reader st = true ->
    transition f st (set_rd_err e st).

(** ** Invariants of the transition system *)

Fixpoint count_if {A} (P : A -> bool) (l : list A) : nat :=
  match l with
  | [] => 0%nat
  | x :: l' => ((if P x then 1 else 0) + count_if P l')%nat
  end.

(** The program point of a task agrees with the test [start == f.size+1]
    it made on entry. *)
Definition pc_ok (f : remoteFile) (t : task) : Prop :=
  match at_pc t with
  | TermSelect | TermDefer => is_terminal f (start t) = true
  | Done => True
  | _ => is_terminal f (start t) = false
  end.

(** The goroutines form one chain: the first was started at offset 0,
    each one past its [go] statement is followed by the task it spawned,
    which starts at [end+1] and whose sequenceLock is closed exactly when
    its parent has run the deferred [close(next)]; the others are last. *)
Definition chained (f : remoteFile) (ts : list task) : Prop :=
  (exists t0, ts !! 0%nat = Some t0 /\ start t0 = 0) /\
  (forall i t, ts !! i = Some t -> has_child f t = true ->
     nxt t = S i /\
     exists t', ts !! S i = Some t' /\
       start t' = next_start f (start t) /\
       tok t' = returned (at_pc t)) /\
  (forall i t, ts !! i = Some t -> has_child f t = false ->
     length ts = S i).

Record wf (f : remoteFile) (st : state) : Prop := {
  wf_pc : Forall (pc_ok f) (tasks st);
  wf_chain : chained f (tasks st);
  wf_permits : cl_len st = count_if (fun t => holds_permit (at_pc t)) (tasks st);
  wf_bound : Z.of_nat (cl_len st) <= Z.max 0 (concurrency f);
  wf_closed : cl_closed st = true ->
              Forall (fun t => has_child f t = true \/ at_pc t = Done) (tasks st);
  wf_panic : panicked st = false
}.

(** Program points only move forward through these classes. *)
Definition pc_mono (p p' : pc) : Prop :=
  (returned p = true -> returned p' = true) /\
  (passed p = true -> passed p' = true).

Definition nondecreasing (l : list nat) : Prop :=
  forall i j a b, (i <= j)%nat -> l !! i = Some a -> l !! j = Some b -> (a <= b)%nat.

(** What a task holds was fetched for its own range. *)
Definition body_ok (f : remoteFile) (t : task) : Prop :=
  match at_pc t with
  | Select body berr => fetch f (start t) = inr (body, berr)
  | Copy _ berr =>
      (exists body, fetch f (start t) = inr (body, berr)) /\ tok t = true
  | _ => True
  end.

(** Every task before [j] has returned. *)
Definition all_returned_before (st : state) (j : nat) : Prop :=
  forall k t, (k < j)%nat -> tasks st !! k = Some t -> returned (at_pc t) = true.

(** While the sink is open, a task beyond its select took the token
    case after a successful fetch. *)
Definition open_ok (f : remoteFile) (t : task) : Prop :=
  passed (at_pc t) = true ->
  tok t = true /\ has_child f t = true /\ fetch_error f (start t) = None.

(** Once the sink is closed with end-of-stream, every task had its turn
    and every fetch had succeeded. *)
Definition eof_ok (f : remoteFile) (t : task) : Prop :=
  passed (at_pc t) = true /\ tok t = true /\
  (has_child f t = true ->
   returned (at_pc t) = true /\ fetch_error f (start t) = None).

(** A read took its bytes from a task that held the token, after every
    earlier task had returned, and no fetch up to it had failed. *)
Definition read_ok (f : remoteFile) (st : state) (k : nat) : Prop :=
  (exists t, tasks st !! k = Some t /\ passed (at_pc t) = true /\ tok t = true) /\
  all_returned_before st k /\
  (forall j t, (j <= k)%nat -> tasks st !! j = Some t ->
     fetch_error f (start t) = None).

(** How the sink, the tokens and the reads hang together. *)
Record sink_inv (f : remoteFile) (st : state) : Prop := {
  si_body : Forall (body_ok f) (tasks st);
  si_open : pipe st = None -> Forall (open_ok f) (tasks st);
  si_eof : pipe st = Some EOF -> Forall (eof_ok f) (tasks st);
  si_reads : forall k bs, In (k, bs) (reads st) -> read_ok f st k;
  si_sorted : nondecreasing (map fst (reads st));
  si_rd : forall e, rd_err st = Some e -> pipe st = Some e
}.

(** The sizes for which the chunk arithmetic stays within [int]: a
    resource below 4 EiB and any positive chunk size. *)
Definition valid (f : remoteFile) : Prop :=
  0 <= size f < 2 ^ 62 /\ 1 <= chunkSize f <= GoInt.max_int.

(** The ranges the code requests for 12 MiB in chunks of 5 MiB. *)
Definition twelve_mib_ranges : list (Z * Z) :=
  [(0, 5242880); (5242881, 10485761); (10485762, 12582912)].

(** Every range request succeeds and the server returns exactly the
    requested inclusive byte range of [content]. *)
Definition exact (content : list Byte.byte) (f : remoteFile) : Prop :=
  forall a b, 0 <= a <= b -> b <= GoInt.max_int ->
    exists res, Do (client f) (with_range (req f) a b) = inl res /\
      200 <= StatusCode res <= 299 /\
      Body res = byte_range content a b /\ BodyErr res = None.

(** What the consumer has received when it is the turn of task [t]. *)
Definition delivered_ok (content : list Byte.byte) (f : remoteFile)
    (out : list Byte.byte) (t : task) : Prop :=
  match at_pc t with
  | Copy rest berr =>
      out ++ rest = take (Z.to_nat (chunk_end f (start t) + 1)) content /\
      berr = None
  | CloseNext => out = take (Z.to_nat (chunk_end f (start t) + 1)) content
  | _ => out = take (Z.to_nat (start t)) content
  end.

(** While the sink is open, the first task that has not returned finds
    the resource delivered up to its own chunk; after a clean close all
    of it has been delivered. *)
Definition out_inv (content : list Byte.byte) (f : remoteFile) (st : state)
  : Prop :=
  (pipe st = None ->
   forall j t, tasks st !! j = Some t -> all_returned_before st j ->
     returned (at_pc t) = false -> delivered_ok content f (output st) t) /\
  (pipe st = Some EOF -> output st = content).

(** ** A bound on the number of steps *)

Definition body_len (f : remoteFile) (s : Z) : nat :=
  match fetch f s with
  | inr (body, _) => length body
  | inl _ => 0%nat
  end.

(** The steps still to come from a task about to be started at [s] and
    from the tasks it will spawn. *)
Fixpoint pot (f : remoteFile) (fuel : nat) (s : Z) : nat :=
  match fuel with
  | O => 2%nat
  | S k =>
      if is_terminal f s then 2%nat
      else (6 + body_len f s + pot f k (next_start f s))%nat
  end.

Definition fuel_of (f : remoteFile) (s : Z) : nat := Z.to_nat (size f + 2 - s).

Definition weight (f : remoteFile) (t : task) : nat :=
  match at_pc t with
  | TermSelect => 2
  | TermDefer => 1
  | Acquire => pot f (fuel_of f (start t)) (start t)
  | Fetch => 5 + body_len f (start t)
  | Select body _ => 4 + length body
  | Copy rest _ => 3 + length rest
  | CloseNext => 2
  | Release => 1
  | Done => 0
  end%nat.

Fixpoint sum_with {A} (w : A -> nat) (l : list A) : nat :=
  match l with
  | [] => 0%nat
  | x :: l' => (w x + sum_with w l')%nat
  end.

(** No run from [st] has more steps than this. *)
Definition measure (f : remoteFile) (st : state) : nat :=
  (sum_with (weight f) (tasks st)
   + (if returned_reader st then 0 else 1)
   + (match rd_err st with Some _ => 0 | None => 1 end)
   + (match ctx_done st with Some _ => 0 | None => 1 end))%nat.

Definition at_release (p : pc) : bool :=
  match p with
  | Release => true
  | _ => false
  end.

Definition is_cancel (a : action) : bool :=
  match a with
  | ACancel _ => true
  | _ => false
  end.

(** ** Files, schedules and runs used in the examples *)

(** Ten bytes in chunks of 3 (so four bytes each) with two permits. *)
Definition ten_file : remoteFile :=
  example_file (exact_server ten_bytes) 10 3 2.

(** A complete run for [ten_file]: the second fetch completes first and
    the second chunk is read in two pieces. *)
Definition ten_schedule : list action :=
  [AStep 0; AStep 1; AStep 1; AReturn; AStep 0; AStep 0; ARead 0 4;
   AStep 0; AStep 0; AStep 0; AStep 2; AStep 1; ARead 1 2; ARead 1 2;
   AStep 1; AStep 1; AStep 1; AStep 2; AStep 2; ARead 2 2; AStep 2;
   AStep 2; AStep 2; AStep 3; AStep 3; AReadErr]%nat.

Definition twelve_mib_file : remoteFile :=
  example_file (exact_server []) 12582912 5242880 5.

(** The first chunk gets status 500, every later one 404. *)
Definition two_failures (a : Z) : option Z :=
  if a =? 0 then Some 500 else Some 404.

Definition two_failures_file : remoteFile :=
  example_file (failing_server ten_bytes two_failures) 10 3 2.

(** The second task fails and closes the sink before the first one
    fails; then the consumer reads. *)
Definition two_failures_schedule : list action :=
  [AStep 0; AStep 1; AStep 1; AStep 0; AReturn; AReadErr]%nat.

(** Only the chunk starting at 8 fails, with status 500. *)
Definition last_fails (a : Z) : option Z :=
  if a =? 8 then Some 500 else None.

Definition last_fails_file : remoteFile :=
  example_file (failing_server ten_bytes last_fails) 10 3 3.

(** The first task is still fetching, the second waits at its select,
    the third fails and closes the sink; then the context is cancelled. *)
Definition cancel_after_failure : list action :=
  [AStep 0; AStep 1; AStep 2; AStep 1; AStep 2; ACancel Canceled]%nat.

(** The first task is fetching, the second waits at its select; then
    the context is cancelled. *)
Definition cancel_while_waiting : list action :=
  [AStep 0; AStep 1; AStep 1; ACancel Canceled]%nat.

(** The state a schedule leads to, or the initial state when the
    schedule cannot be run. *)
Definition final_state (f : remoteFile) (sched : list action) : state :=
  match run f sched (init_state f) with
  | Some st => st
  | None => init_state f
  end.

(** The file [GetContext] builds with the default options against a
    server that does not tell the length. *)
Definition unknown_size_file : remoteFile :=
  example_file (unknown_size_server ten_bytes) (-1)
    DefaultChunkSize DefaultConcurrency.

Definition example_url : string := "http://localhost/assets/file".

Definition bad_url_env : Env :=
  {| url_error := fun _ => Some "missing protocol scheme"%string;
     DefaultClient := down_client |}.

(** ** Notions used in the further properties *)

(** The options the package itself provides, with arguments that are
    Go [int]s. *)
Inductive builtin : Option_ -> Prop :=
| builtin_header k v : builtin (WithHeader k v)
| builtin_client c : builtin (WithClient c)
| builtin_concurrency c : GoInt.in_range c -> builtin (WithConcurrency c)
| builtin_chunk c : GoInt.in_range c -> builtin (WithChunkSize c)
| builtin_debug : builtin WithDebug.

(** The request [GetContext] starts from, and the probe it sends: a HEAD
    request for the same URL with the headers of the file's request. *)
Definition get_request (url : string) : Request :=
  {| Method := "GET"; URL := url; ReqHeader := [] |}.

Definition probe_request (url : string) (file : remoteFile) : Request :=
  {| Method := "HEAD"; URL := url; ReqHeader := ReqHeader (req file) |}.

(** An option of the caller's own that fails. *)
Definition refuse (e : error) : Option_ := fun f => (f, Some e).

(** The number of ranges for a resource of [size f] in chunks of
    [chunkSize f]: a full range covers [chunkSize f + 1] of the positions
    [0 .. size f]. *)
Definition chunk_count (f : remoteFile) : nat :=
  Z.to_nat (size f / (chunkSize f + 1) + 1).

Definition nth_range (f : remoteFile) (i : nat) : Z * Z :=
  (Z.of_nat i * (chunkSize f + 1),
   Z.min (Z.of_nat i * (chunkSize f + 1) + chunkSize f) (size f)).

Definition is_done (p : pc) : bool :=
  match p with
  | Done => true
  | _ => false
  end.

(** The response body is open: between the status check and the
    deferred [res.Body.Close()]. *)
Definition has_body (p : pc) : bool :=
  match p with
  | Select _ _ | Copy _ _ => true
  | _ => false
  end.

(** Where the error the sink is closed with can come from. *)
Definition error_source (f : remoteFile) (st : state) (e : error) : Prop :=
  e = EOF \/
  (exists c, ctx_done st = Some c /\ e = CtxErr c) \/
  (exists i t, tasks st !! i = Some t /\ is_terminal f (start t) = false /\
     fetch_error f (start t) = Some e) \/
  (exists i t body msg, tasks st !! i = Some t /\
     is_terminal f (start t) = false /\
     fetch f (start t) = inr (body, Some msg) /\ e = BodyReadErr msg).

(** The task has either fetched and spawned its successor, or is the
    terminal one. *)
Definition settled (f : remoteFile) (t : task) : Prop :=
  fetched f t = negb (is_terminal f (start t)) /\
  has_child f t = negb (is_terminal f (start t)).

(** The body of the response to the range request of the chunk at [s];
    nothing for the terminal offset or a failed fetch. *)
Definition chunk_body (f : remoteFile) (s : Z) : list Byte.byte :=
  if is_terminal f s then []
  else match fetch f s with
       | inr (body, _) => body
       | inl _ => []
       end.

Definition bodies (f : remoteFile) (ss : list Z) : list Byte.byte :=
  concat (map (chunk_body f) ss).

Definition starts (st : state) : list Z := map start (tasks st).

(** What the consumer has received when it is the turn of the task at
    position [j], standing at [p]. *)
Definition delivered_upto (f : remoteFile) (ss : list Z)
    (out : list Byte.byte) (j : nat) (p : pc) : Prop :=
  match p with
  | Copy rest _ => out ++ rest = bodies f (take (S j) ss)
  | CloseNext => out = bodies f (take (S j) ss)
  | _ => out = bodies f (take j ss)
  end.

Definition stream_inv (f : remoteFile) (st : state) : Prop :=
  (pipe st = None ->
   forall j t, tasks st !! j = Some t -> all_returned_before st j ->
     returned (at_pc t) = false ->
     delivered_upto f (starts st) (output st) j (at_pc t)) /\
  (pipe st = Some EOF -> output st = bodies f (starts st)).

(** The bodies of the answers to all range requests of the chain, in
    offset order. *)
Definition whole_stream (f : remoteFile) : list Byte.byte :=
  bodies f (map (fun i => fst (nth_range f i)) (seq 0 (chunk_count f))).

(** The options of the ten-byte example. *)
Definition ten_options : list Option_ := [WithChunkSize 3; WithConcurrency 2].

(** [two_failures_schedule] continued until every goroutine has
    returned. *)
Definition two_failures_complete : list action :=
  two_failures_schedule ++
  [AStep 0; AStep 0; AStep 1; AStep 1; AStep 2; AStep 2; AStep 2; AStep 2;
   AStep 3; AStep 3]%nat.

(** The first chunk of the ten bytes has been read, the second is being
    written. *)
Definition ten_halfway : list action :=
  [AStep 0; AStep 1; AStep 1; AReturn; AStep 0; AStep 0; ARead 0 4;
   AStep 0; AStep 0; AStep 0; AStep 2; AStep 1; ARead 1 2]%nat.

(** * Proofs *)

Arguments is_terminal : simpl never.
Arguments chunk_end : simpl never.
Arguments next_start : simpl never.
Arguments fetch : simpl never.
Arguments GoInt.add : simpl never.
Arguments GoInt.wrap : simpl never.
Arguments output : simpl never.
Arguments returned_reader : simpl never.

(** ** Integers *)

Lemma wrap_id z : GoInt.in_range z -> GoInt.wrap z = z.
Proof.
  unfold GoInt.in_range, GoInt.min_int, GoInt.max_int, GoInt.wrap. intros H.
  rewrite Z.mod_small; lia.
Qed.

Lemma add_small a b : GoInt.in_range (a + b) -> GoInt.add a b = a + b.
Proof. apply wrap_id. Qed.

(** ** Decimal strings: [Atoi] reads back what [%d] prints *)

Section Decimal.

Import Strconv.

Lemma digit_cases d : 0 <= d <= 9 ->
  d = 0 \/ d = 1 \/ d = 2 \/ d = 3 \/ d = 4 \/ d = 5 \/ d = 6 \/ d = 7 \/ d = 8 \/ d = 9.
Proof. lia. Qed.

Lemma digit_of_char d : 0 <= d <= 9 -> digit_of (digit_char d) = Some d.
Proof.
  intros H. destruct (digit_cases d H) as [->|[->|[->|[->|[->|[->|[->|[->|[->| ->]]]]]]]]];
    reflexivity.
Qed.

Lemma digit_char_not_sign d : 0 <= d <= 9 ->
  Ascii.eqb (digit_char d) "-"%char = false /\
  Ascii.eqb (digit_char d) "+"%char = false /\
  Ascii.eqb (digit_char d) "/"%char = false.
Proof.
  intros H. destruct (digit_cases d H) as [->|[->|[->|[->|[->|[->|[->|[->|[->| ->]]]]]]]]];
    repeat split; reflexivity.
Qed.

Lemma mod10_digit n : 0 <= n mod 10 <= 9.
Proof. pose proof (Z.mod_pos_bound n 10). lia. Qed.

(** Reading the digits printed for [n] continues with the value [n]. *)
Lemma parse_utoa_aux fuel : forall n acc,
  0 <= n <= 2 ^ 64 - 1 -> n < 2 ^ Z.of_nat fuel ->
  parse_digits (utoa_aux fuel n acc) 0 = parse_digits acc n.
Proof.
  induction fuel as [|k IH]; intros n acc Hn Hf.
  - simpl in Hf. assert (n = 0) by lia. subst. reflexivity.
  - cbn [utoa_aux]. destruct (n <? 10) eqn:E.
    + apply Z.ltb_lt in E. cbn [parse_digits].
      rewrite digit_of_char by apply mod10_digit.
      rewrite Z.mod_small by lia.
      replace (0 >=? (2 ^ 64 - 1) / 10 + 1) with false by reflexivity.
      cbv zeta. replace (0 * 10 + n) with n by lia.
      destruct (n >? 2 ^ 64 - 1) eqn:E2; [lia | reflexivity].
    + apply Z.ltb_ge in E.
      rewrite IH.
      * cbn [parse_digits]. rewrite digit_of_char by apply mod10_digit.
        assert (Hq : n / 10 <= (2 ^ 64 - 1) / 10) by (apply Z.div_le_mono; lia).
        destruct (n / 10 >=? (2 ^ 64 - 1) / 10 + 1) eqn:E1; [lia|].
        cbv zeta.
        replace (n / 10 * 10 + n mod 10) with n
          by (pose proof (Z.div_mod n 10 ltac:(lia)); lia).
        destruct (n >? 2 ^ 64 - 1) eqn:E2; [lia | reflexivity].
      * split; [apply Z.div_pos; lia|].
        assert (n / 10 <= n) by (apply Z.div_le_upper_bound; lia). lia.
      * rewrite Nat2Z.inj_succ, Z.pow_succ_r in Hf by lia.
        apply Z.div_lt_upper_bound; lia.
Qed.

Lemma utoa_aux_head fuel : forall n d acc, 0 <= d <= 9 ->
  exists d' r, 0 <= d' <= 9 /\
    utoa_aux fuel n (String (digit_char d) acc) = String (digit_char d') r.
Proof.
  induction fuel as [|k IH]; intros n d acc Hd.
  - exists d, acc. split; [lia | reflexivity].
  - cbn [utoa_aux]. destruct (n <? 10).
    + exists (n mod 10), (String (digit_char d) acc).
      split; [apply mod10_digit | reflexivity].
    + apply IH, mod10_digit.
Qed.

Lemma utoa_head n : exists d r, 0 <= d <= 9 /\ utoa n = String (digit_char d) r.
Proof.
  unfold utoa. cbn [utoa_aux]. destruct (n <? 10).
  - exists (n mod 10), EmptyString. split; [apply mod10_digit | reflexivity].
  - apply utoa_aux_head, mod10_digit.
Qed.

Lemma log2_fuel n : 0 <= n -> n < 2 ^ Z.of_nat (S (Z.to_nat (Z.log2 n))).
Proof.
  intros Hn. rewrite Nat2Z.inj_succ, Z2Nat.id by apply Z.log2_nonneg.
  destruct (Z.eq_dec n 0) as [->|Hne]; [reflexivity|].
  apply Z.log2_spec. lia.
Qed.

Lemma parse_utoa n : 0 <= n <= 2 ^ 64 - 1 -> parse_digits (utoa n) 0 = inl n.
Proof.
  intros Hn. unfold utoa. rewrite parse_utoa_aux; [reflexivity | lia |].
  apply log2_fuel. lia.
Qed.

Lemma Atoi_utoa n : 0 <= n <= GoInt.max_int -> Atoi (utoa n) = inl n.
Proof.
  unfold GoInt.max_int. intros Hn.
  pose proof (parse_utoa n ltac:(lia)) as Hp.
  destruct (utoa_head n) as (d & r & Hd & E). rewrite E in *.
  destruct (digit_char_not_sign d Hd) as (E1 & E2 & _).
  unfold Atoi. rewrite E1, E2. cbn [orb]. rewrite Hp.
  destruct (n >=? 2 ^ 63) eqn:E3; [lia | reflexivity].
Qed.

(** [Atoi] inverts [%d] on every value of type [int]. *)
Lemma Atoi_Itoa n : GoInt.in_range n -> Atoi (Itoa n) = inl n.
Proof.
  unfold GoInt.in_range, GoInt.min_int, GoInt.max_int. intros Hn.
  unfold Itoa. destruct (n <? 0) eqn:E.
  - apply Z.ltb_lt in E.
    pose proof (parse_utoa (- n) ltac:(lia)) as Hp.
    destruct (utoa_head (- n)) as (d & r & Hd & E'). rewrite E' in *.
    unfold Atoi. cbn [Ascii.eqb Bool.eqb orb andb]. rewrite Hp.
    destruct (- n >? 2 ^ 63) eqn:E3; [lia|]. f_equal. lia.
  - apply Z.ltb_ge in E. apply Atoi_utoa. unfold GoInt.max_int. lia.
Qed.

End Decimal.

(** ** [strings.Split] *)

Section Splitting.

Import Strconv Strs.

Lemma utoa_aux_no_char c fuel : forall n acc,
  (forall d, 0 <= d <= 9 -> Ascii.eqb (digit_char d) c = false) ->
  has_char c acc = false -> has_char c (utoa_aux fuel n acc) = false.
Proof.
  induction fuel as [|k IH]; intros n acc Hc Hacc; [exact Hacc|].
  cbn [utoa_aux].
  assert (has_char c (String (digit_char (n mod 10)) acc) = false) as H.
  { cbn [has_char]. rewrite Hc by apply mod10_digit. exact Hacc. }
  destruct (n <? 10); [exact H | apply IH; assumption].
Qed.

Lemma utoa_no_slash n : has_char "/"%char (utoa n) = false.
Proof.
  apply utoa_aux_no_char; [|reflexivity].
  intros d Hd. apply (digit_char_not_sign d Hd).
Qed.

Lemma utoa_no_dash n : has_char "-"%char (utoa n) = false.
Proof.
  apply utoa_aux_no_char; [|reflexivity].
  intros d Hd. apply (digit_char_not_sign d Hd).
Qed.

Lemma Split_nonempty s sep : Split s sep <> [].
Proof.
  destruct s as [|c s]; cbn [Split]; [discriminate|].
  destruct (Ascii.eqb c sep); [discriminate|].
  destruct (Split s sep); discriminate.
Qed.

Lemma Split_no_sep sep s : has_char sep s = false -> Split s sep = [s].
Proof.
  induction s as [|c s IH]; [reflexivity|].
  cbn [has_char Split]. intros H. apply orb_false_iff in H as [H1 H2].
  rewrite H1, IH by assumption. reflexivity.
Qed.

(** The parts of [p ++ sep ++ t] are the parts of [p], then those of [t]. *)
Lemma Split_app sep p t :
  Split (String.append p (String sep t)) sep = Split p sep ++ Split t sep.
Proof.
  induction p as [|c p IH].
  - cbn [String.append Split]. rewrite Ascii.eqb_refl. reflexivity.
  - cbn [String.append Split]. destruct (Ascii.eqb c sep).
    + rewrite IH. reflexivity.
    + rewrite IH. pose proof (Split_nonempty p sep).
      destruct (Split p sep); [congruence | reflexivity].
Qed.

Lemma last_app_nonempty {A} (l1 l2 : list A) d :
  l2 <> [] -> List.last (l1 ++ l2) d = List.last l2 d.
Proof.
  intros H. induction l1 as [|x l1 IH]; [reflexivity|].
  cbn [app]. change (List.last (x :: l1 ++ l2) d)
    with (match l1 ++ l2 with [] => x | _ :: _ => List.last (l1 ++ l2) d end).
  destruct (l1 ++ l2) eqn:E; [|exact IH].
  apply app_eq_nil in E as [_ E]. congruence.
Qed.

(** [parts[len(parts)-1]] is the text after the last separator. *)
Lemma Split_last sep p t :
  has_char sep t = false ->
  List.last (Split (String.append p (String sep t)) sep) EmptyString = t.
Proof.
  intros H. rewrite Split_app, last_app_nonempty by apply Split_nonempty.
  rewrite Split_no_sep by assumption. reflexivity.
Qed.

End Splitting.

(** ** The option constructors *)

(** C10. For every [c < 1], [WithConcurrency c] sets the concurrency
    limit to 1 while [WithChunkSize c] sets the chunk size to the default
    of 5 MiB (5242880); neither constructor ever returns an error,
    whatever its argument. *)
Theorem option_clamping (c : Z) (f : remoteFile) (H : c < 1) :
  concurrency (fst (WithConcurrency c f)) = 1 /\
  chunkSize (fst (WithChunkSize c f)) = 5242880 /\
  (forall c' f', snd (WithConcurrency c' f') = None /\
                 snd (WithChunkSize c' f') = None).
Proof.
  unfold WithConcurrency, WithChunkSize. cbn [fst snd concurrency chunkSize].
  apply Z.ltb_lt in H. rewrite H. repeat split; reflexivity.
Qed.

Lemma option_clamping_witness :
  concurrency (fst (WithConcurrency (-3) (example_file (exact_server []) 0 7 7))) = 1 /\
  chunkSize (fst (WithChunkSize 0 (example_file (exact_server []) 0 7 7))) = 5242880.
Proof.
  split.
  - apply (option_clamping (-3) (example_file (exact_server []) 0 7 7)). lia.
  - apply (option_clamping 0 (example_file (exact_server []) 0 7 7)). lia.
Defined.

(** Values from 1 upwards are taken as they are. *)
Lemma option_in_range c f : 1 <= c ->
  concurrency (fst (WithConcurrency c f)) = c /\
  chunkSize (fst (WithChunkSize c f)) = c.
Proof.
  intros H. unfold WithConcurrency, WithChunkSize.
  cbn [fst concurrency chunkSize].
  destruct (c <? 1) eqn:E; [lia | split; reflexivity].
Qed.

(** ** Size resolution *)

Lemma utoa_not_star n : String.eqb (Strconv.utoa n) "*" = false.
Proof.
  destruct (utoa_head n) as (d & r & Hd & ->).
  cbn [String.eqb].
  destruct (digit_cases d Hd) as [->|[->|[->|[->|[->|[->|[->|[->|[->| ->]]]]]]]]];
    reflexivity.
Qed.

(** C3, as amended. A probe answer with a non-zero [ContentLength]
    resolves to that value. With [ContentLength] zero, which the code
    takes for "no length given", the text after the last [/] of the
    [Range] header decides: a decimal total that fits [int] resolves to
    that total, and the token [*] to -1, the unbounded marker. *)
Theorem size_resolution (res : Response) :
  (ContentLength res <> 0 -> resolve_size res = inl (ContentLength res)) /\
  (ContentLength res = 0 ->
   forall (range : string) (total : Z),
     0 <= total <= GoInt.max_int ->
     Header_Get (RespHeader res) headerRange
       = String.append range (String "/" (Strconv.Itoa total)) ->
     resolve_size res = inl total) /\
  (ContentLength res = 0 ->
   forall range : string,
     Header_Get (RespHeader res) headerRange = String.append range "/*" ->
     resolve_size res = inl (-1)).
Proof.
  unfold resolve_size. split; [|split].
  - intros H. apply Z.eqb_neq in H. rewrite H. reflexivity.
  - intros H range total Ht E. rewrite H, E. cbn [Z.eqb negb].
    assert (Strconv.Itoa total = Strconv.utoa total) as ->.
    { unfold Strconv.Itoa. destruct (total <? 0) eqn:E0; [lia | reflexivity]. }
    rewrite Split_last by apply utoa_no_slash.
    rewrite utoa_not_star. apply Atoi_utoa. exact Ht.
  - intros H range E. rewrite H, E. cbn [Z.eqb negb].
    rewrite Split_last by reflexivity. reflexivity.
Qed.

Lemma size_resolution_witness :
  resolve_size (response 200 "200 OK" 1234 []) = inl 1234 /\
  resolve_size (range_probe "bytes 0-99/100") = inl 100 /\
  resolve_size (range_probe "bytes 0-0/*") = inl (-1).
Proof.
  split; [|split].
  - apply (proj1 (size_resolution (response 200 "200 OK" 1234 []))).
    cbn. lia.
  - apply (proj1 (proj2 (size_resolution (range_probe "bytes 0-99/100")))
             eq_refl "bytes 0-99"%string 100); [unfold GoInt.max_int; lia|].
    reflexivity.
  - apply (proj2 (proj2 (size_resolution (range_probe "bytes 0-0/*")))
             eq_refl "bytes 0-0"%string).
    reflexivity.
Defined.

(** An answer that gives the explicit total length 0 does not resolve to
    0: the code goes on to the [Range] header and, finding none, fails. *)
Lemma size_resolution_explicit_zero :
  ContentLength empty_resource_probe = 0 /\
  resolve_size empty_resource_probe = inr (ErrSyntax "Atoi" "") /\
  resolve_size empty_resource_probe <> inl (ContentLength empty_resource_probe).
Proof. split; [|split]; [reflexivity | reflexivity | discriminate]. Qed.

(** With a length of 0 and a [Range] header, the header wins. *)
Lemma size_resolution_zero_with_range :
  resolve_size {| StatusCode := 200; Status := "200 OK"; ContentLength := 0;
                  RespHeader := [(headerRange, "bytes 0-0/7"%string)];
                  Body := []; BodyErr := None |} = inl 7.
Proof. reflexivity. Qed.

(** ** Failure of the probe *)

(** C9. If the probe cannot be issued, because the request cannot be
    built or the transport fails, or if the size cannot be parsed (the
    total is neither [*] nor an integer), [GetContext] returns an error
    and no reader: the result carries no scheduler state, so no chunk
    task has been started. *)
Theorem probe_failure (env : Env) (url : string) (opts : list Option_) :
  (forall msg, url_error env url = Some msg ->
     GetContext env url opts = inr (UrlErr msg)) /\
  (forall rq sizeReq file msg,
     NewRequestWithContext env "GET" url = inl rq ->
     Options opts (default_file env rq) = (file, None) ->
     NewRequestWithContext env "HEAD" url = inl sizeReq ->
     Do (client file) (size_request sizeReq file) = inr msg ->
     GetContext env url opts
       = inr (Errorf "unable to get content range" (DoErr msg))) /\
  (forall rq sizeReq file res e,
     NewRequestWithContext env "GET" url = inl rq ->
     Options opts (default_file env rq) = (file, None) ->
     NewRequestWithContext env "HEAD" url = inl sizeReq ->
     Do (client file) (size_request sizeReq file) = inl res ->
     ContentLength res = 0 ->
     let totalStr :=
       List.last (Strs.Split (Header_Get (RespHeader res) headerRange) "/")
         EmptyString in
     totalStr <> "*"%string ->
     Strconv.Atoi totalStr = inr e ->
     GetContext env url opts = inr e).
Proof.
  unfold GetContext. split; [|split].
  - intros msg H. unfold NewRequestWithContext. rewrite H. reflexivity.
  - intros rq sizeReq file msg H1 H2 H3 H4. rewrite H1, H2, H3, H4. reflexivity.
  - intros rq sizeReq file res e H1 H2 H3 H4 H5 H6 H7.
    rewrite H1, H2, H3, H4. unfold resolve_size. rewrite H5. cbn [Z.eqb negb].
    apply String.eqb_neq in H6. cbv zeta. rewrite H6, H7. reflexivity.
Qed.

(** ** The transition system *)

Lemma step_transition f a st st' :
  step f a st = Some st' -> transition f st st'.
Proof.
  unfold step. destruct (panicked st); [discriminate|].
  destruct a as [|c|i|i|i n|].
  - destruct (returned_reader st) eqn:E; [discriminate|].
    intros [= <-]. by constructor.
  - destruct (ctx_done st) eqn:E; [discriminate|].
    intros [= <-]. by constructor.
  - destruct (tasks st !! i) as [t|] eqn:Ht; [|discriminate].
    unfold step_task. destruct (at_pc t) eqn:Hpc.
    + destruct (tok t) eqn:E; [|discriminate]. intros [= <-].
      by eapply T_term_eof.
    + intros [= <-]. by eapply T_term_defer.
    + destruct (cl_closed st) eqn:E.
      * intros [= <-]. by eapply T_panic.
      * destruct (Z.of_nat (cl_len st) <? concurrency f) eqn:E2; [|discriminate].
        intros [= <-]. apply Z.ltb_lt in E2. by eapply T_acquire.
    + destruct (fetch f (start t)) as [e|[body berr]] eqn:E; intros [= <-].
      * by eapply T_fetch_fail.
      * by eapply T_fetch_ok.
    + destruct (tok t) eqn:E; [|discriminate]. intros [= <-].
      by eapply T_select_tok.
    + destruct (pipe st) eqn:E.
      * intros [= <-]. by eapply T_copy_closed.
      * destruct rest; [|discriminate]. destruct berr; intros [= <-].
        -- by eapply T_copy_err.
        -- by eapply T_copy_done.
    + intros [= <-]. by eapply T_close_next.
    + destruct (cl_len st) eqn:E.
      * destruct (cl_closed st) eqn:E2; [|discriminate]. intros [= <-].
        by eapply T_release_closed.
      * intros [= <-]. by eapply T_release.
    + discriminate.
  - destruct (tasks st !! i) as [t|] eqn:Ht; [|discriminate].
    unfold step_ctx. destruct (ctx_done st) eqn:E; [|discriminate].
    destruct (at_pc t) eqn:Hpc; try discriminate; intros [= <-].
    + by eapply T_term_ctx.
    + by eapply T_select_ctx.
  - destruct (tasks st !! i) as [t|] eqn:Ht; [|discriminate].
    unfold step_read.
    destruct (at_pc t) eqn:Hpc; try discriminate.
    destruct (pipe st) eqn:E1; [discriminate|].
    destruct (rd_err st) eqn:E2; [discriminate|].
    destruct (returned_reader st) eqn:E3; [|discriminate].
    destruct (0 <? n)%nat eqn:E4; [|discriminate].
    destruct (n <=? length rest)%nat eqn:E5; [|discriminate].
    cbn [andb]. intros [= <-].
    apply Nat.ltb_lt in E4. apply Nat.leb_le in E5.
    by eapply T_read.
  - destruct (pipe st) eqn:E1; [|discriminate].
    destruct (rd_err st) eqn:E2; [discriminate|].
    destruct (returned_reader st) eqn:E3; [|discriminate].
    intros [= <-]. by constructor.
Qed.

Lemma run_reachable f sched : forall st st',
  reachable f st -> run f sched st = Some st' -> reachable f st'.
Proof.
  induction sched as [|a sched IH]; intros st st' Hr; cbn [run].
  - intros [= <-]. exact Hr.
  - destruct (step f a st) as [st1|] eqn:E; [|discriminate].
    apply IH. by eapply reach_step.
Qed.

(** An invariant holds in every reachable state once it holds at the
    start and every transition keeps it. *)
Lemma reachable_ind_tr f (P : state -> Prop) :
  P (init_state f) ->
  (forall st st', reachable f st -> P st -> transition f st st' -> P st') ->
  forall st, reachable f st -> P st.
Proof.
  intros H0 Hs st Hr. induction Hr as [|st a st' Hr IH E]; [exact H0|].
  eapply Hs; eauto using step_transition.
Qed.

(** ** Lists of tasks *)

Lemma count_if_app {A} (P : A -> bool) l1 l2 :
  count_if P (l1 ++ l2) = (count_if P l1 + count_if P l2)%nat.
Proof. induction l1 as [|x l1 IH]; cbn [count_if app]; lia. Qed.

Lemma count_if_alter {A} (P : A -> bool) (g : A -> A) l : forall i x,
  l !! i = Some x ->
  (count_if P (alter g i l) + (if P x then 1 else 0)
   = count_if P l + (if P (g x) then 1 else 0))%nat.
Proof.
  induction l as [|y l IH]; intros [|i] x H; try discriminate.
  - cbn in H. injection H as ->. cbn. lia.
  - cbn in H. cbn [alter list_alter count_if]. specialize (IH i x H).
    change (list_alter g i l) with (alter g i l). lia.
Qed.

Lemma count_if_alter_same {A} (P : A -> bool) (g : A -> A) l i x :
  l !! i = Some x -> P (g x) = P x -> count_if P (alter g i l) = count_if P l.
Proof.
  intros H E. pose proof (count_if_alter P g l i x H) as C. rewrite E in C. lia.
Qed.

Lemma count_if_le {A} (P Q : A -> bool) l :
  (forall x, P x = true -> Q x = true) -> (count_if P l <= count_if Q l)%nat.
Proof.
  intros H. induction l as [|x l IH]; cbn [count_if]; [lia|].
  destruct (P x) eqn:E; [rewrite (H x E)|]; destruct (Q x); lia.
Qed.

(** A lookup in a list altered at [i]. *)
Lemma lookup_alter_Some {A} (g : A -> A) (l : list A) i j y :
  alter g i l !! j = Some y ->
  (j = i /\ exists x, l !! i = Some x /\ y = g x) \/ (j <> i /\ l !! j = Some y).
Proof.
  destruct (decide (j = i)) as [->|Hne].
  - rewrite list_lookup_alter_eq. intros H.
    destruct (l !! i) as [x|]; simplify_eq/=. left. eauto.
  - rewrite list_lookup_alter_ne by congruence. eauto.
Qed.

Lemma lookup_alter_eq {A} (g : A -> A) (l : list A) i x :
  l !! i = Some x -> alter g i l !! i = Some (g x).
Proof. intros H. by rewrite list_lookup_alter_eq, H. Qed.

Lemma Forall_alter_one {A} (P : A -> Prop) (g : A -> A) l i x :
  Forall P l -> l !! i = Some x -> P (g x) -> Forall P (alter g i l).
Proof.
  intros Hl Hi Hg. apply Forall_lookup. intros j y Hj.
  apply lookup_alter_Some in Hj as [(-> & x' & Hx & ->)|(_ & Hj)].
  - by simplify_eq.
  - by eapply Forall_lookup_1.
Qed.

(** ** The chain of goroutines is kept by every step *)

Lemma pc_ok_spawn f s : pc_ok f (spawn f s).
Proof.
  unfold pc_ok, spawn. cbn. by destruct (is_terminal f s) eqn:E.
Qed.

Lemma has_child_spawn f s : has_child f (spawn f s) = false.
Proof. unfold has_child, spawn. cbn. by destruct (is_terminal f s). Qed.

Lemma holds_permit_spawn f s : holds_permit (at_pc (spawn f s)) = false.
Proof. unfold spawn. cbn. by destruct (is_terminal f s). Qed.

Lemma passed_spawn f s : passed (at_pc (spawn f s)) = false.
Proof. unfold spawn. cbn. by destruct (is_terminal f s). Qed.

Lemma chained_child f ts i t t' :
  chained f ts -> ts !! i = Some t -> ts !! S i = Some t' ->
  has_child f t = true /\ nxt t = S i /\
  start t' = next_start f (start t) /\ tok t' = returned (at_pc t).
Proof.
  intros (_ & H2 & H3) Hi Hs.
  destruct (has_child f t) eqn:E.
  - destruct (H2 i t Hi E) as (Hn & t2 & Ht2 & Hst & Htok).
    rewrite Hs in Ht2. injection Ht2 as <-. auto.
  - specialize (H3 i t Hi E). apply lookup_lt_Some in Hs. lia.
Qed.

(** Replacing tasks by tasks of the same shape keeps the chain. *)
Lemma chained_same_shape f ts ts' :
  chained f ts -> length ts' = length ts ->
  (forall j t', ts' !! j = Some t' ->
     exists t, ts !! j = Some t /\ start t' = start t /\ nxt t' = nxt t /\
       (j <> 0%nat -> tok t' = tok t) /\
       has_child f t' = has_child f t /\
       (has_child f t = true -> returned (at_pc t') = returned (at_pc t))) ->
  chained f ts'.
Proof.
  intros (H1 & H2 & H3) Hlen Hsh. split; [|split].
  - destruct H1 as (t0 & Ht0 & Hs0).
    destruct (lookup_lt_is_Some_2 ts' 0) as [t0' Ht0'].
    { rewrite Hlen. by eapply lookup_lt_Some. }
    destruct (Hsh _ _ Ht0') as (t & Ht & Hst & _).
    exists t0'. split; [done|]. simplify_eq. congruence.
  - intros i t' Hi Hc.
    destruct (Hsh _ _ Hi) as (t & Ht & Hst & Hn & _ & Hch & Hret).
    rewrite Hch in Hc. destruct (H2 i t Ht Hc) as (Hnx & c & Hci & Hcs & Hct).
    split; [congruence|].
    destruct (lookup_lt_is_Some_2 ts' (S i)) as [c' Hc'].
    { rewrite Hlen. by eapply lookup_lt_Some. }
    destruct (Hsh _ _ Hc') as (c0 & Hc0 & Hcst & _ & Hctok & _).
    exists c'. simplify_eq. split; [done|]. split; [congruence|].
    rewrite Hctok by lia. rewrite Hret by done. done.
  - intros i t' Hi Hc.
    destruct (Hsh _ _ Hi) as (t & Ht & _ & _ & _ & Hch & _).
    rewrite Hch in Hc. rewrite Hlen. eauto.
Qed.

Lemma chained_alter_pc f ts i t p :
  chained f ts -> ts !! i = Some t ->
  has_child f (with_pc p t) = has_child f t ->
  (has_child f t = true -> returned p = returned (at_pc t)) ->
  chained f (alter (with_pc p) i ts).
Proof.
  intros Hc Hi Hh Hr. eapply chained_same_shape; [exact Hc | apply length_alter |].
  intros j t' Hj. apply lookup_alter_Some in Hj as [(-> & x & Hx & ->)|(_ & Hj)].
  - exists t. simplify_eq. repeat split; auto.
  - exists t'. repeat split; auto.
Qed.

Lemma chained_alter_tok0 f ts :
  chained f ts -> chained f (alter with_tok 0%nat ts).
Proof.
  intros Hc. eapply chained_same_shape; [exact Hc | apply length_alter |].
  intros j t' Hj. apply lookup_alter_Some in Hj as [(-> & x & Hx & ->)|(_ & Hj)].
  - exists x. repeat split; auto. done.
  - exists t'. repeat split; auto.
Qed.

(** The deferred [close(next)]: the parent is past it, the child's
    sequenceLock is closed. *)
Lemma chained_close_next f ts i t :
  chained f ts -> ts !! i = Some t -> at_pc t = CloseNext ->
  chained f (alter (with_pc Release) i (alter with_tok (nxt t) ts)).
Proof.
  intros Hc Hi Hpc.
  assert (has_child f t = true) as Hch by (unfold has_child; by rewrite Hpc).
  destruct Hc as (H1 & H2 & H3).
  destruct (H2 i t Hi Hch) as (Hn & c & Hci & Hcs & Hct). rewrite Hn.
  assert (forall j x, alter (with_pc Release) i (alter with_tok (S i) ts) !! j = Some x ->
            exists y, ts !! j = Some y /\ start x = start y /\ nxt x = nxt y /\
              has_child f x = has_child f y /\
              tok x = (if decide (j = S i) then true else tok y) /\
              returned (at_pc x)
                = (if decide (j = i) then true else returned (at_pc y))) as Hsh.
  { intros j x Hj. apply lookup_alter_Some in Hj as [(-> & y & Hy & ->)|(Hne & Hj)].
    - rewrite list_lookup_alter_ne in Hy by lia. exists t. simplify_eq.
      split_and!; try done; cbn;
        first [ by rewrite decide_False by lia | by rewrite decide_True
              | unfold has_child; cbn; by rewrite Hpc ].
    - apply lookup_alter_Some in Hj as [(-> & y & Hy & ->)|(Hne' & Hj)].
      + exists y. split_and!; try done; cbn;
          first [ by rewrite decide_False by lia | by rewrite decide_True ].
      + exists x. split_and!; try done; by rewrite decide_False. }
  assert (forall j, is_Some (ts !! j) ->
            is_Some (alter (with_pc Release) i (alter with_tok (S i) ts) !! j)) as Hex.
  { intros j Hj. apply lookup_lt_is_Some. rewrite !length_alter.
    by apply lookup_lt_is_Some. }
  split; [|split].
  - destruct H1 as (t0 & Ht0 & Hs0). destruct (Hex 0%nat) as [x Hx]; [eauto|].
    destruct (Hsh _ _ Hx) as (y & Hy & Hst & _). exists x. split; [done|].
    simplify_eq. congruence.
  - intros j x Hj Hcx. destruct (Hsh _ _ Hj) as (y & Hy & Hst & Hnx & Hhc & _ & Hret).
    rewrite Hhc in Hcx. destruct (H2 j y Hy Hcx) as (Hn' & c' & Hc' & Hcs' & Hct').
    split; [congruence|]. destruct (Hex (S j)) as [x' Hx']; [eauto|].
    destruct (Hsh _ _ Hx') as (y' & Hy' & Hst' & _ & _ & Htok' & _).
    exists x'. simplify_eq. split; [done|]. split; [congruence|].
    rewrite Htok', Hret. destruct (decide (j = i)) as [->|Hne].
    + by rewrite decide_True.
    + rewrite decide_False by lia. done.
  - intros j x Hj Hcx. destruct (Hsh _ _ Hj) as (y & Hy & _ & _ & Hhc & _).
    rewrite Hhc in Hcx. rewrite !length_alter. eauto.
Qed.

(** Taking a permit and starting the next goroutine. *)
Lemma chained_acquire f ts i t :
  chained f ts -> ts !! i = Some t -> at_pc t = Acquire ->
  chained f (alter (with_pc Fetch) i (alter (with_nxt (length ts)) i ts)
               ++ [spawn f (next_start f (start t))]).
Proof.
  intros Hc Hi Hpc.
  assert (has_child f t = false) as Hch by (unfold has_child; by rewrite Hpc).
  destruct Hc as (H1 & H2 & H3). pose proof (H3 i t Hi Hch) as Hlen.
  set (ts1 := alter (with_pc Fetch) i (alter (with_nxt (length ts)) i ts)).
  assert (length ts1 = S i) as Hlen1 by (unfold ts1; by rewrite !length_alter).
  assert (ts1 !! i = Some (with_pc Fetch (with_nxt (length ts) t))) as Hi1.
  { unfold ts1. by erewrite lookup_alter_eq; [|erewrite lookup_alter_eq]. }
  assert (forall j, j <> i -> ts1 !! j = ts !! j) as Hne1.
  { intros j Hj. unfold ts1. by rewrite !list_lookup_alter_ne. }
  split; [|split].
  - destruct H1 as (t0 & Ht0 & Hs0). destruct (decide (i = 0%nat)) as [->|Hne].
    + eexists. split; [by apply lookup_app_l_Some|]. simplify_eq. done.
    + exists t0. split; [|done]. apply lookup_app_l_Some. by rewrite Hne1.
  - intros j x Hj Hcx. apply lookup_app_Some in Hj as [Hj|(Hge & Hj)].
    + destruct (decide (j = i)) as [->|Hne].
      * rewrite Hi1 in Hj. injection Hj as <-. cbn. split; [lia|].
        exists (spawn f (next_start f (start t))). split; [|done].
        rewrite lookup_app_r by lia. rewrite Hlen1, Nat.sub_diag. done.
      * rewrite Hne1 in Hj by done.
        destruct (H2 j x Hj Hcx) as (Hn & c & Hcj & Hcs & Hct). split; [done|].
        destruct (decide (S j = i)) as [E|E].
        -- eexists. split; [apply lookup_app_l_Some; rewrite E; exact Hi1|].
           rewrite E in Hcj. simplify_eq. done.
        -- exists c. split; [|done]. apply lookup_app_l_Some. by rewrite Hne1.
    + rewrite Hlen1 in *. apply list_lookup_singleton_Some in Hj as [Hj <-].
      by rewrite has_child_spawn in Hcx.
  - intros j x Hj Hcx. rewrite length_app, Hlen1. cbn [length].
    apply lookup_app_Some in Hj as [Hj|(Hge & Hj)].
    + destruct (decide (j = i)) as [->|Hne].
      * rewrite Hi1 in Hj. injection Hj as <-. discriminate.
      * rewrite Hne1 in Hj by done. specialize (H3 j x Hj Hcx). lia.
    + rewrite Hlen1 in *. apply list_lookup_singleton_Some in Hj as [Hj _]. lia.
Qed.

(** ** Well-formedness is an invariant *)

Lemma wf_init f : wf f (init_state f).
Proof.
  constructor; cbn -[spawn].
  - constructor; [|constructor]. apply pc_ok_spawn.
  - split; [|split].
    + eexists. split; reflexivity.
    + intros [|i] t Ht Hc; [|discriminate]. injection Ht as <-.
      by rewrite has_child_spawn in Hc.
    + intros [|i] t Ht _; [reflexivity | discriminate].
  - by rewrite holds_permit_spawn.
  - lia.
  - discriminate.
  - reflexivity.
Qed.

(** A step that only moves goroutine [i] to a program point of the same
    kind. *)
Lemma wf_local f st st1 i t p :
  wf f st -> tasks st !! i = Some t ->
  tasks st1 = tasks st -> cl_len st1 = cl_len st ->
  cl_closed st1 = cl_closed st -> panicked st1 = panicked st ->
  at_pc t <> Done ->
  pc_ok f (with_pc p t) ->
  has_child f (with_pc p t) = has_child f t ->
  (has_child f t = true -> returned p = returned (at_pc t)) ->
  holds_permit p = holds_permit (at_pc t) ->
  wf f (set_pc i p st1).
Proof.
  intros [W1 W2 W3 W4 W5 W6] Hi Et El Ec Ep Hnd Hok Hch Hret Hper.
  constructor; cbn; rewrite ?Et, ?El, ?Ec, ?Ep; auto.
  - by eapply Forall_alter_one.
  - by eapply chained_alter_pc.
  - rewrite W3. symmetry.
    by apply (count_if_alter_same (fun t => holds_permit (at_pc t)) _ _ _ t).
  - intros Hc. specialize (W5 Hc). eapply Forall_alter_one; eauto.
    left. rewrite Hch. pose proof (Forall_lookup_1 _ _ _ _ W5 Hi) as [?|?]; done.
Qed.

Lemma last_task_unique f ts i j t t' :
  chained f ts -> ts !! i = Some t -> ts !! j = Some t' ->
  has_child f t = false -> has_child f t' = false -> i = j.
Proof.
  intros (_ & _ & H3) Hi Hj Hc Hc'.
  pose proof (H3 _ _ Hi Hc). pose proof (H3 _ _ Hj Hc'). lia.
Qed.

Ltac local_move Hpc :=
  eapply wf_local; eauto; rewrite ?Hpc; unfold has_child, pc_ok; cbn;
  rewrite ?Hpc; try done.

Lemma wf_step f st st' : wf f st -> transition f st st' -> wf f st'.
Proof.
  intros W T. pose proof W as [W1 W2 W3 W4 W5 W6].
  destruct T as
    [ Hrr | c Hctx | i t Hi Hpc Htok | i t c Hi Hpc Hctx | i t Hi Hpc
    | i t Hi Hpc Hcl | i t Hi Hpc Hcl Hlt | i t e Hi Hpc Hf
    | i t body berr Hi Hpc Hf | i t body berr Hi Hpc Htok
    | i t body berr c Hi Hpc Hctx | i t rest berr e Hi Hpc Hp
    | i t Hi Hpc Hp | i t msg Hi Hpc Hp | i t Hi Hpc | i t n Hi Hpc Hn
    | i t Hi Hpc Hn Hcl | i t rest berr n Hi Hpc Hp Hrd Hrr Hn
    | e Hp Hrd Hrr ];
    try (pose proof (Forall_lookup_1 _ _ _ _ W1 Hi) as Hok;
         unfold pc_ok in Hok; rewrite Hpc in Hok).
  - (* GetContext returns *)
    constructor; cbn; auto.
    + apply Forall_lookup. intros j x Hj.
      apply lookup_alter_Some in Hj as [(-> & y & Hy & ->)|(_ & Hj)].
      * exact (Forall_lookup_1 _ _ _ _ W1 Hy).
      * exact (Forall_lookup_1 _ _ _ _ W1 Hj).
    + by apply chained_alter_tok0.
    + rewrite W3. destruct W2 as ((t0 & Ht0 & _) & _). symmetry.
      by apply (count_if_alter_same (fun t => holds_permit (at_pc t)) _ _ _ t0).
    + intros Hc. specialize (W5 Hc). apply Forall_lookup. intros j x Hj.
      apply lookup_alter_Some in Hj as [(-> & y & Hy & ->)|(_ & Hj)].
      * exact (Forall_lookup_1 _ _ _ _ W5 Hy).
      * exact (Forall_lookup_1 _ _ _ _ W5 Hj).
  - (* cancellation *)
    constructor; cbn; auto.
  - local_move Hpc.
  - local_move Hpc.
  - (* the terminal task closes concurrencyLock *)
    assert (has_child f t = false) as Hch by (unfold has_child; by rewrite Hpc).
    constructor; cbn; auto.
    + eapply Forall_alter_one; eauto. done.
    + eapply chained_alter_pc; eauto.
      * unfold has_child. cbn. by rewrite Hpc, Hok.
      * by rewrite Hch.
    + rewrite W3. symmetry.
      apply (count_if_alter_same (fun t => holds_permit (at_pc t)) _ _ _ t); auto.
      cbn. by rewrite Hpc.
    + intros _. apply Forall_lookup. intros j x Hj.
      apply lookup_alter_Some in Hj as [(-> & y & Hy & ->)|(Hne & Hj)].
      * by right.
      * left. destruct (has_child f x) eqn:E; [done|].
        exfalso. apply Hne. eapply last_task_unique; eauto.
  - (* a send on the closed concurrencyLock cannot happen *)
    exfalso. pose proof (Forall_lookup_1 _ _ _ _ (W5 Hcl) Hi) as [H|H].
    + unfold has_child in H. by rewrite Hpc in H.
    + by rewrite Hpc in H.
  - (* a permit is taken and the next task spawned *)
    constructor; cbn; auto.
    + apply Forall_app. split.
      * eapply Forall_alter_one; [|by erewrite lookup_alter_eq|done].
        eapply Forall_alter_one; eauto.
        unfold pc_ok. cbn. by rewrite Hpc.
      * constructor; [|constructor]. apply pc_ok_spawn.
    + by apply chained_acquire.
    + rewrite count_if_app, W3.
      pose proof (count_if_alter (fun t => holds_permit (at_pc t)) (with_pc Fetch)
                    (alter (with_nxt (length (tasks st))) i (tasks st)) i
                    (with_nxt (length (tasks st)) t)
                    ltac:(by apply lookup_alter_eq)) as C1.
      pose proof (count_if_alter_same (fun t => holds_permit (at_pc t))
                    (with_nxt (length (tasks st))) (tasks st) i t Hi eq_refl) as C2.
      cbn in C1. rewrite Hpc in C1. cbn in C1.
      cbn [count_if]. rewrite holds_permit_spawn. lia.
    + lia.
    + discriminate.
  - local_move Hpc.
  - local_move Hpc.
  - local_move Hpc.
  - local_move Hpc.
  - local_move Hpc.
  - local_move Hpc.
  - local_move Hpc.
  - (* the deferred close(next) *)
    constructor; cbn; auto.
    + eapply Forall_alter_one.
      * apply Forall_lookup. intros j x Hj.
        apply lookup_alter_Some in Hj as [(-> & y & Hy & ->)|(_ & Hj)].
        -- exact (Forall_lookup_1 _ _ _ _ W1 Hy).
        -- exact (Forall_lookup_1 _ _ _ _ W1 Hj).
      * destruct W2 as (_ & H2 & _).
        destruct (H2 i t Hi) as (Hn & _); [unfold has_child; by rewrite Hpc|].
        rewrite list_lookup_alter_ne by lia. exact Hi.
      * done.
    + by apply chained_close_next.
    + rewrite W3. destruct W2 as (_ & H2 & _).
      destruct (H2 i t Hi) as (Hn & c & Hc & _); [unfold has_child; by rewrite Hpc|].
      rewrite Hn. symmetry.
      erewrite (count_if_alter_same (fun t => holds_permit (at_pc t)) _ _ i t);
        [| by rewrite list_lookup_alter_ne by lia | cbn; by rewrite Hpc].
      by apply (count_if_alter_same (fun t => holds_permit (at_pc t)) _ _ _ c).
    + intros Hc. specialize (W5 Hc). apply Forall_lookup. intros j x Hj.
      apply lookup_alter_Some in Hj as [(-> & y & Hy & ->)|(_ & Hj)].
      * left. unfold has_child. done.
      * apply lookup_alter_Some in Hj as [(-> & y & Hy & ->)|(_ & Hj)].
        -- exact (Forall_lookup_1 _ _ _ _ W5 Hy).
        -- exact (Forall_lookup_1 _ _ _ _ W5 Hj).
  - (* the deferred receive gives the permit back *)
    pose proof (count_if_alter (fun t => holds_permit (at_pc t)) (with_pc Done)
                  (tasks st) i t Hi) as C.
    cbn in C. rewrite Hpc in C. cbn in C.
    constructor; cbn; auto.
    + eapply Forall_alter_one; eauto. done.
    + eapply chained_alter_pc; eauto.
      * unfold has_child. cbn. by rewrite Hpc, Hok.
      * intros _. by rewrite Hpc.
    + lia.
    + lia.
    + intros Hc. specialize (W5 Hc). eapply Forall_alter_one; eauto.
  - (* a holder of a permit finds one to receive *)
    exfalso.
    pose proof (count_if_alter (fun t => holds_permit (at_pc t)) (with_pc Done)
                  (tasks st) i t Hi) as C.
    cbn in C. rewrite Hpc in C. cbn in C. lia.
  - local_move Hpc.
  - constructor; cbn; auto.
Qed.

Lemma reachable_wf f st : reachable f st -> wf f st.
Proof.
  apply reachable_ind_tr; [apply wf_init|].
  intros s s' _. apply wf_step.
Qed.

(** ** What a step does to the list of goroutines *)

Lemma pc_mono_refl p : pc_mono p p.
Proof. by repeat split. Qed.

(** Tasks keep their index and start offset; a closed sequenceLock stays
    closed; the only new task is appended at the end. *)
Lemma transition_tasks f st st' :
  transition f st st' ->
  (length (tasks st) <= length (tasks st'))%nat /\
  forall j t', tasks st' !! j = Some t' ->
    (exists t, tasks st !! j = Some t /\ start t' = start t /\
               (tok t = true -> tok t' = true) /\
               pc_mono (at_pc t) (at_pc t')) \/
    (j = length (tasks st) /\ has_child f t' = false /\
     passed (at_pc t') = false /\ tok t' = false).
Proof.
  assert (forall (ts : list task) (i : nat) p (t : task) (j : nat) t',
            ts !! i = Some t -> pc_mono (at_pc t) p ->
            alter (with_pc p) i ts !! j = Some t' ->
            exists t0, ts !! j = Some t0 /\ start t' = start t0 /\
              (tok t0 = true -> tok t' = true) /\
              pc_mono (at_pc t0) (at_pc t')) as Hpc.
  { intros ts i p t j t' Hi Hm Hj.
    apply lookup_alter_Some in Hj as [(-> & y & Hy & ->)|(_ & Hj)].
    - exists t. simplify_eq. split_and!; auto.
    - exists t'. split_and!; auto using pc_mono_refl. }
  assert (forall (ts : list task) (i j : nat) (t' : task),
            alter with_tok i ts !! j = Some t' ->
            exists t0, ts !! j = Some t0 /\ start t' = start t0 /\
              (tok t0 = true -> tok t' = true) /\
              pc_mono (at_pc t0) (at_pc t')) as Htok.
  { intros ts i j t' Hj.
    apply lookup_alter_Some in Hj as [(-> & y & Hy & ->)|(_ & Hj)].
    - exists y. split_and!; auto using pc_mono_refl.
    - exists t'. split_and!; auto using pc_mono_refl. }
  intros T.
  destruct T as
    [ Hrr | c Hctx | i t Hi Hpc' Htk | i t c Hi Hpc' Hctx | i t Hi Hpc'
    | i t Hi Hpc' Hcl | i t Hi Hpc' Hcl Hlt | i t e Hi Hpc' Hf
    | i t body berr Hi Hpc' Hf | i t body berr Hi Hpc' Htk
    | i t body berr c Hi Hpc' Hctx | i t rest berr e Hi Hpc' Hp
    | i t Hi Hpc' Hp | i t msg Hi Hpc' Hp | i t Hi Hpc' | i t n Hi Hpc' Hn
    | i t Hi Hpc' Hn Hcl | i t rest berr n Hi Hpc' Hp Hrd Hrr Hn
    | e Hp Hrd Hrr ];
    cbn [tasks set_pc set_tasks close_with set_pipe set_cl close_seq set_ctx
           set_panicked add_read set_rd_err];
    rewrite ?length_app, ?length_alter; cbn [length];
    (split; [lia|]); intros j t' Hj;
    try (left; eapply Hpc; [exact Hi | | exact Hj];
         unfold pc_mono; rewrite Hpc'; by cbn).
  - left. by eapply Htok.
  - left. exists t'. split_and!; auto using pc_mono_refl.
  - left. exists t'. split_and!; auto using pc_mono_refl.
  - apply lookup_app_Some in Hj as [Hj|(Hge & Hj)].
    + left. apply lookup_alter_Some in Hj as [(-> & y & Hy & ->)|(_ & Hj)].
      * rewrite (lookup_alter_eq _ _ _ _ Hi) in Hy. injection Hy as <-.
        exists t. split_and!; auto. unfold pc_mono. cbn. by rewrite Hpc'.
      * apply lookup_alter_Some in Hj as [(-> & y & Hy & ->)|(_ & Hj)].
        -- exists y. split_and!; auto using pc_mono_refl.
        -- exists t'. split_and!; auto using pc_mono_refl.
    + right. rewrite !length_alter in *.
      apply list_lookup_singleton_Some in Hj as [Hj <-].
      split; [lia|]. rewrite has_child_spawn. unfold spawn. cbn.
      by destruct (is_terminal f (next_start f (start t))).
  - left. apply lookup_alter_Some in Hj as [(-> & y & Hy & ->)|(_ & Hj)].
    + destruct (Htok _ _ _ _ Hy) as (t0 & Ht0 & Hs & Ht & Hm).
      exists t0. simplify_eq. split_and!; auto.
      unfold pc_mono. cbn. by rewrite Hpc'.
    + by eapply Htok.
  - left. exists t'. split_and!; auto using pc_mono_refl.
Qed.

(** ** The sink, the tokens and the reads *)

Ltac tr_cases T :=
  destruct T as
    [ Hrr | c Hctx | i t Hi Hpc Htk | i t c Hi Hpc Hctx | i t Hi Hpc
    | i t Hi Hpc Hcl | i t Hi Hpc Hcl Hlt | i t e Hi Hpc Hf
    | i t body berr Hi Hpc Hf | i t body berr Hi Hpc Htk
    | i t body berr c Hi Hpc Hctx | i t rest berr e Hi Hpc Hp
    | i t Hi Hpc Hp | i t msg Hi Hpc Hp | i t Hi Hpc | i t n Hi Hpc Hn
    | i t Hi Hpc Hn Hcl | i t rest berr n Hi Hpc Hp Hrd Hrr Hn
    | e Hp Hrd Hrr ];
  cbn [tasks pipe reads rd_err cl_len cl_closed ctx_done panicked
       set_pc set_tasks close_with set_pipe set_cl close_seq set_ctx
       set_panicked add_read set_rd_err] in *.

Lemma pipe_stable f st st' e0 :
  transition f st st' -> pipe st = Some e0 -> pipe st' = Some e0.
Proof. intros T H. tr_cases T; rewrite ?H; done. Qed.

Lemma pipe_open_before f st st' :
  transition f st st' -> pipe st' = None -> pipe st = None.
Proof.
  intros T H. destruct (pipe st) as [e|] eqn:E; [|done].
  rewrite (pipe_stable _ _ _ _ T E) in H. done.
Qed.

Lemma fetch_not_eof f s e : fetch f s = inl e -> e <> EOF.
Proof.
  unfold fetch. destruct (Do _ _) as [res|msg]; [|by intros [= <-]].
  destruct (_ || _); [by intros [= <-] | discriminate].
Qed.

Lemma Forall_alter_tok (P : task -> Prop) i ts :
  (forall t, P t -> P (with_tok t)) -> Forall P ts -> Forall P (alter with_tok i ts).
Proof.
  intros H Hl. apply Forall_lookup. intros j x Hj.
  apply lookup_alter_Some in Hj as [(-> & y & Hy & ->)|(_ & Hj)].
  - apply H. by eapply Forall_lookup_1.
  - by eapply Forall_lookup_1.
Qed.

Lemma body_step f st st' :
  Forall (body_ok f) (tasks st) -> transition f st st' ->
  Forall (body_ok f) (tasks st').
Proof.
  intros B T.
  assert (forall t, body_ok f t -> body_ok f (with_tok t)) as Htok.
  { intros t. unfold body_ok. cbn. destruct (at_pc t); tauto. }
  tr_cases T; auto using Forall_alter_tok;
    try (pose proof (Forall_lookup_1 _ _ _ _ B Hi) as Hb;
         unfold body_ok in Hb; rewrite Hpc in Hb);
    try (eapply Forall_alter_one; [| eassumption |]; auto using Forall_alter_tok;
         unfold body_ok, fetch_error; cbn; rewrite ?Hf; by intuition).
  - apply Forall_app. split.
    + eapply Forall_alter_one; [|by apply lookup_alter_eq|done].
      eapply Forall_alter_one; eauto. unfold body_ok. cbn. by rewrite Hpc.
    + constructor; [|constructor]. unfold body_ok, spawn. cbn.
      by destruct (is_terminal _ _).
  - eapply Forall_alter_one; [| eassumption |]; auto.
    unfold body_ok. cbn. eauto.
  - apply Forall_lookup. intros j x Hj.
    apply lookup_alter_Some in Hj as [(-> & y & Hy & ->)|(_ & Hj)]; [done|].
    eapply Forall_lookup_1; [apply Forall_alter_tok; eauto | exact Hj].
Qed.

Lemma body_ok_copy f t rest berr :
  body_ok f t -> at_pc t = Copy rest berr ->
  fetch_error f (start t) = None /\ tok t = true.
Proof.
  unfold body_ok, fetch_error. intros H E. rewrite E in H.
  destruct H as [(body & ->) ?]. done.
Qed.

Lemma open_step f st st' :
  wf f st -> Forall (body_ok f) (tasks st) ->
  (pipe st = None -> Forall (open_ok f) (tasks st)) ->
  transition f st st' ->
  pipe st' = None -> Forall (open_ok f) (tasks st').
Proof.
  intros W B O T Hp'.
  pose proof (pipe_open_before _ _ _ T Hp') as Hp0. specialize (O Hp0).
  assert (forall t, open_ok f t -> open_ok f (with_tok t)) as Htok.
  { intros t. unfold open_ok, has_child. cbn. tauto. }
  tr_cases T; auto using Forall_alter_tok;
    try (rewrite Hp0 in Hp'; discriminate); try congruence;
    pose proof (Forall_lookup_1 _ _ _ _ O Hi) as Ho;
    pose proof (Forall_lookup_1 _ _ _ _ B Hi) as Hb;
    pose proof (Forall_lookup_1 _ _ _ _ (wf_pc _ _ W) Hi) as Hk;
    unfold open_ok, has_child in Ho; unfold body_ok in Hb; unfold pc_ok in Hk;
    rewrite Hpc in Ho, Hb, Hk; cbn in Ho;
    try (eapply Forall_alter_one; [| eassumption |]; auto using Forall_alter_tok;
         unfold open_ok, has_child, fetch_error; cbn;
         rewrite ?Hb, ?Hk; by intuition).
  - apply Forall_app. split.
    + eapply Forall_alter_one; [|by apply lookup_alter_eq|by unfold open_ok].
      eapply Forall_alter_one; eauto. unfold open_ok. cbn. by rewrite Hpc.
    + constructor; [|constructor]. unfold open_ok.
      by rewrite passed_spawn.
  - apply Forall_lookup. intros j x Hj.
    apply lookup_alter_Some in Hj as [(-> & y & Hy & ->)|(_ & Hj)].
    + apply lookup_alter_Some in Hy as [(E & z & Hz & ->)|(_ & Hy)];
        [rewrite <- E in Hz|]; simplify_eq; unfold open_ok, has_child; cbn;
        by intuition.
    + eapply Forall_lookup_1; [apply Forall_alter_tok; eauto | exact Hj].
Qed.

Lemma returned_passed p : returned p = true -> passed p = true.
Proof. by destruct p. Qed.

(** While the sink is open, a closed sequenceLock means that every
    earlier task has returned. *)
Lemma chain_returned f st :
  wf f st -> Forall (open_ok f) (tasks st) ->
  forall j t, tasks st !! j = Some t -> tok t = true ->
  all_returned_before st j.
Proof.
  intros W O. induction j as [|j IH]; intros t Hj Htok k tk Hk Hlk; [lia|].
  destruct (lookup_lt_is_Some_2 (tasks st) j) as [p Hp].
  { apply lookup_lt_Some in Hj. lia. }
  destruct (chained_child _ _ _ _ _ (wf_chain _ _ W) Hp Hj) as (_ & _ & _ & Hr).
  rewrite Htok in Hr. symmetry in Hr.
  destruct (decide (k = j)) as [->|Hne]; [by simplify_eq|].
  eapply (IH p Hp); [|instantiate (1 := k); lia|done].
  apply (Forall_lookup_1 _ _ _ _ O Hp). by apply returned_passed.
Qed.

Lemma eof_step f st st' :
  wf f st ->
  (pipe st = None -> Forall (open_ok f) (tasks st)) ->
  (pipe st = Some EOF -> Forall (eof_ok f) (tasks st)) ->
  transition f st st' ->
  pipe st' = Some EOF -> Forall (eof_ok f) (tasks st').
Proof.
  intros W O E T Hp'.
  assert (forall t, eof_ok f t -> eof_ok f (with_tok t)) as Htok.
  { intros t. unfold eof_ok, has_child. cbn. tauto. }
  destruct (pipe st) as [e0|] eqn:Hp0.
  - (* already closed *)
    pose proof (pipe_stable _ _ _ _ T Hp0) as Hs. rewrite Hs in Hp'.
    injection Hp' as ->. specialize (E eq_refl).
    tr_cases T; auto using Forall_alter_tok; try congruence;
      pose proof (Forall_lookup_1 _ _ _ _ E Hi) as He;
      pose proof (Forall_lookup_1 _ _ _ _ (wf_pc _ _ W) Hi) as Hk;
      unfold eof_ok, has_child in He; unfold pc_ok in Hk;
      rewrite Hpc in He, Hk; cbn in He;
      try (exfalso; intuition congruence);
      try (eapply Forall_alter_one; [| eassumption |]; auto using Forall_alter_tok;
           unfold eof_ok, has_child; cbn; rewrite ?Hk; by intuition).
  - (* open: only the terminal task closes with end-of-stream *)
    specialize (O eq_refl).
    tr_cases T; try (rewrite ?Hp0 in Hp'; discriminate).
    + assert (has_child f t = false) as Hch by (unfold has_child; by rewrite Hpc).
      apply Forall_lookup. intros j x Hj.
      apply lookup_alter_Some in Hj as [(-> & y & Hy & ->)|(Hne & Hj)].
      * simplify_eq. unfold eof_ok, has_child. cbn. by intuition.
      * assert (j < i)%nat as Hlt.
        { pose proof (proj2 (proj2 (wf_chain _ _ W)) _ _ Hi Hch).
          apply lookup_lt_Some in Hj. lia. }
        pose proof (chain_returned _ _ W O _ _ Hi Htk _ _ Hlt Hj) as Hr.
        pose proof (Forall_lookup_1 _ _ _ _ O Hj (returned_passed _ Hr)).
        unfold eof_ok. by intuition auto using returned_passed.
    + rewrite Hp0 in Hp'. injection Hp' as ->. by apply fetch_not_eof in Hf.
Qed.

Lemma rd_step f st st' :
  (forall e0, rd_err st = Some e0 -> pipe st = Some e0) ->
  transition f st st' ->
  forall e0, rd_err st' = Some e0 -> pipe st' = Some e0.
Proof.
  intros R T e0 H.
  assert (rd_err st' = rd_err st -> pipe st' = Some e0) as Hsame.
  { intros E. rewrite E in H. eapply pipe_stable; eauto. }
  tr_cases T; try (by apply Hsame).
  congruence.
Qed.

Lemma read_ok_step f st st' k0 :
  read_ok f st k0 -> transition f st st' -> read_ok f st' k0.
Proof.
  intros ((t0 & Ht0 & Hw & Htok) & Hret & Hfe) T.
  destruct (transition_tasks _ _ _ T) as (Hlen & Hts).
  assert (k0 < length (tasks st))%nat as Hk0 by (by eapply lookup_lt_Some).
  assert (forall j t', (j <= k0)%nat -> tasks st' !! j = Some t' ->
            exists t, tasks st !! j = Some t /\ start t' = start t /\
              (tok t = true -> tok t' = true) /\ pc_mono (at_pc t) (at_pc t'))
    as Hold.
  { intros j t' Hj Hl. destruct (Hts _ _ Hl) as [?|(-> & _)]; [done | lia]. }
  split; [|split].
  - destruct (lookup_lt_is_Some_2 (tasks st') k0) as [t' Ht']; [lia|].
    destruct (Hold _ _ (Nat.le_refl _) Ht') as (t & Ht & _ & Htk & (_ & Hm)).
    simplify_eq. exists t'. auto.
  - intros j t' Hj Hl. assert (j <= k0)%nat as Hle by lia.
    destruct (Hold _ _ Hle Hl) as (t & Ht & _ & _ & (Hm & _)).
    apply Hm. eauto.
  - intros j t' Hj Hl.
    destruct (Hold _ _ Hj Hl) as (t & Ht & -> & _). eauto.
Qed.

Lemma nondecreasing_snoc l x :
  nondecreasing l -> (forall a, In a l -> (a <= x)%nat) -> nondecreasing (l ++ [x]).
Proof.
  intros Hl Hx i j a b Hij Hi Hj.
  apply lookup_app_Some in Hj as [Hj|(Hge & Hj)].
  - apply lookup_app_Some in Hi as [Hi|(Hge & _)].
    + eauto.
    + apply lookup_lt_Some in Hj. lia.
  - apply list_lookup_singleton_Some in Hj as [_ <-].
    apply lookup_app_Some in Hi as [Hi|(_ & Hi)].
    + apply Hx. apply list_elem_of_In. by eapply list_elem_of_lookup_2.
    + apply list_lookup_singleton_Some in Hi as [_ <-]. lia.
Qed.

(** When a Read takes bytes from task [i], that task holds the token,
    all earlier tasks have returned and no fetch up to [i] has failed. *)
Lemma read_ok_writer f st i0 t0 rest berr :
  wf f st -> sink_inv f st -> pipe st = None ->
  tasks st !! i0 = Some t0 -> at_pc t0 = Copy rest berr ->
  read_ok f st i0.
Proof.
  intros W S Hp Hi Hpc.
  pose proof (si_open _ _ S Hp) as O.
  pose proof (Forall_lookup_1 _ _ _ _ (si_body _ _ S) Hi) as Hb.
  destruct (body_ok_copy _ _ _ _ Hb Hpc) as [Hfe Htok].
  pose proof (chain_returned _ _ W O _ _ Hi Htok) as Hret.
  split; [|split]; [|done|].
  - exists t0. by rewrite Hpc.
  - intros j t Hj Hl. destruct (decide (j = i0)) as [->|Hne]; [by simplify_eq|].
    apply (Forall_lookup_1 _ _ _ _ O Hl).
    assert (j < i0)%nat as Hlt by lia.
    apply returned_passed. by eapply Hret.
Qed.

Lemma sink_init f : sink_inv f (init_state f).
Proof.
  constructor; cbn -[spawn]; try done.
  - constructor; [|constructor]. unfold body_ok, spawn. cbn.
    by destruct (is_terminal f 0).
  - intros _. constructor; [|constructor]. unfold open_ok.
    by rewrite passed_spawn.
Qed.

Lemma sink_step f st st' :
  wf f st -> sink_inv f st -> transition f st st' -> sink_inv f st'.
Proof.
  intros W S T. constructor.
  - eapply body_step; eauto using si_body.
  - eapply open_step; eauto using si_body, si_open.
  - eapply eof_step; eauto using si_open, si_eof.
  - intros k bs Hin.
    assert (In (k, bs) (reads st) -> read_ok f st' k) as Hold.
    { intros H. eapply read_ok_step; eauto using si_reads. }
    pose proof T as T0.
    tr_cases T; try (by apply Hold).
    apply in_app_or in Hin as [Hin|[[= <- <-]|[]]]; [by apply Hold|].
    eapply read_ok_step; [|exact T0]. eapply read_ok_writer; eauto.
  - assert (reads st' = reads st -> nondecreasing (map fst (reads st'))) as Hsame.
    { intros ->. by apply (si_sorted f). }
    tr_cases T; try (by apply Hsame).
    rewrite map_app. apply nondecreasing_snoc; [by apply (si_sorted f)|].
    intros a Ha. apply in_map_iff in Ha as ([a' bs] & <- & Hin). cbn.
    destruct (si_reads _ _ S _ _ Hin) as (_ & Hret & _).
    destruct (decide (a' <= i)%nat) as [?|Hgt]; [done|].
    assert (i < a')%nat as Hlt by lia.
    specialize (Hret i t Hlt Hi). by rewrite Hpc in Hret.
  - eapply rd_step; eauto using si_rd.
Qed.

Lemma reachable_sink f st : reachable f st -> sink_inv f st.
Proof.
  apply reachable_ind_tr; [apply sink_init|].
  intros s s' Hr. apply sink_step. by apply reachable_wf.
Qed.

(** ** The permit pool *)

(** A task that was not yet [Done] and is [Done] after a step either is
    the terminal task or has just given its permit back. *)
Lemma done_by_release f st st' i0 t0 t0' :
  wf f st -> transition f st st' ->
  tasks st !! i0 = Some t0 -> tasks st' !! i0 = Some t0' ->
  at_pc t0 <> Done -> at_pc t0' = Done ->
  is_terminal f (start t0) = false ->
  S (cl_len st') = cl_len st.
Proof.
  intros W T H0 H0' Hnd Hd Hnt.
  assert (forall p i t, tasks st !! i = Some t -> p <> Done ->
            alter (with_pc p) i (tasks st) !! i0 = Some t0' -> False) as Hpc0.
  { intros p i t Hi Hp Hl.
    apply lookup_alter_Some in Hl as [(-> & y & Hy & ->)|(_ & Hl)];
      simplify_eq; done. }
  assert (forall i, alter with_tok i (tasks st) !! i0 = Some t0' -> False) as Htok0.
  { intros i Hl.
    apply lookup_alter_Some in Hl as [(-> & y & Hy & ->)|(_ & Hl)];
      simplify_eq; done. }
  tr_cases T; try (by exfalso; simplify_eq);
    try (by exfalso; eauto);
    try (exfalso; eapply Hpc0; [exact Hi | | exact H0']; done).
  - (* the terminal task *)
    apply lookup_alter_Some in H0' as [(-> & y & Hy & ->)|(_ & Hl)];
      [|by simplify_eq].
    simplify_eq.
    pose proof (Forall_lookup_1 _ _ _ _ (wf_pc _ _ W) Hi) as Hk.
    unfold pc_ok in Hk. rewrite Hpc in Hk. congruence.
  - exfalso. apply lookup_app_Some in H0' as [Hl|(Hge & Hl)].
    + apply lookup_alter_Some in Hl as [(-> & y & Hy & ->)|(_ & Hl)]; [done|].
      apply lookup_alter_Some in Hl as [(-> & y & Hy & ->)|(_ & Hl)];
        simplify_eq; done.
    + apply list_lookup_singleton_Some in Hl as [_ <-].
      unfold spawn in Hd. cbn in Hd. by destruct (is_terminal _ _).
  - exfalso. apply lookup_alter_Some in H0' as [(-> & y & Hy & ->)|(_ & Hl)];
      [done|]. eauto.
  - done.
  - exfalso.
    pose proof (count_if_alter (fun t => holds_permit (at_pc t)) (with_pc Done)
                  (tasks st) i t Hi) as C.
    cbn in C. rewrite Hpc in C. cbn in C.
    pose proof (wf_permits _ _ W). lia.
Qed.

(** A task at its deferred receive finds a permit in the channel and
    returns with it. *)
Lemma release_enabled f st i t :
  wf f st -> tasks st !! i = Some t -> at_pc t = Release ->
  exists st', step f (AStep i) st = Some st' /\
    S (cl_len st') = cl_len st /\ at_pc <$> tasks st' !! i = Some Done.
Proof.
  intros W Hi Hpc.
  pose proof W as [W1 W2 W3 W4 W5 W6].
  pose proof (count_if_alter (fun t => holds_permit (at_pc t)) (with_pc Done)
                (tasks st) i t Hi) as C.
  cbn in C. rewrite Hpc in C. cbn in C.
  unfold step. rewrite W6, Hi. unfold step_task. rewrite Hpc.
  destruct (cl_len st) as [|n] eqn:E; [lia|].
  eexists. split; [reflexivity|]. cbn. split; [done|].
  by rewrite list_lookup_alter_eq, Hi.
Qed.

(** C6. In every reachable state at most [concurrency] tasks are inside
    [client.Do]: each of them holds one of the permits buffered in
    [concurrencyLock], whose number never exceeds its capacity. A task at
    its deferred receive always finds a permit to give back, and a
    non-terminal task that becomes [Done] has given its permit back in
    that very step, whichever way it left its body. *)
Theorem permit_bound (f : remoteFile) (st : state)
    (Hk : 0 <= concurrency f) (Hr : reachable f st) :
  (count_if (fun t => in_fetch (at_pc t)) (tasks st)
   <= count_if (fun t => holds_permit (at_pc t)) (tasks st))%nat /\
  count_if (fun t => holds_permit (at_pc t)) (tasks st) = cl_len st /\
  Z.of_nat (cl_len st) <= concurrency f /\
  (forall i t, tasks st !! i = Some t -> at_pc t = Release ->
     exists st', step f (AStep i) st = Some st' /\
       S (cl_len st') = cl_len st /\ at_pc <$> tasks st' !! i = Some Done) /\
  (forall a st' i t t', step f a st = Some st' ->
     tasks st !! i = Some t -> tasks st' !! i = Some t' ->
     is_terminal f (start t) = false ->
     at_pc t <> Done -> at_pc t' = Done ->
     S (cl_len st') = cl_len st).
Proof.
  pose proof (reachable_wf _ _ Hr) as W.
  pose proof W as [W1 W2 W3 W4 W5 W6].
  split; [|split; [|split; [|split]]].
  - apply count_if_le. intros t. by destruct (at_pc t).
  - done.
  - lia.
  - intros i t Hi Hpc. by eapply release_enabled.
  - intros a st' i t t' Hs Hi Hi' Hnt Hnd Hd.
    eapply done_by_release; eauto using step_transition.
Qed.

(** ** Chunk arithmetic *)

Lemma terminal_iff f s :
  valid f -> is_terminal f s = true <-> s = size f + 1.
Proof.
  intros [Hs Hc]. unfold is_terminal. rewrite add_small.
  - apply Z.eqb_eq.
  - unfold GoInt.in_range, GoInt.min_int, GoInt.max_int. lia.
Qed.

Lemma chunk_arith f s :
  valid f -> 0 <= s <= size f -> (s = 0 \/ chunkSize f < s) ->
  is_terminal f s = false /\
  chunk_end f s = Z.min (s + chunkSize f) (size f) /\
  next_start f s = chunk_end f s + 1.
Proof.
  intros Hv Hs Hc. pose proof Hv as [Hsz Hcs]. unfold GoInt.max_int in Hcs.
  split; [|split].
  - destruct (is_terminal f s) eqn:E; [|done].
    apply terminal_iff in E; [lia|done].
  - unfold chunk_end. rewrite add_small.
    + destruct (s + chunkSize f >? size f) eqn:E; lia.
    + unfold GoInt.in_range, GoInt.min_int, GoInt.max_int. lia.
  - unfold next_start, chunk_end. rewrite (add_small s).
    + apply add_small. unfold GoInt.in_range, GoInt.min_int, GoInt.max_int.
      destruct (s + chunkSize f >? size f) eqn:E; lia.
    + unfold GoInt.in_range, GoInt.min_int, GoInt.max_int. lia.
Qed.

Lemma has_child_nonterminal f t :
  pc_ok f t -> has_child f t = true -> is_terminal f (start t) = false.
Proof.
  unfold pc_ok, has_child. destruct (at_pc t); try done.
  intros _. by destruct (is_terminal f (start t)).
Qed.

(** Every task starts within the resource or just past it, and a start
    other than 0 lies beyond one chunk size. *)
Lemma starts_ok f st :
  valid f -> wf f st ->
  forall i t, tasks st !! i = Some t ->
    0 <= start t <= size f + 1 /\
    (start t = 0 \/ chunkSize f < start t \/ start t = size f + 1).
Proof.
  intros Hv W. pose proof Hv as [Hsz Hcs].
  induction i as [|i IH]; intros t Hi.
  - destruct (wf_chain _ _ W) as ((t0 & Ht0 & Hs0) & _). simplify_eq.
    rewrite Hs0. lia.
  - destruct (lookup_lt_is_Some_2 (tasks st) i) as [p Hp].
    { apply lookup_lt_Some in Hi. lia. }
    destruct (chained_child _ _ _ _ _ (wf_chain _ _ W) Hp Hi) as (Hc & _ & Hst & _).
    destruct (IH p Hp) as [Hr Ho].
    pose proof (has_child_nonterminal _ _
                  (Forall_lookup_1 _ _ _ _ (wf_pc _ _ W) Hp) Hc) as Hnt.
    assert (start p <> size f + 1) as Hne.
    { intros E. apply (terminal_iff f) in E; [congruence | done]. }
    assert (0 <= start p <= size f) as Hin by lia.
    assert (start p = 0 \/ chunkSize f < start p) as Ho' by lia.
    destruct (chunk_arith f (start p) Hv Hin Ho') as (_ & He & Hn).
    rewrite Hst, Hn, He. lia.
Qed.

Lemma start_succ f st i p t :
  valid f -> wf f st -> tasks st !! i = Some p -> tasks st !! S i = Some t ->
  start p <= size f /\
  start t = Z.min (start p + chunkSize f) (size f) + 1.
Proof.
  intros Hv W Hp Hi. pose proof Hv as [Hsz Hcs].
  destruct (chained_child _ _ _ _ _ (wf_chain _ _ W) Hp Hi) as (Hc & _ & Hst & _).
  destruct (starts_ok f st Hv W _ _ Hp) as [Hr Ho].
  pose proof (has_child_nonterminal _ _
                (Forall_lookup_1 _ _ _ _ (wf_pc _ _ W) Hp) Hc) as Hnt.
  assert (start p <> size f + 1) as Hne.
  { intros E. apply (terminal_iff f) in E; [congruence | done]. }
  assert (0 <= start p <= size f) as Hin by lia.
  assert (start p = 0 \/ chunkSize f < start p) as Ho' by lia.
  destruct (chunk_arith f (start p) Hv Hin Ho') as (_ & He & Hn).
  rewrite Hst, Hn, He. lia.
Qed.

Lemma starts_increasing f st :
  valid f -> wf f st ->
  forall j i ti tj, (i < j)%nat ->
    tasks st !! i = Some ti -> tasks st !! j = Some tj -> start ti < start tj.
Proof.
  intros Hv W. pose proof Hv as [Hsz Hcs].
  induction j as [|j IH]; intros i ti tj Hij Hi Hj; [lia|].
  destruct (lookup_lt_is_Some_2 (tasks st) j) as [p Hp].
  { apply lookup_lt_Some in Hj. lia. }
  destruct (start_succ f st j p tj Hv W Hp Hj) as [Hle Hs].
  assert (start p < start tj) by lia.
  destruct (decide (i = j)) as [->|Hne]; [by simplify_eq|].
  assert (i < j)%nat as Hlt by lia.
  specialize (IH i ti p Hlt Hi Hp). lia.
Qed.

(** ** Write order *)

(** C5. In every reachable state, whatever the order in which the
    fetches completed: a task inside [io.Copy] has a predecessor that has
    returned (after writing, or after failing); the bytes of a chunk
    were read only after every earlier task had returned; the reads,
    taken in order, never go back to an earlier task, so no two chunks
    interleave; and the start offsets of the tasks grow strictly with
    their position in the chain. *)
Theorem write_order (f : remoteFile) (st : state)
    (Hv : valid f) (Hr : reachable f st) :
  (forall i t rest berr,
     tasks st !! S i = Some t -> at_pc t = Copy rest berr ->
     exists p, tasks st !! i = Some p /\ returned (at_pc p) = true) /\
  (forall k bs, In (k, bs) (reads st) -> all_returned_before st k) /\
  nondecreasing (map fst (reads st)) /\
  (forall i j ti tj, (i < j)%nat ->
     tasks st !! i = Some ti -> tasks st !! j = Some tj ->
     start ti < start tj).
Proof.
  pose proof (reachable_wf _ _ Hr) as W.
  pose proof (reachable_sink _ _ Hr) as S.
  split; [|split; [|split]].
  - intros i t rest berr Hi Hpc.
    destruct (lookup_lt_is_Some_2 (tasks st) i) as [p Hp].
    { apply lookup_lt_Some in Hi. lia. }
    destruct (chained_child _ _ _ _ _ (wf_chain _ _ W) Hp Hi) as (_ & _ & _ & Ht).
    pose proof (Forall_lookup_1 _ _ _ _ (si_body _ _ S) Hi) as Hb.
    destruct (body_ok_copy _ _ _ _ Hb Hpc) as [_ Htok].
    exists p. split; [done|]. congruence.
  - intros k bs Hin. by destruct (si_reads _ _ S _ _ Hin) as (_ & ? & _).
  - by apply (si_sorted f).
  - intros i j ti tj. by apply (starts_increasing f).
Qed.

(** ** A failed fetch *)

Lemma fetch_error_inl f s e0 : fetch_error f s = Some e0 -> fetch f s = inl e0.
Proof. unfold fetch_error. destruct (fetch f s); by intros [= <-]. Qed.

Lemma fetched_has_child f t : fetched f t = true -> has_child f t = true.
Proof. unfold fetched, has_child. by destruct (at_pc t). Qed.

(** No state reachable from a closed sink reopens it or changes what the
    consumer is told. *)
Lemma run_pipe_stable f sched : forall st st' e0,
  pipe st = Some e0 -> run f sched st = Some st' -> pipe st' = Some e0.
Proof.
  induction sched as [|a sched IH]; intros st st' e0 Hp; cbn [run].
  - by intros [= <-].
  - destruct (step f a st) as [st1|] eqn:E; [|discriminate].
    apply IH. eapply pipe_stable; eauto using step_transition.
Qed.

Lemma closed_reads_stable f st st' e0 :
  transition f st st' -> pipe st = Some e0 -> reads st' = reads st.
Proof. intros T H. tr_cases T; try done. congruence. Qed.

Lemma run_closed_reads f sched : forall st st' e0,
  pipe st = Some e0 -> run f sched st = Some st' -> reads st' = reads st.
Proof.
  induction sched as [|a sched IH]; intros st st' e0 H; cbn [run].
  - by intros [= <-].
  - destruct (step f a st) as [st1|] eqn:E; [|discriminate].
    intros Hrun. pose proof (step_transition _ _ _ _ E) as T.
    rewrite (IH st1 st' e0); [|eapply pipe_stable; eauto|done].
    eapply closed_reads_stable; eauto.
Qed.

(** C7, as amended. Let the fetch of a non-terminal task fail with [e],
    at the transport or by a status outside 200-299. At [client.Do] the
    task can take its step whatever the state of its ordering token; the
    step delivers nothing and calls [CloseWithError(e)], which closes the
    sink with [e] unless the sink is closed already, in which case the
    earlier error stays. Once the task is past its fetch the sink is
    closed with an error that is not end-of-stream, and that error is the
    only thing a Read can still return. In no reachable state has the
    consumer received a byte of that chunk or of a later one, and the
    stream is never closed cleanly. *)
Theorem fetch_failure (f : remoteFile) (st : state) (j : nat) (t : task)
    (e : error)
    (Hr : reachable f st)
    (Hj : tasks st !! j = Some t)
    (Hnt : is_terminal f (start t) = false)
    (He : fetch_error f (start t) = Some e) :
  (at_pc t = Fetch ->
   exists st', step f (AStep j) st = Some st' /\
     pipe st' = Some (match pipe st with Some e0 => e0 | None => e end) /\
     reads st' = reads st /\
     at_pc <$> tasks st' !! j = Some CloseNext) /\
  (fetched f t = true ->
   exists e', pipe st = Some e' /\ e' <> EOF /\
     forall sched st', run f sched st = Some st' ->
       pipe st' = Some e' /\ reads st' = reads st /\
       (forall e'', rd_err st' = Some e'' -> e'' = e')) /\
  (forall k bs, In (k, bs) (reads st) -> (k < j)%nat) /\
  pipe st <> Some EOF /\ rd_err st <> Some EOF.
Proof.
  pose proof (reachable_wf _ _ Hr) as W.
  pose proof (reachable_sink _ _ Hr) as S.
  assert (pipe st <> Some EOF) as Hneof.
  { intros Hp. pose proof (Forall_lookup_1 _ _ _ _ (si_eof _ _ S Hp) Hj) as (Hps & _ & Hc).
    pose proof (Forall_lookup_1 _ _ _ _ (wf_pc _ _ W) Hj) as Hk.
    unfold pc_ok in Hk. unfold has_child in Hc.
    destruct (at_pc t); try done; try (destruct Hc; [done | congruence]);
      try congruence.
    rewrite Hnt in Hc. destruct Hc; [done | congruence]. }
  split; [|split; [|split; [|split]]].
  - intros Hpc. unfold step. rewrite (wf_panic _ _ W), Hj.
    unfold step_task. rewrite Hpc, (fetch_error_inl _ _ _ He).
    eexists. split; [reflexivity|]. cbn. split; [done|]. split; [done|].
    by rewrite list_lookup_alter_eq, Hj.
  - intros Hf. destruct (pipe st) as [e'|] eqn:Hp.
    + exists e'. split; [done|]. split; [congruence|].
      intros sched st' Hrun.
      pose proof (run_pipe_stable _ _ _ _ _ Hp Hrun) as Hp'.
      split; [done|]. split.
      * by eapply run_closed_reads.
      * intros e'' Hrd.
        pose proof (si_rd _ _ (reachable_sink _ _ (run_reachable _ _ _ _ Hr Hrun))
                      _ Hrd).
        congruence.
    + exfalso.
      pose proof (Forall_lookup_1 _ _ _ _ (si_open _ _ S Hp) Hj) as Ho.
      pose proof (Forall_lookup_1 _ _ _ _ (si_body _ _ S) Hj) as Hb.
      unfold open_ok in Ho. unfold body_ok in Hb. unfold fetched in Hf.
      rewrite (fetch_error_inl _ _ _ He) in Hb.
      destruct (at_pc t); try done;
        try (destruct Ho as (_ & _ & ?); [done|congruence]);
        try (destruct Hb as [[? ?] ?]; congruence).
  - intros k bs Hin. destruct (si_reads _ _ S _ _ Hin) as (_ & _ & Hfe).
    destruct (decide (k < j)%nat) as [?|Hge]; [done|].
    assert (j <= k)%nat as Hle by lia.
    specialize (Hfe j t Hle Hj). congruence.
  - done.
  - intros Hrd. apply Hneof. by apply (si_rd _ _ S).
Qed.

(** ** Cancellation at a select *)

(** C8, as amended. Let the context be done while a task, terminal or
    not, stands at its select with its ordering token not yet granted.
    Then the token case is not available to it; its step is the
    [ctx.Done()] case, which delivers nothing, calls
    [CloseWithError(ctx.Err())] and goes on to the deferred calls without
    writing or closing cleanly. That call closes the sink with the
    cancellation error unless a failed chunk has closed it before, in
    which case the earlier error stays. The sink had not been closed with
    end-of-stream, so whatever a Read returns from then on is an error
    other than end-of-stream, and no further byte is delivered. *)
Theorem cancel_at_select (f : remoteFile) (st : state) (i : nat) (t : task)
    (c : ctx_error)
    (Hr : reachable f st)
    (Hi : tasks st !! i = Some t)
    (Hsel : at_select (at_pc t) = true)
    (Htok : tok t = false)
    (Hctx : ctx_done st = Some c) :
  step f (AStep i) st = None /\
  pipe st <> Some EOF /\
  exists st' e',
    step f (ACtx i) st = Some st' /\
    e' = match pipe st with Some e0 => e0 | None => CtxErr c end /\
    e' <> EOF /\
    pipe st' = Some e' /\
    reads st' = reads st /\
    at_pc <$> tasks st' !! i
      = Some (match at_pc t with TermSelect => TermDefer | _ => CloseNext end) /\
    forall sched st'', run f sched st' = Some st'' ->
      pipe st'' = Some e' /\ reads st'' = reads st /\
      (forall e'', rd_err st'' = Some e'' -> e'' = e').
Proof.
  pose proof (reachable_wf _ _ Hr) as W.
  pose proof (reachable_sink _ _ Hr) as S.
  assert (pipe st <> Some EOF) as Hneof.
  { intros Hp.
    pose proof (Forall_lookup_1 _ _ _ _ (si_eof _ _ S Hp) Hi) as (Hps & _).
    by destruct (at_pc t). }
  split; [|split; [done|]].
  - unfold step. rewrite (wf_panic _ _ W), Hi. unfold step_task.
    destruct (at_pc t); try done; by rewrite Htok.
  - assert (exists st', step f (ACtx i) st = Some st' /\
              st' = set_pc i (match at_pc t with
                              | TermSelect => TermDefer | _ => CloseNext end)
                      (close_with (CtxErr c) st)) as (st' & Hs & ->).
    { unfold step. rewrite (wf_panic _ _ W), Hi. unfold step_ctx. rewrite Hctx.
      destruct (at_pc t); try done; eauto. }
    eexists _, _. split; [exact Hs|]. split; [reflexivity|].
    assert (match pipe st with Some e0 => e0 | None => CtxErr c end <> EOF) as Hne.
    { destruct (pipe st) as [e0|]; [congruence | done]. }
    split; [exact Hne|]. split; [done|]. split; [done|]. split.
    { cbn. by rewrite list_lookup_alter_eq, Hi. }
    intros sched st'' Hrun.
    assert (reachable f (set_pc i (match at_pc t with
                                   | TermSelect => TermDefer | _ => CloseNext end)
                           (close_with (CtxErr c) st))) as Hr'
      by (eapply reach_step; eauto).
    split; [|split].
    + eapply run_pipe_stable; [|exact Hrun]. done.
    + erewrite run_closed_reads; [| |exact Hrun]; done.
    + intros e'' Hrd.
      pose proof (si_rd _ _ (reachable_sink _ _ (run_reachable _ _ _ _ Hr' Hrun))
                    _ Hrd) as Hp''.
      erewrite run_pipe_stable in Hp''; [| |exact Hrun]; [|done]. congruence.
Qed.

(** ** A size of -1 *)

Lemma unbounded_terminal f : size f = -1 -> is_terminal f 0 = true.
Proof. intros H. unfold is_terminal. rewrite H. reflexivity. Qed.

Lemma unbounded_tasks f st :
  size f = -1 -> wf f st ->
  exists t, tasks st = [t] /\ start t = 0 /\
    (at_pc t = TermSelect \/ at_pc t = TermDefer \/ at_pc t = Done).
Proof.
  intros Hs W. pose proof (unbounded_terminal f Hs) as Ht.
  destruct (wf_chain _ _ W) as ((t0 & Ht0 & Hs0) & _ & H3).
  pose proof (Forall_lookup_1 _ _ _ _ (wf_pc _ _ W) Ht0) as Hk.
  assert (has_child f t0 = false) as Hc.
  { destruct (has_child f t0) eqn:E; [|done].
    pose proof (has_child_nonterminal _ _ Hk E). congruence. }
  specialize (H3 _ _ Ht0 Hc).
  destruct (tasks st) as [|t1 [|t2 ts]]; try done.
  exists t0. cbn in Ht0. injection Ht0 as ->. split; [done|]. split; [done|].
  unfold pc_ok in Hk. unfold has_child in Hc. rewrite Hs0, Ht in *.
  destruct (at_pc t0); auto; discriminate.
Qed.

(** C4, evaluated on the code. With the resolved size -1 the test
    [start == f.size+1] holds for the first task, started at offset 0:
    the chain of ranges is empty, the first task is the only one and is
    terminal, no range is ever requested and no byte ever delivered. *)
Theorem unbounded_size_fetches_nothing (f : remoteFile) (st : state)
    (Hs : size f = -1) (Hr : reachable f st) :
  is_terminal f 0 = true /\
  (forall fuel, chunk_ranges f fuel 0 = []) /\
  (exists t, tasks st = [t] /\ start t = 0 /\
     (at_pc t = TermSelect \/ at_pc t = TermDefer \/ at_pc t = Done)) /\
  issued f st = [] /\
  reads st = [].
Proof.
  pose proof (unbounded_terminal f Hs) as Ht.
  split; [done|]. split; [|split; [|split]].
  - intros [|fuel]; cbn [chunk_ranges]; by rewrite ?Ht.
  - apply (unbounded_tasks f st Hs). by apply reachable_wf.
  - destruct (unbounded_tasks f st Hs (reachable_wf _ _ Hr)) as (t & E & Hs0 & Hpc).
    unfold issued. rewrite E. cbn.
    assert (fetched f t = false) as Hf.
    { unfold fetched. rewrite Hs0, Ht. by destruct Hpc as [->|[->| ->]]. }
    rewrite decide_False by congruence. done.
  - revert st Hr. apply reachable_ind_tr; [done|].
    intros st st' Hr IH T.
    destruct (unbounded_tasks f st Hs (reachable_wf _ _ Hr)) as (t0 & E & _ & Hpc0).
    tr_cases T; try done.
    rewrite E in Hi. destruct i; [|done]. cbn in Hi. injection Hi as ->.
    rewrite Hpc in Hpc0. by destruct Hpc0 as [?|[?|?]].
Qed.

(** ** The chunk boundaries for 12 MiB in chunks of 5 MiB *)

Lemma three_chunks f :
  size f = 12582912 -> chunkSize f = 5242880 ->
  is_terminal f 0 = false /\ next_start f 0 = 5242881 /\
  is_terminal f 5242881 = false /\ next_start f 5242881 = 10485762 /\
  is_terminal f 10485762 = false /\ next_start f 10485762 = 12582913 /\
  is_terminal f 12582913 = true /\
  chunk_end f 0 = 5242880 /\ chunk_end f 5242881 = 10485761 /\
  chunk_end f 10485762 = 12582912.
Proof.
  intros Hs Hc. unfold is_terminal, next_start, chunk_end. rewrite Hs, Hc.
  repeat split; reflexivity.
Qed.

Lemma three_chunks_tasks f st :
  size f = 12582912 -> chunkSize f = 5242880 -> wf f st ->
  forall i t, tasks st !! i = Some t ->
    (i = 0%nat /\ start t = 0) \/ (i = 1%nat /\ start t = 5242881) \/
    (i = 2%nat /\ start t = 10485762) \/ (i = 3%nat /\ start t = 12582913).
Proof.
  intros Hs Hc W.
  destruct (three_chunks f Hs Hc) as (T0 & N0 & T1 & N1 & T2 & N2 & T3 & _).
  assert (forall i p t, tasks st !! i = Some p -> tasks st !! S i = Some t ->
            is_terminal f (start p) = false /\ start t = next_start f (start p))
    as Hnext.
  { intros i p t Hp Ht.
    destruct (chained_child _ _ _ _ _ (wf_chain _ _ W) Hp Ht) as (Hch & _ & E & _).
    split; [|done].
    eapply has_child_nonterminal; eauto.
    exact (Forall_lookup_1 _ _ _ _ (wf_pc _ _ W) Hp). }
  assert (forall i, (i <= 3)%nat -> forall t, tasks st !! i = Some t ->
            (i = 0%nat /\ start t = 0) \/ (i = 1%nat /\ start t = 5242881) \/
            (i = 2%nat /\ start t = 10485762) \/ (i = 3%nat /\ start t = 12582913))
    as Hlow.
  { induction i as [|i IH]; intros Hle t Ht.
    - left. destruct (wf_chain _ _ W) as ((t0 & Ht0 & Hs0) & _). by simplify_eq.
    - destruct (lookup_lt_is_Some_2 (tasks st) i) as [p Hp].
      { apply lookup_lt_Some in Ht. lia. }
      destruct (Hnext _ _ _ Hp Ht) as [_ E].
      destruct (IH ltac:(lia) p Hp) as [[-> Hsp]|[[-> Hsp]|[[-> Hsp]|[-> Hsp]]]];
        rewrite Hsp in E; [| | |lia]; rewrite E; auto. }
  intros i t Ht. destruct (decide (i <= 3)%nat) as [?|Hgt]; [by apply Hlow|].
  exfalso.
  destruct (lookup_lt_is_Some_2 (tasks st) 3) as [p Hp].
  { apply lookup_lt_Some in Ht. lia. }
  destruct (lookup_lt_is_Some_2 (tasks st) 4) as [q Hq].
  { apply lookup_lt_Some in Ht. lia. }
  destruct (Hnext _ _ _ Hp Hq) as [Hnt _].
  destruct (Hlow 3%nat ltac:(lia) p Hp) as [[? _]|[[? _]|[[? _]|[_ Hsp]]]];
    try lia.
  congruence.
Qed.

Lemma last_task_childless f st :
  wf f st ->
  exists t, tasks st !! pred (length (tasks st)) = Some t /\ has_child f t = false.
Proof.
  intros W. destruct (wf_chain _ _ W) as ((t0 & Ht0 & _) & H2 & _).
  destruct (lookup_lt_is_Some_2 (tasks st) (pred (length (tasks st)))) as [t Ht].
  { apply lookup_lt_Some in Ht0. lia. }
  exists t. split; [done|]. destruct (has_child f t) eqn:E; [|done].
  destruct (H2 _ _ Ht E) as (_ & c & Hc & _).
  apply lookup_lt_Some in Hc. apply lookup_lt_Some in Ht0. lia.
Qed.

(** C2, as amended. For a resolved size of 12582912 and a chunk size of
    5242880 the chain of tasks requests the three inclusive ranges
    [0,5242880], [5242881,10485761] and [10485762,12582912]: each range is
    [start, start+chunkSize] clipped to the size, and the next one starts
    at end+1. Every range requested in a reachable state is one of these
    three, and once the stream has ended cleanly exactly these three
    have been requested. *)
Theorem chunk_boundaries (f : remoteFile)
    (Hs : size f = 12582912) (Hc : chunkSize f = 5242880) :
  (forall fuel, (4 <= fuel)%nat -> chunk_ranges f fuel 0 = twelve_mib_ranges) /\
  (forall s e, In (s, e) twelve_mib_ranges ->
     e = Z.min (s + chunkSize f) (size f) /\ e = chunk_end f s) /\
  (forall st r, reachable f st -> In r (issued f st) -> In r twelve_mib_ranges) /\
  (forall st, reachable f st -> pipe st = Some EOF ->
     issued f st = twelve_mib_ranges).
Proof.
  destruct (three_chunks f Hs Hc)
    as (T0 & N0 & T1 & N1 & T2 & N2 & T3 & E0 & E1 & E2).
  split; [|split; [|split]].
  - intros [|[|[|[|fuel]]]] Hf; try lia.
    cbn [chunk_ranges]. rewrite T0, N0, T1, N1, T2, N2, E0, E1, E2.
    destruct fuel; cbn [chunk_ranges]; by rewrite ?T3.
  - intros s e Hin. rewrite Hs, Hc.
    destruct Hin as [[= <- <-]|[[= <- <-]|[[= <- <-]|[]]]];
      rewrite ?E0, ?E1, ?E2; split; reflexivity.
  - intros st r Hr Hin. pose proof (reachable_wf _ _ Hr) as W.
    unfold issued in Hin. apply in_map_iff in Hin as (t & <- & Hin).
    apply list_elem_of_In, list_elem_of_filter in Hin as [Hf Hin].
    apply list_elem_of_lookup in Hin as [i Hi].
    pose proof (has_child_nonterminal _ _
                  (Forall_lookup_1 _ _ _ _ (wf_pc _ _ W) Hi)
                  (fetched_has_child _ _ Hf)) as Hnt.
    destruct (three_chunks_tasks f st Hs Hc W i t Hi)
      as [[_ E]|[[_ E]|[[_ E]|[_ E]]]]; rewrite E in *;
      rewrite ?E0, ?E1, ?E2; cbn; auto.
    congruence.
  - intros st Hr Hp. pose proof (reachable_wf _ _ Hr) as W.
    pose proof (si_eof _ _ (reachable_sink _ _ Hr) Hp) as Heof.
    destruct (last_task_childless f st W) as (tl & Hl & Hcl).
    pose proof (Forall_lookup_1 _ _ _ _ Heof Hl) as (Hps & _ & _).
    pose proof (Forall_lookup_1 _ _ _ _ (wf_pc _ _ W) Hl) as Hk.
    assert (is_terminal f (start tl) = true) as Htl.
    { unfold has_child in Hcl. unfold pc_ok in Hk.
      destruct (at_pc tl); try done. by destruct (is_terminal f (start tl)). }
    assert (length (tasks st) = 4%nat) as Hlen.
    { destruct (three_chunks_tasks f st Hs Hc W _ tl Hl)
        as [[_ E]|[[_ E]|[[_ E]|[Hn _]]]]; rewrite ?E in Htl; try congruence.
      apply lookup_lt_Some in Hl. lia. }
    destruct (tasks st) as [|t0 [|t1 [|t2 [|t3 [|t4 ts]]]]] eqn:Ets;
      try discriminate.
    assert (forall i t, tasks st !! i = Some t -> (i < 3)%nat ->
              fetched f t = true) as Hfetched.
    { intros i t Hi Hlt.
      assert ([t0; t1; t2; t3] !! i = Some t) as Hi' by (by rewrite <- Ets).
      destruct (Forall_lookup_1 _ _ _ _ Heof Hi') as (_ & _ & Hc').
      assert (has_child f t = true) as Hch.
      { destruct (has_child f t) eqn:E; [done|].
        pose proof (proj2 (proj2 (wf_chain _ _ W)) _ _ Hi E) as Hn.
        rewrite Ets in Hn. cbn in Hn. lia. }
      destruct (Hc' Hch) as [Hret _].
      unfold fetched. unfold has_child in Hch.
      destruct (at_pc t); try done. }
    assert (forall i t, tasks st !! i = Some t ->
              (i = 0%nat /\ start t = 0) \/ (i = 1%nat /\ start t = 5242881) \/
              (i = 2%nat /\ start t = 10485762) \/
              (i = 3%nat /\ start t = 12582913)) as Hst
      by (apply (three_chunks_tasks f); auto).
    rewrite Ets in Hfetched, Hst.
    pose proof (Hfetched 0%nat t0 eq_refl ltac:(lia)) as F0.
    pose proof (Hfetched 1%nat t1 eq_refl ltac:(lia)) as F1.
    pose proof (Hfetched 2%nat t2 eq_refl ltac:(lia)) as F2.
    destruct (Hst 0%nat t0 eq_refl) as [[_ S0]|[[? _]|[[? _]|[? _]]]]; try lia.
    destruct (Hst 1%nat t1 eq_refl) as [[? _]|[[_ S1]|[[? _]|[? _]]]]; try lia.
    destruct (Hst 2%nat t2 eq_refl) as [[? _]|[[? _]|[[_ S2]|[? _]]]]; try lia.
    destruct (Hst 3%nat t3 eq_refl) as [[? _]|[[? _]|[[? _]|[_ S3]]]]; try lia.
    assert (fetched f t3 = false) as F3.
    { destruct (fetched f t3) eqn:E; [|done].
      assert (tasks st !! 3%nat = Some t3) as H3 by (by rewrite Ets).
      pose proof (has_child_nonterminal _ _
                    (Forall_lookup_1 _ _ _ _ (wf_pc _ _ W) H3)
                    (fetched_has_child _ _ E)) as Hnt.
      congruence. }
    unfold issued. rewrite Ets.
    rewrite filter_cons_True, filter_cons_True, filter_cons_True,
      filter_cons_False, filter_nil by congruence.
    cbn [map]. rewrite S0, S1, S2, E0, E1, E2. reflexivity.
Qed.

(** ** Round trip: what the consumer receives *)

Lemma byte_range_app content a b :
  0 <= a <= b ->
  take (Z.to_nat a) content ++ byte_range content a b
  = take (Z.to_nat (b + 1)) content.
Proof.
  intros H. unfold byte_range. rewrite take_take_drop. f_equal. lia.
Qed.

Lemma exact_fetch content f s :
  exact content f -> valid f -> 0 <= s <= size f ->
  (s = 0 \/ chunkSize f < s) ->
  fetch f s = inr (byte_range content s (chunk_end f s), None).
Proof.
  intros Hex Hv Hs Ho. pose proof Hv as [Hsz Hcs].
  destruct (chunk_arith f s Hv Hs Ho) as (_ & He & _).
  assert (0 <= s <= chunk_end f s) as Hab by lia.
  assert (chunk_end f s <= GoInt.max_int) as Hmax
    by (unfold GoInt.max_int; lia).
  destruct (Hex s (chunk_end f s) Hab Hmax) as (res & Hdo & Hst & Hb & Hbe).
  unfold fetch, range_request. rewrite Hdo.
  destruct (StatusCode res <? 200) eqn:E1; [lia|].
  destruct (StatusCode res >? 299) eqn:E2; [lia|].
  cbn. by rewrite Hb, Hbe.
Qed.

Lemma output_add_read i bs st :
  output (add_read i bs st) = output st ++ bs.
Proof.
  unfold output. cbn. rewrite map_app, concat_app. cbn.
  by rewrite app_nil_r.
Qed.

Lemma output_set_pc i p st : output (set_pc i p st) = output st.
Proof. reflexivity. Qed.

(** Returning to the state before a step that changed task [i] without
    changing whether it has returned. *)
Lemma holder_back st st' (g : task -> task) i t j t' :
  tasks st !! i = Some t -> tasks st' = alter g i (tasks st) ->
  returned (at_pc (g t)) = returned (at_pc t) ->
  tasks st' !! j = Some t' -> all_returned_before st' j ->
  all_returned_before st j /\
  ((j = i /\ t' = g t) \/ (j <> i /\ tasks st !! j = Some t')).
Proof.
  intros Hi Et Hr Hj Ha. rewrite Et in Hj. split.
  - intros k tk Hk Hl. destruct (decide (k = i)) as [->|Hne].
    + rewrite Hi in Hl. injection Hl as <-. rewrite <- Hr.
      apply (Ha i (g t) Hk). rewrite Et. by apply lookup_alter_eq.
    + apply (Ha k tk Hk). rewrite Et. by rewrite list_lookup_alter_ne.
  - apply lookup_alter_Some in Hj as [(-> & y & Hy & ->)|(Hne & Hj)].
    + left. by simplify_eq.
    + by right.
Qed.

(** While the sink is open, a task beyond its select that has not
    returned is the only one whose turn it can be. *)
Lemma holder_unique f st i t j tj :
  wf f st -> sink_inv f st -> pipe st = None ->
  tasks st !! i = Some t -> passed (at_pc t) = true ->
  returned (at_pc t) = false ->
  tasks st !! j = Some tj -> all_returned_before st j ->
  returned (at_pc tj) = false -> j = i.
Proof.
  intros W S Hp Hi Hps Hnr Hj Ha Hnrj.
  pose proof (si_open _ _ S Hp) as O.
  destruct (Forall_lookup_1 _ _ _ _ O Hi Hps) as (Htok & _).
  pose proof (chain_returned _ _ W O _ _ Hi Htok) as Hai.
  destruct (Nat.lt_trichotomy j i) as [Hlt|[->|Hgt]]; [|done|].
  - specialize (Hai j tj Hlt Hj). congruence.
  - specialize (Ha i t Hgt Hi). congruence.
Qed.

Section RoundTrip.

Variable content : list Byte.byte.
Variable f : remoteFile.
Hypothesis Hex : exact content f.
Hypothesis Hv : valid f.
Hypothesis Hsize : size f = Z.of_nat (length content).

Lemma out_init : out_inv content f (init_state f).
Proof.
  split; [|done]. intros _ [|j] t Hj _ _; [|done].
  injection Hj as <-. unfold delivered_ok, spawn. cbn.
  by destruct (is_terminal f 0).
Qed.

(** A task that is not terminal fetches exactly its range. *)
Lemma task_fetch st i t :
  wf f st -> tasks st !! i = Some t -> is_terminal f (start t) = false ->
  fetch f (start t) = inr (byte_range content (start t) (chunk_end f (start t)), None)
  /\ 0 <= start t <= chunk_end f (start t)
  /\ next_start f (start t) = chunk_end f (start t) + 1.
Proof.
  intros W Hi Hnt. pose proof Hv as [Hsz Hcs].
  destruct (starts_ok f st Hv W _ _ Hi) as [Hr Ho].
  assert (start t <> size f + 1) as Hne.
  { intros E. apply (terminal_iff f) in E; [congruence | done]. }
  assert (0 <= start t <= size f) as Hin by lia.
  assert (start t = 0 \/ chunkSize f < start t) as Ho' by lia.
  destruct (chunk_arith f (start t) Hv Hin Ho') as (_ & He & Hn).
  split; [by apply exact_fetch|]. split; [lia | done].
Qed.

Lemma out_step_open st st' :
  wf f st -> sink_inv f st -> out_inv content f st -> transition f st st' ->
  pipe st' = None ->
  forall j t', tasks st' !! j = Some t' -> all_returned_before st' j ->
    returned (at_pc t') = false -> delivered_ok content f (output st') t'.
Proof.
  intros W SI [O _] T Hp' j t' Hj Ha Hnr.
  pose proof (pipe_open_before _ _ _ T Hp') as Hp0. specialize (O Hp0).
  pose proof (si_open _ _ SI Hp0) as Op.
  pose proof T as T0.
  tr_cases T; try (rewrite Hp0 in Hp'; discriminate); try congruence;
    try (pose proof (Forall_lookup_1 _ _ _ _ (wf_pc _ _ W) Hi) as Hk;
         unfold pc_ok in Hk; rewrite Hpc in Hk);
    try (pose proof (Forall_lookup_1 _ _ _ _ Op Hi) as Ho;
         unfold open_ok, has_child in Ho; rewrite Hpc in Ho; cbn in Ho).
  - (* GetContext returns *)
    destruct (wf_chain _ _ W) as ((t0 & Ht0 & _) & _).
    destruct (holder_back st (close_seq 0 st) with_tok 0%nat t0 j t'
                Ht0 eq_refl eq_refl Hj Ha) as [Ha0 [[-> ->]|[Hne Hj0]]].
    + exact (O _ _ Ht0 Ha0 Hnr).
    + exact (O _ _ Hj0 Ha0 Hnr).
  - exact (O _ _ Hj Ha Hnr).
  - by destruct Ho as (_ & ? & _).
  - exact (O _ _ Hj Ha Hnr).
  - (* a permit is taken and the next task spawned *)
    set (g := with_pc Fetch ∘ with_nxt (length (tasks st))).
    assert (alter (with_pc Fetch) i (alter (with_nxt (length (tasks st))) i (tasks st))
            = alter g i (tasks st)) as Eg by apply list_alter_alter_eq.
    rewrite Eg in Hj.
    assert (forall k tk, (k < j)%nat ->
              alter g i (tasks st) !! k = Some tk -> returned (at_pc tk) = true)
      as Ha1.
    { intros k tk Hkj Hl. apply (Ha k tk Hkj). cbn. rewrite Eg.
      by apply lookup_app_l_Some. }
    apply lookup_app_Some in Hj as [Hj|(Hge & Hj)].
    + destruct (holder_back st (set_tasks (alter g i (tasks st)) st) g i t j t'
                  Hi eq_refl ltac:(by cbn; rewrite Hpc) Hj Ha1)
        as [Ha0 [[-> ->]|[Hne Hj0]]].
      * pose proof (O _ _ Hi Ha0 ltac:(by rewrite Hpc)) as D.
        unfold delivered_ok in *. by rewrite Hpc in D.
      * exact (O _ _ Hj0 Ha0 Hnr).
    + exfalso. rewrite length_alter in Hge.
      assert (i < j)%nat as Hij by (apply lookup_lt_Some in Hi; lia).
      by specialize (Ha1 i (g t) Hij (lookup_alter_eq _ _ _ _ Hi)).
  - (* the fetch succeeded *)
    destruct (holder_back st (set_pc i (Select body berr) st) _ i t j t'
                Hi eq_refl ltac:(by cbn; rewrite Hpc) Hj Ha)
      as [Ha0 [[-> ->]|[Hne Hj0]]].
    + pose proof (O _ _ Hi Ha0 ltac:(by rewrite Hpc)) as D.
      unfold delivered_ok in *. by rewrite Hpc in D.
    + exact (O _ _ Hj0 Ha0 Hnr).
  - (* the token case of the select *)
    destruct (holder_back st (set_pc i (Copy body berr) st) _ i t j t'
                Hi eq_refl ltac:(by cbn; rewrite Hpc) Hj Ha)
      as [Ha0 [[-> ->]|[Hne Hj0]]].
    + pose proof (O _ _ Hi Ha0 ltac:(by rewrite Hpc)) as D.
      unfold delivered_ok in *. rewrite Hpc in D. cbn.
      destruct (task_fetch st i t W Hi Hk) as (Hfe & Hb & _).
      pose proof (Forall_lookup_1 _ _ _ _ (si_body _ _ SI) Hi) as Hbo.
      unfold body_ok in Hbo. rewrite Hpc, Hfe in Hbo. injection Hbo as <- <-.
      split; [|done]. rewrite output_set_pc, D. by apply byte_range_app.
    + exact (O _ _ Hj0 Ha0 Hnr).
  - (* io.Copy is through *)
    destruct (holder_back st (set_pc i CloseNext st) _ i t j t'
                Hi eq_refl ltac:(by cbn; rewrite Hpc) Hj Ha)
      as [Ha0 [[-> ->]|[Hne Hj0]]].
    + pose proof (O _ _ Hi Ha0 ltac:(by rewrite Hpc)) as D.
      unfold delivered_ok in *. rewrite Hpc in D. cbn.
      destruct D as [D _]. by rewrite app_nil_r in D.
    + exact (O _ _ Hj0 Ha0 Hnr).
  - (* the deferred close(next) passes the turn on *)
    destruct Ho as (Htok & _ & _); [done|].
    pose proof (chain_returned _ _ W Op _ _ Hi Htok) as Hai.
    pose proof (O _ _ Hi Hai ltac:(by rewrite Hpc)) as D.
    unfold delivered_ok in D. rewrite Hpc in D.
    destruct (wf_chain _ _ W) as (_ & H2 & _).
    destruct (H2 i t Hi ltac:(unfold has_child; by rewrite Hpc))
      as (Hn & c & Hc & Hcs & Hct).
    rewrite Hpc in Hct. cbn in Hct. rewrite Hn in *.
    assert (passed (at_pc c) = false) as Hcp.
    { destruct (passed (at_pc c)) eqn:E; [|done].
      destruct (Forall_lookup_1 _ _ _ _ Op Hc E) as (? & _). congruence. }
    assert (forall k, k <> i -> k <> S i ->
              alter (with_pc Release) i (alter with_tok (S i) (tasks st)) !! k
              = tasks st !! k) as Hother.
    { intros k H1 H2'. by rewrite !list_lookup_alter_ne. }
    assert (alter (with_pc Release) i (alter with_tok (S i) (tasks st)) !! S i
            = Some (with_tok c)) as Hsi.
    { rewrite list_lookup_alter_ne by lia. by apply lookup_alter_eq. }
    assert (alter (with_pc Release) i (alter with_tok (S i) (tasks st)) !! i
            = Some (with_pc Release t)) as Hii.
    { apply lookup_alter_eq. by rewrite list_lookup_alter_ne by lia. }
    destruct (Nat.lt_trichotomy j i) as [Hlt|[->|Hgt]].
    + rewrite Hother in Hj by lia. specialize (Hai j t' Hlt Hj). congruence.
    + rewrite Hii in Hj. injection Hj as <-. done.
    + destruct (decide (j = S i)) as [->|Hne].
      * rewrite Hsi in Hj. injection Hj as <-.
        destruct (task_fetch st i t W Hi Hk) as (_ & Hb & Hnx).
        unfold delivered_ok. cbn.
        rewrite output_set_pc. change (output (close_seq (S i) st)) with (output st).
        rewrite Hcs, Hnx, D. by destruct (at_pc c).
      * exfalso. assert (S i < j)%nat as Hlt by lia.
        specialize (Ha (S i) (with_tok c) Hlt Hsi). cbn in Ha.
        apply returned_passed in Ha. congruence.
  - (* the permit is given back *)
    destruct (holder_back st (set_pc i Done (set_cl n (cl_closed st) st)) _ i t j t'
                Hi eq_refl ltac:(by cbn; rewrite Hpc) Hj Ha)
      as [Ha0 [[-> ->]|[Hne Hj0]]]; [done|].
    exact (O _ _ Hj0 Ha0 Hnr).
  - destruct (holder_back st (set_pc i Done st) _ i t j t'
                Hi eq_refl ltac:(by cbn; rewrite Hpc) Hj Ha)
      as [Ha0 [[-> ->]|[Hne Hj0]]]; [done|].
    exact (O _ _ Hj0 Ha0 Hnr).
  - (* a Read takes bytes from the writer *)
    destruct (holder_back st
                (set_pc i (Copy (drop n rest) berr) (add_read i (take n rest) st))
                _ i t j t' Hi eq_refl ltac:(by cbn; rewrite Hpc) Hj Ha)
      as [Ha0 [[-> ->]|[Hne Hj0]]].
    + pose proof (O _ _ Hi Ha0 ltac:(by rewrite Hpc)) as D.
      unfold delivered_ok in *. rewrite Hpc in D. cbn. destruct D as [D ->].
      split; [|done].
      by rewrite output_set_pc, output_add_read, <- app_assoc, take_drop.
    + exfalso. apply Hne.
      eapply (holder_unique f st i t j t'); eauto; by rewrite Hpc.
Qed.

Lemma out_step_eof st st' :
  wf f st -> sink_inv f st -> out_inv content f st -> transition f st st' ->
  pipe st' = Some EOF -> output st' = content.
Proof.
  intros W SI [O E] T Hp'.
  destruct (pipe st) as [e0|] eqn:Hp0.
  - pose proof (pipe_stable _ _ _ _ T Hp0) as Hs. rewrite Hs in Hp'.
    injection Hp' as ->. unfold output.
    rewrite (closed_reads_stable _ _ _ _ T Hp0). by apply E.
  - specialize (O eq_refl). pose proof (si_open _ _ SI Hp0) as Op.
    tr_cases T; try (rewrite ?Hp0 in Hp'; discriminate).
    + pose proof (chain_returned _ _ W Op _ _ Hi Htk) as Hai.
      pose proof (O _ _ Hi Hai ltac:(by rewrite Hpc)) as D.
      unfold delivered_ok in D. rewrite Hpc in D.
      pose proof (Forall_lookup_1 _ _ _ _ (wf_pc _ _ W) Hi) as Hk.
      unfold pc_ok in Hk. rewrite Hpc in Hk.
      apply (terminal_iff f _ Hv) in Hk.
      rewrite output_set_pc. change (output (close_with EOF st)) with (output st).
      rewrite D. apply take_ge. lia.
    + rewrite Hp0 in Hp'. injection Hp' as ->. by apply fetch_not_eof in Hf.
Qed.

Lemma out_step st st' :
  wf f st -> sink_inv f st -> out_inv content f st -> transition f st st' ->
  out_inv content f st'.
Proof.
  intros W SI O T. split.
  - by eapply out_step_open.
  - by eapply out_step_eof.
Qed.

Lemma reachable_out st : reachable f st -> out_inv content f st.
Proof.
  revert st. apply reachable_ind_tr; [apply out_init|].
  intros st st' Hr. apply out_step; auto using reachable_wf, reachable_sink.
Qed.

(** What the consumer has when a Read reports end-of-stream. *)
Lemma eof_output st :
  reachable f st -> rd_err st = Some EOF -> output st = content.
Proof.
  intros Hr Hrd. apply (reachable_out st Hr).
  by apply (si_rd _ _ (reachable_sink _ _ Hr)).
Qed.

(** *** No run is longer than [measure] *)

Lemma sum_with_app {A} (w : A -> nat) l1 l2 :
  sum_with w (l1 ++ l2) = (sum_with w l1 + sum_with w l2)%nat.
Proof. induction l1 as [|x l1 IH]; cbn [sum_with app]; lia. Qed.

Lemma sum_with_alter {A} (w : A -> nat) (g : A -> A) l : forall i x,
  l !! i = Some x ->
  (sum_with w (alter g i l) + w x = sum_with w l + w (g x))%nat.
Proof.
  induction l as [|y l IH]; intros [|i] x H; try discriminate.
  - cbn in H. injection H as ->. cbn. lia.
  - cbn in H. cbn [alter list_alter sum_with]. specialize (IH i x H).
    change (list_alter g i l) with (alter g i l). lia.
Qed.

Lemma sum_with_alter_same {A} (w : A -> nat) (g : A -> A) l i :
  (forall x, w (g x) = w x) -> sum_with w (alter g i l) = sum_with w l.
Proof.
  intros H. destruct (l !! i) as [x|] eqn:E.
  - pose proof (sum_with_alter w g l i x E). rewrite H in *. lia.
  - f_equal. apply list_eq. intros j. destruct (decide (i = j)) as [->|Hne].
    + by rewrite list_lookup_alter_eq, E.
    + by rewrite list_lookup_alter_ne.
Qed.

Lemma pot_terminal k s : is_terminal f s = true -> pot f k s = 2%nat.
Proof. intros H. destruct k; cbn [pot]; by rewrite ?H. Qed.

(** Beyond [fuel_of] the fuel does not matter. *)
Lemma pot_stable k1 : forall k2 s,
  0 <= s <= size f + 1 ->
  (s = 0 \/ chunkSize f < s \/ s = size f + 1) ->
  (fuel_of f s <= k1)%nat -> (fuel_of f s <= k2)%nat ->
  pot f k1 s = pot f k2 s.
Proof.
  pose proof Hv as [Hsz Hcs].
  induction k1 as [|k1 IH]; intros k2 s Hs Ho H1 H2.
  - unfold fuel_of in H1. lia.
  - destruct k2 as [|k2]; [unfold fuel_of in H2; lia|].
    cbn [pot]. destruct (is_terminal f s) eqn:E; [done|].
    assert (s <> size f + 1) as Hne.
    { intros E'. apply (terminal_iff f _ Hv) in E'. congruence. }
    assert (0 <= s <= size f) as Hin by lia.
    assert (s = 0 \/ chunkSize f < s) as Ho' by lia.
    destruct (chunk_arith f s Hv Hin Ho') as (_ & He & Hn).
    f_equal. apply IH.
    + rewrite Hn, He. lia.
    + rewrite Hn, He. lia.
    + unfold fuel_of in *. rewrite Hn, He. lia.
    + unfold fuel_of in *. rewrite Hn, He. lia.
Qed.

Lemma weight_spawn s : weight f (spawn f s) = pot f (fuel_of f s) s.
Proof.
  unfold weight, spawn. cbn. destruct (is_terminal f s) eqn:E; [|done].
  by rewrite pot_terminal.
Qed.

(** Taking the permit and spawning costs one step of the potential. *)
Lemma weight_acquire st i t :
  wf f st -> tasks st !! i = Some t -> at_pc t = Acquire ->
  weight f t
  = (6 + body_len f (start t) + weight f (spawn f (next_start f (start t))))%nat.
Proof.
  intros W Hi Hpc. pose proof Hv as [Hsz Hcs].
  pose proof (Forall_lookup_1 _ _ _ _ (wf_pc _ _ W) Hi) as Hk.
  unfold pc_ok in Hk. rewrite Hpc in Hk.
  destruct (starts_ok f st Hv W _ _ Hi) as [Hr Ho].
  assert (start t <> size f + 1) as Hne.
  { intros E'. apply (terminal_iff f _ Hv) in E'. congruence. }
  assert (0 <= start t <= size f) as Hin by lia.
  assert (start t = 0 \/ chunkSize f < start t) as Ho' by lia.
  destruct (chunk_arith f (start t) Hv Hin Ho') as (_ & He & Hn).
  rewrite weight_spawn. unfold weight. rewrite Hpc.
  destruct (fuel_of f (start t)) as [|k] eqn:Ef; [unfold fuel_of in Ef; lia|].
  cbn [pot]. rewrite Hk. f_equal.
  apply pot_stable.
  - rewrite Hn, He. lia.
  - rewrite Hn, He. lia.
  - unfold fuel_of in *. rewrite Hn, He. lia.
  - lia.
Qed.

Lemma reader_flag_mono st st' :
  wf f st -> transition f st st' ->
  returned_reader st = true -> returned_reader st' = true.
Proof.
  intros W T H. destruct (transition_tasks _ _ _ T) as (Hlen & Hts).
  destruct (wf_chain _ _ W) as ((t0 & Ht0 & _) & _).
  destruct (lookup_lt_is_Some_2 (tasks st') 0) as [t0' Ht0'].
  { apply lookup_lt_Some in Ht0. lia. }
  destruct (Hts _ _ Ht0') as [(t & Ht & _ & Htok & _)|(Hl & _)].
  - unfold returned_reader in *.
    destruct (tasks st) as [|x xs]; [done|]. destruct (tasks st') as [|y ys]; [done|].
    cbn in Ht, Ht0'. simplify_eq. auto.
  - apply lookup_lt_Some in Ht0. lia.
Qed.

Lemma body_len_inr s body berr :
  fetch f s = inr (body, berr) -> body_len f s = length body.
Proof. unfold body_len. by intros ->. Qed.

Lemma measure_decreases st st' :
  wf f st -> transition f st st' -> (measure f st' < measure f st)%nat.
Proof.
  intros W T.
  pose proof (reader_flag_mono _ _ W T) as Hflag.
  assert ((if returned_reader st' then 0 else 1)
          <= (if returned_reader st then 0 else 1))%nat as Hf'.
  { destruct (returned_reader st); [by rewrite Hflag|].
    destruct (returned_reader st'); lia. }
  unfold measure. clear Hflag.
  tr_cases T;
    try (match goal with
         | |- context [alter (with_pc ?p) ?i0 (tasks st)] =>
             pose proof (sum_with_alter (weight f) (with_pc p) _ _ _ Hi) as Hsum
         end);
    try (match type of Hsum with
         | (?a + _ = ?b + _)%nat =>
             remember a as A eqn:EA; remember b as B eqn:EB; clear EA EB
         end;
         unfold weight in Hsum; cbn in Hsum; rewrite Hpc in Hsum).
  - (* GetContext returns *)
    rewrite Hrr in *.
    assert (returned_reader (close_seq 0 st) = true) as ->.
    { unfold returned_reader in *. cbn.
      destruct (wf_chain _ _ W) as ((t0 & Ht0 & _) & _).
      by destruct (tasks st) as [|x xs]. }
    rewrite sum_with_alter_same by done. lia.
  - rewrite Hctx. lia.
  - lia.
  - lia.
  - lia.
  - exfalso. pose proof (Forall_lookup_1 _ _ _ _ (wf_closed _ _ W Hcl) Hi) as [H|H].
    + unfold has_child in H. by rewrite Hpc in H.
    + by rewrite Hpc in H.
  - (* a permit is taken and the next task spawned *)
    rewrite sum_with_app. cbn [sum_with].
    pose proof (sum_with_alter (weight f) (with_pc Fetch)
                  (alter (with_nxt (length (tasks st))) i (tasks st)) i
                  (with_nxt (length (tasks st)) t)
                  ltac:(by apply lookup_alter_eq)) as H1.
    rewrite (sum_with_alter_same (weight f) (with_nxt (length (tasks st))))
      in H1 by done.
    pose proof (weight_acquire st i t W Hi Hpc) as H2.
    change (weight f (with_nxt (length (tasks st)) t)) with (weight f t) in H1.
    assert (weight f (with_pc Fetch (with_nxt (length (tasks st)) t))
            = (5 + body_len f (start t))%nat) as H3 by done.
    lia.
  - lia.
  - rewrite (body_len_inr _ _ _ Hf) in Hsum. lia.
  - lia.
  - lia.
  - lia.
  - lia.
  - cbn in Hsum. lia.
  - pose proof (sum_with_alter (weight f) (with_pc Release)
                  (alter with_tok (nxt t) (tasks st)) i t) as H1.
    rewrite (sum_with_alter_same (weight f) with_tok) in H1 by done.
    destruct (wf_chain _ _ W) as (_ & H2 & _).
    destruct (H2 i t Hi) as (Hn & _); [unfold has_child; by rewrite Hpc|].
    rewrite list_lookup_alter_ne in H1 by lia. specialize (H1 Hi).
    match type of H1 with
    | (?a + _ = ?b + _)%nat =>
        remember a as A eqn:EA; remember b as B eqn:EB; clear EA EB
    end.
    unfold weight in H1. cbn in H1. rewrite Hpc in H1. lia.
  - lia.
  - lia.
  - rewrite length_drop in Hsum. lia.
  - rewrite Hrd. lia.
Qed.

Lemma run_bound sched : forall st st',
  reachable f st -> run f sched st = Some st' ->
  (length sched + measure f st' <= measure f st)%nat.
Proof.
  induction sched as [|a sched IH]; intros st st' Hr; cbn [run length].
  - intros [= <-]. lia.
  - destruct (step f a st) as [st1|] eqn:E; [|discriminate]. intros Hrun.
    pose proof (step_transition _ _ _ _ E) as T.
    pose proof (measure_decreases _ _ (reachable_wf _ _ Hr) T).
    specialize (IH st1 st' (reach_step _ _ _ _ Hr E) Hrun). lia.
Qed.

(** *** Without cancellation the sink is only ever closed cleanly *)

Lemma copy_no_body_error st i t rest berr :
  reachable f st -> tasks st !! i = Some t -> at_pc t = Copy rest berr ->
  berr = None.
Proof.
  intros Hr Hi Hpc. pose proof (reachable_wf _ _ Hr) as W.
  pose proof (Forall_lookup_1 _ _ _ _ (wf_pc _ _ W) Hi) as Hk.
  unfold pc_ok in Hk. rewrite Hpc in Hk.
  destruct (task_fetch st i t W Hi Hk) as (Hfe & _).
  pose proof (Forall_lookup_1 _ _ _ _ (si_body _ _ (reachable_sink _ _ Hr)) Hi) as Hb.
  unfold body_ok in Hb. rewrite Hpc, Hfe in Hb.
  destruct Hb as [(body & Hb) _]. congruence.
Qed.

Lemma clean_pipe st :
  reachable f st -> ctx_done st = None ->
  pipe st = None \/ pipe st = Some EOF.
Proof.
  revert st. apply (reachable_ind_tr f (fun st => ctx_done st = None ->
                                          pipe st = None \/ pipe st = Some EOF));
    [by left|].
  intros st st' Hr IH T Hc. pose proof (reachable_wf _ _ Hr) as W.
  tr_cases T; try (by apply IH); try congruence;
    try (pose proof (Forall_lookup_1 _ _ _ _ (wf_pc _ _ W) Hi) as Hk;
         unfold pc_ok in Hk; rewrite Hpc in Hk).
  - right. by destruct (IH Hc) as [-> | ->].
  - exfalso. destruct (task_fetch st i t W Hi Hk) as (Hfe & _). congruence.
  - exfalso. by pose proof (copy_no_body_error st i t _ _ Hr Hi Hpc).
Qed.

(** *** Progress *)

Hypothesis Hconc : 1 <= concurrency f.

Lemma count_if_none {A} (P : A -> bool) l :
  (forall x, In x l -> P x = false) -> count_if P l = 0%nat.
Proof.
  induction l as [|x l IH]; intros H; [done|]. cbn [count_if].
  rewrite (H x) by (by left). rewrite IH; [done|]. intros y Hy. apply H. by right.
Qed.

(** As long as the consumer has not been told the end and nobody
    cancels, something other than a cancellation can happen. *)
Lemma progress st :
  reachable f st -> ctx_done st = None -> rd_err st = None ->
  exists a st', is_cancel a = false /\ step f a st = Some st'.
Proof.
  intros Hr Hc Hrd.
  pose proof (reachable_wf _ _ Hr) as W.
  pose proof (reachable_sink _ _ Hr) as SI.
  pose proof (wf_panic _ _ W) as Hpan.
  destruct (returned_reader st) eqn:Hrr; cycle 1.
  { exists AReturn. eexists. split; [done|]. unfold step. by rewrite Hpan, Hrr. }
  destruct (clean_pipe st Hr Hc) as [Hp|Hp]; cycle 1.
  { exists AReadErr. eexists. split; [done|]. unfold step.
    by rewrite Hpan, Hp, Hrd, Hrr. }
  pose proof (si_open _ _ SI Hp) as Op.
  (* a task at its deferred receive can always go on *)
  destruct (list_find (fun t => at_release (at_pc t) = true) (tasks st))
    as [[i t]|] eqn:Hfind.
  { apply list_find_Some in Hfind as (Hi & Hrel & _).
    assert (at_pc t = Release) as Hpc by (by destruct (at_pc t)).
    destruct (release_enabled f st i t W Hi Hpc) as (st' & Hs & _).
    exists (AStep i), st'. done. }
  apply list_find_None in Hfind.
  (* otherwise the first task that has not returned can *)
  destruct (list_find (fun t => returned (at_pc t) = false) (tasks st))
    as [[w t]|] eqn:Hw; cycle 1.
  { exfalso. apply list_find_None in Hw.
    destruct (last_task_childless f st W) as (tl & Hl & Hcl).
    pose proof (Forall_lookup_1 _ _ _ _ Hw Hl) as Hret. cbn in Hret.
    apply not_false_is_true in Hret.
    destruct (Forall_lookup_1 _ _ _ _ Op Hl (returned_passed _ Hret)) as (_ & ? & _).
    congruence. }
  apply list_find_Some in Hw as (Hi & Hnr & Hbefore).
  assert (all_returned_before st w) as Ha.
  { intros k tk Hk Hl. specialize (Hbefore k tk Hl Hk).
    by apply not_false_is_true in Hbefore. }
  assert (tok t = true) as Htok.
  { destruct w as [|w].
    - unfold returned_reader in Hrr. destruct (tasks st) as [|x xs]; [done|].
      cbn in Hi. by simplify_eq.
    - destruct (lookup_lt_is_Some_2 (tasks st) w) as [p Hp'].
      { apply lookup_lt_Some in Hi. lia. }
      destruct (chained_child _ _ _ _ _ (wf_chain _ _ W) Hp' Hi) as (_ & _ & _ & Ht).
      rewrite Ht. apply (Ha w p); [lia | done]. }
  destruct (at_pc t) eqn:Hpc; try done.
  - exists (AStep w). eexists. split; [done|]. unfold step, step_task.
    by rewrite Hpan, Hi, Hpc, Htok.
  - exists (AStep w). eexists. split; [done|]. unfold step, step_task.
    by rewrite Hpan, Hi, Hpc.
  - (* taking a permit: nobody holds one *)
    assert (cl_closed st = false) as Hcl.
    { destruct (cl_closed st) eqn:E; [|done].
      pose proof (Forall_lookup_1 _ _ _ _ (wf_closed _ _ W E) Hi) as [H|H].
      - unfold has_child in H. by rewrite Hpc in H.
      - by rewrite Hpc in H. }
    assert (cl_len st = 0%nat) as Hlen.
    { rewrite (wf_permits _ _ W). apply count_if_none. intros x Hx.
      apply list_elem_of_In, list_elem_of_lookup in Hx as [k Hk].
      assert (has_child f t = false) as Hch
        by (unfold has_child; by rewrite Hpc).
      pose proof (proj2 (proj2 (wf_chain _ _ W)) w t Hi Hch) as Hlast.
      destruct (decide (k = w)) as [->|Hne].
      - simplify_eq. by rewrite Hpc.
      - assert (k < w)%nat as Hlt by (apply lookup_lt_Some in Hk; lia).
        pose proof (Ha k x Hlt Hk) as Hret.
        pose proof (Forall_lookup_1 _ _ _ _ Hfind Hk) as Hnrel. cbn in Hnrel.
        destruct (at_pc x); try done. }
    exists (AStep w). eexists. split; [done|]. unfold step, step_task.
    assert ((Z.of_nat 0 <? concurrency f) = true) as E by (apply Z.ltb_lt; lia).
    by rewrite Hpan, Hi, Hpc, Hcl, Hlen, E.
  - exists (AStep w). unfold step, step_task. rewrite Hpan, Hi, Hpc.
    destruct (fetch f (start t)) as [e|[body berr]]; eauto.
  - exists (AStep w). eexists. split; [done|]. unfold step, step_task.
    by rewrite Hpan, Hi, Hpc, Htok.
  - pose proof (copy_no_body_error st w t _ _ Hr Hi Hpc) as ->.
    destruct rest as [|b rest].
    + exists (AStep w). eexists. split; [done|]. unfold step, step_task.
      by rewrite Hpan, Hi, Hpc, Hp.
    + exists (ARead w 1). eexists. split; [done|]. unfold step, step_read.
      by rewrite Hpan, Hi, Hpc, Hp, Hrd, Hrr.
  - exists (AStep w). eexists. split; [done|]. unfold step, step_task.
    by rewrite Hpan, Hi, Hpc.
Qed.

Lemma step_keeps_ctx a st st' :
  is_cancel a = false -> step f a st = Some st' -> ctx_done st' = ctx_done st.
Proof.
  intros Ha Hs. destruct a as [|c0|i0|i0|i0 n0|]; try done;
    unfold step, step_task, step_ctx, step_read in Hs;
    repeat case_match; simplify_eq; done.
Qed.

(** From every state reached without cancellation the transfer can be
    completed, and then the consumer has the whole resource. *)
Lemma completes n : forall st,
  (measure f st < n)%nat -> reachable f st -> ctx_done st = None ->
  exists sched st', run f sched st = Some st' /\
    rd_err st' = Some EOF /\ output st' = content.
Proof.
  induction n as [|n IH]; intros st Hm Hr Hc; [lia|].
  destruct (rd_err st) as [e|] eqn:Hrd.
  - exists [], st. split; [done|].
    pose proof (si_rd _ _ (reachable_sink _ _ Hr) _ Hrd) as Hp.
    destruct (clean_pipe st Hr Hc) as [Hp'|Hp']; [congruence|].
    assert (e = EOF) as -> by congruence.
    split; [done|]. by apply eof_output.
  - destruct (progress st Hr Hc Hrd) as (a & st1 & Ha & Hs).
    pose proof (measure_decreases _ _ (reachable_wf _ _ Hr)
                  (step_transition _ _ _ _ Hs)) as Hd.
    destruct (IH st1) as (sched & st' & Hrun & Hres).
    + lia.
    + by eapply reach_step.
    + by rewrite (step_keeps_ctx _ _ _ Ha Hs).
    + exists (a :: sched), st'. cbn [run]. by rewrite Hs.
Qed.

End RoundTrip.


(** ** The servers of the examples *)

Lemma Itoa_nonneg n : 0 <= n -> Strconv.Itoa n = Strconv.utoa n.
Proof. intros H. unfold Strconv.Itoa. destruct (n <? 0) eqn:E; [lia | done]. Qed.

Lemma last_snoc {A} (l : list A) x d : List.last (l ++ [x]) d = x.
Proof. rewrite last_app_nonempty; done. Qed.

Lemma parse_range_bytes a b :
  0 <= a <= GoInt.max_int -> 0 <= b <= GoInt.max_int ->
  parse_range (String.append "bytes="
                 (String.append (Strconv.Itoa a) (String "-" (Strconv.Itoa b))))
  = Some (a, b).
Proof.
  intros Ha Hb. unfold parse_range. cbn [String.append string_drop].
  rewrite !Itoa_nonneg by lia.
  rewrite Split_app, !Split_no_sep by apply utoa_no_dash. cbn [app].
  by rewrite !Atoi_utoa.
Qed.

Lemma exact_server_exact content f :
  client f = exact_server content -> Method (req f) = "GET"%string ->
  exact content f.
Proof.
  intros Hc Hm a b Hab Hmax. rewrite Hc.
  eexists. split; [|split; [|split]].
  - unfold exact_server, with_range. cbn [Do Method ReqHeader]. rewrite Hm.
    change (String.eqb "GET" "HEAD") with false. cbv iota.
    unfold Header_Add. rewrite last_snoc, String.eqb_refl.
    rewrite parse_range_bytes by lia. reflexivity.
  - cbn. lia.
  - reflexivity.
  - reflexivity.
Qed.

Lemma run_init_reachable f sched st :
  run f sched (init_state f) = Some st -> reachable f st.
Proof. apply run_reachable. constructor. Qed.

Lemma GetContext_init env url opts f st :
  GetContext env url opts = inl (f, st) -> st = init_state f.
Proof.
  unfold GetContext. repeat case_match; try discriminate. by intros [= <- <-].
Qed.

(** ** The claims on concrete runs *)

Lemma final_reachable f sched : reachable f (final_state f sched).
Proof.
  unfold final_state. destruct (run f sched (init_state f)) as [st|] eqn:E.
  - by eapply run_init_reachable.
  - constructor.
Defined.

Lemma valid_ten_file : valid ten_file.
Proof. unfold valid, GoInt.max_int. cbn. lia. Defined.

Lemma GetContext_ten_file :
  GetContext (example_env (exact_server ten_bytes)) example_url
    [WithChunkSize 3; WithConcurrency 2]
  = inl (ten_file, init_state ten_file).
Proof. reflexivity. Qed.

Lemma GetContext_unknown_size :
  GetContext (example_env (unknown_size_server ten_bytes)) example_url []
  = inl (unknown_size_file, init_state unknown_size_file).
Proof. reflexivity. Qed.


Lemma chunk_boundaries_witness :
  chunk_ranges twelve_mib_file 4 0 = twelve_mib_ranges.
Proof.
  apply (proj1 (chunk_boundaries twelve_mib_file eq_refl eq_refl)). lia.
Defined.

(** The ranges of the claim are not the ones requested: the second chunk
    ends at 10485761 and the third starts at 10485762. *)
Lemma chunk_boundaries_claimed_ranges :
  chunk_ranges twelve_mib_file 4 0
    = [(0, 5242880); (5242881, 10485761); (10485762, 12582912)] /\
  chunk_ranges twelve_mib_file 4 0
    <> [(0, 5242880); (5242881, 10485760); (10485761, 12582912)].
Proof. split; [reflexivity | discriminate]. Qed.

Lemma unbounded_size_witness :
  size unknown_size_file = -1 /\
  issued unknown_size_file
    (final_state unknown_size_file [AReturn; AStep 0; AStep 0; AReadErr]) = [] /\
  reads (final_state unknown_size_file [AReturn; AStep 0; AStep 0; AReadErr]) = [] /\
  rd_err (final_state unknown_size_file [AReturn; AStep 0; AStep 0; AReadErr])
    = Some EOF.
Proof.
  split; [reflexivity|].
  pose proof (unbounded_size_fetches_nothing unknown_size_file
                (final_state unknown_size_file [AReturn; AStep 0; AStep 0; AReadErr])
                eq_refl (final_reachable _ _)) as (_ & _ & _ & Hi & Hrd).
  split; [exact Hi|]. split; [exact Hrd | reflexivity].
Defined.

Lemma write_order_witness :
  map fst (reads (final_state ten_file ten_schedule)) = [0; 1; 1; 2]%nat /\
  nondecreasing (map fst (reads (final_state ten_file ten_schedule))).
Proof.
  split; [reflexivity|].
  apply (write_order ten_file (final_state ten_file ten_schedule)
           valid_ten_file (final_reachable _ _)).
Defined.

Lemma permit_bound_witness :
  Z.of_nat (cl_len (final_state ten_file [AStep 0; AStep 1])) <= 2.
Proof.
  apply (permit_bound ten_file (final_state ten_file [AStep 0; AStep 1])).
  - cbn. lia.
  - apply final_reachable.
Defined.

Lemma fetch_failure_witness :
  pipe (final_state two_failures_file two_failures_schedule) <> Some EOF /\
  forall k bs,
    In (k, bs) (reads (final_state two_failures_file two_failures_schedule)) ->
    (k < 1)%nat.
Proof.
  pose proof (fetch_failure two_failures_file
                (final_state two_failures_file two_failures_schedule) 1
                {| start := 4; at_pc := CloseNext; tok := false; nxt := 2 |}
                (StatusErr 404 "error")
                (final_reachable _ _) eq_refl eq_refl eq_refl)
    as (_ & _ & Hk & Hp & _).
  split; [exact Hp | exact Hk].
Defined.

(** Two chunks fail, with different errors; the second task closes the
    sink first. The first task has failed and called [CloseWithError]
    too, yet the read fails with the error of the second chunk. *)
Lemma fetch_failure_first_close_wins :
  tasks (final_state two_failures_file two_failures_schedule) !! 0%nat
    = Some {| start := 0; at_pc := CloseNext; tok := true; nxt := 1 |} /\
  fetch_error two_failures_file 0 = Some (StatusErr 500 "error") /\
  rd_err (final_state two_failures_file two_failures_schedule)
    = Some (StatusErr 404 "error") /\
  rd_err (final_state two_failures_file two_failures_schedule)
    <> Some (StatusErr 500 "error").
Proof.
  split; [|split; [|split]];
    [vm_compute; reflexivity.. | vm_compute; discriminate].
Qed.

Lemma cancel_at_select_witness :
  step ten_file (AStep 1) (final_state ten_file cancel_while_waiting) = None /\
  pipe (final_state ten_file cancel_while_waiting) <> Some EOF.
Proof.
  pose proof (cancel_at_select ten_file
                (final_state ten_file cancel_while_waiting) 1
                {| start := 4;
                   at_pc := Select [Byte.x34; Byte.x35; Byte.x36; Byte.x37] None;
                   tok := false; nxt := 2 |}
                Canceled (final_reachable _ _) eq_refl eq_refl eq_refl eq_refl)
    as (Hs & Hp & _).
  split; [exact Hs | exact Hp].
Defined.

(** The third chunk has failed and closed the sink when the context is
    cancelled; the second task, waiting at its select without its
    token, takes the [ctx.Done()] case, but what the consumer then
    reads is the error of the failed chunk, not the cancellation. *)
Lemma cancel_after_failure_reader :
  tasks (final_state last_fails_file cancel_after_failure) !! 1%nat
    = Some {| start := 4;
              at_pc := Select [Byte.x34; Byte.x35; Byte.x36; Byte.x37] None;
              tok := false; nxt := 2 |} /\
  ctx_done (final_state last_fails_file cancel_after_failure) = Some Canceled /\
  run last_fails_file [ACtx 1; AReturn; AReadErr]
    (final_state last_fails_file cancel_after_failure)
    = Some (final_state last_fails_file
              (cancel_after_failure ++ [ACtx 1; AReturn; AReadErr])) /\
  rd_err (final_state last_fails_file
            (cancel_after_failure ++ [ACtx 1; AReturn; AReadErr]))
    = Some (StatusErr 500 "error") /\
  rd_err (final_state last_fails_file
            (cancel_after_failure ++ [ACtx 1; AReturn; AReadErr]))
    <> Some (CtxErr Canceled).
Proof.
  split; [|split; [|split; [|split]]];
    [vm_compute; reflexivity.. | vm_compute; discriminate].
Qed.

Lemma probe_failure_witness :
  GetContext bad_url_env example_url []
    = inr (UrlErr "missing protocol scheme") /\
  GetContext (example_env down_client) example_url []
    = inr (Errorf "unable to get content range" (DoErr "connection refused")) /\
  GetContext (example_env (const_client (range_probe "bytes 0-0/many")))
    example_url []
    = inr (ErrSyntax "Atoi" "many").
Proof.
  split; [|split].
  - apply (proj1 (probe_failure bad_url_env example_url [])). reflexivity.
  - apply (proj1 (proj2 (probe_failure (example_env down_client) example_url []))
             example_request
             {| Method := "HEAD"; URL := example_url; ReqHeader := [] |}
             (default_file (example_env down_client) example_request));
      reflexivity.
  - apply (proj2 (proj2 (probe_failure
                           (example_env (const_client (range_probe "bytes 0-0/many")))
                           example_url []))
             example_request
             {| Method := "HEAD"; URL := example_url; ReqHeader := [] |}
             (default_file
                (example_env (const_client (range_probe "bytes 0-0/many")))
                example_request)
             (range_probe "bytes 0-0/many"));
      try reflexivity. discriminate.
Defined.

(** * Further properties of the package *)

(** ** Composition of options *)

(** X1. [Options] runs its options from left to right on the file the
    previous one left and stops at the first error: a list [a ++ b]
    behaves as [a] followed, if [a] returned nil, by [b] on the file [a]
    produced; after an error no later option is applied. *)
Theorem Options_app (a b : list Option_) (f : remoteFile) :
  Options (a ++ b) f
  = match Options a f with
    | (f', Some e) => (f', Some e)
    | (f', None) => Options b f'
    end.
Proof.
  revert f. induction a as [|opt a IH]; intros f; cbn [app Options].
  - reflexivity.
  - destruct (opt f) as [f' [e|]]; [reflexivity | apply IH].
Qed.

Lemma Options_stop (a : list Option_) (opt : Option_) (b : list Option_)
    (f f1 f2 : remoteFile) (e : error) :
  Options a f = (f1, None) -> opt f1 = (f2, Some e) ->
  Options (a ++ opt :: b) f = (f2, Some e).
Proof.
  revert f. induction a as [|o a IH]; intros f; cbn [app Options].
  - intros [= ->] ->. reflexivity.
  - destruct (o f) as [f' [e'|]]; [discriminate | apply IH].
Qed.

(** X2. If an option returns an error, [GetContext] returns exactly that
    error and no reader, whatever options follow it and whatever client
    is in place: the options after it are not applied. *)
Theorem option_error_aborts (env : Env) (url : string)
    (a b : list Option_) (opt : Option_) (f1 f2 : remoteFile) (e : error)
    (Hurl : url_error env url = None)
    (Ha : Options a (default_file env (get_request url)) = (f1, None))
    (Hopt : opt f1 = (f2, Some e)) :
  Options (a ++ opt :: b) (default_file env (get_request url)) = (f2, Some e) /\
  GetContext env url (a ++ opt :: b) = inr e.
Proof.
  pose proof (Options_stop a opt b _ f1 f2 e Ha Hopt) as H.
  split; [exact H|].
  unfold GetContext, NewRequestWithContext. rewrite Hurl. cbv beta iota.
  change {| Method := "GET"; URL := url; ReqHeader := [] |}
    with (get_request url).
  rewrite H. reflexivity.
Qed.

Lemma option_error_aborts_witness :
  GetContext (example_env down_client) example_url
    [WithChunkSize 7; refuse (DoErr "no"); WithConcurrency 2]
  = inr (DoErr "no").
Proof.
  apply (option_error_aborts (example_env down_client) example_url
           [WithChunkSize 7] [WithConcurrency 2] (refuse (DoErr "no"))
           (fst (WithChunkSize 7
                   (default_file (example_env down_client)
                      (get_request example_url))))
           (fst (WithChunkSize 7
                   (default_file (example_env down_client)
                      (get_request example_url))))
           (DoErr "no")); reflexivity.
Defined.

Lemma builtin_step opt f :
  builtin opt ->
  exists f', opt f = (f', None) /\
    (1 <= concurrency f <= GoInt.max_int -> 1 <= concurrency f' <= GoInt.max_int) /\
    (1 <= chunkSize f <= GoInt.max_int -> 1 <= chunkSize f' <= GoInt.max_int) /\
    size f' = size f /\ Method (req f') = Method (req f) /\
    URL (req f') = URL (req f).
Proof.
  intros [k v|[c|]|c Hc|c Hc|]; (eexists; split; [reflexivity|]);
    cbn [concurrency chunkSize size req Method URL];
    unfold GoInt.in_range, GoInt.min_int, GoInt.max_int, DefaultChunkSize in *.
  - tauto.
  - tauto.
  - tauto.
  - split; [|tauto]. intros _. destruct (c <? 1) eqn:E; lia.
  - split; [tauto|]. split; [|tauto]. intros _. destruct (c <? 1) eqn:E; lia.
  - tauto.
Qed.

Lemma builtin_Options (opts : list Option_) (f : remoteFile) :
  Forall builtin opts ->
  exists f', Options opts f = (f', None) /\
    (1 <= concurrency f <= GoInt.max_int -> 1 <= concurrency f' <= GoInt.max_int) /\
    (1 <= chunkSize f <= GoInt.max_int -> 1 <= chunkSize f' <= GoInt.max_int) /\
    size f' = size f /\ Method (req f') = Method (req f) /\
    URL (req f') = URL (req f).
Proof.
  intros Hb. revert f. induction Hb as [|opt opts Ho Hb IH]; intros f; cbn [Options].
  - exists f. tauto.
  - destruct (builtin_step opt f Ho) as (f1 & -> & K1 & C1 & S1 & M1 & U1).
    destruct (IH f1) as (f' & -> & K2 & C2 & S2 & M2 & U2).
    exists f'. split; [reflexivity|].
    split; [tauto|]. split; [tauto|]. split; [congruence|]. split; congruence.
Qed.

(** X3. A list of the package's own options never fails, in whatever
    order and however often each occurs, and it keeps the file usable: a
    concurrency and a chunk size that were at least 1 are at least 1
    afterwards, whatever values were passed, and the size, the method
    and the URL of the request are not touched. *)
Theorem builtin_options_total (opts : list Option_) (f : remoteFile)
    (Hb : Forall builtin opts) :
  exists f', Options opts f = (f', None) /\
    (1 <= concurrency f <= GoInt.max_int -> 1 <= concurrency f' <= GoInt.max_int) /\
    (1 <= chunkSize f <= GoInt.max_int -> 1 <= chunkSize f' <= GoInt.max_int) /\
    size f' = size f /\ Method (req f') = Method (req f) /\
    URL (req f') = URL (req f).
Proof.
  revert f. induction Hb as [|opt opts Ho Hb IH]; intros f; cbn [Options].
  - exists f. tauto.
  - destruct (builtin_step opt f Ho) as (f1 & -> & K1 & C1 & S1 & M1 & U1).
    destruct (IH f1) as (f' & -> & K2 & C2 & S2 & M2 & U2).
    exists f'. split; [reflexivity|].
    split; [tauto|]. split; [tauto|]. split; [congruence|]. split; congruence.
Qed.

Lemma builtin_in_range c : -10 <= c <= 10 -> GoInt.in_range c.
Proof. unfold GoInt.in_range, GoInt.min_int, GoInt.max_int. lia. Qed.

Lemma builtin_options_total_witness :
  exists f',
    Options [WithChunkSize 0; WithHeader "Accept" "*/*"; WithConcurrency (-1);
             WithClient None; WithDebug] ten_file = (f', None) /\
    1 <= concurrency f' /\ 1 <= chunkSize f'.
Proof.
  destruct (builtin_options_total
              [WithChunkSize 0; WithHeader "Accept" "*/*"; WithConcurrency (-1);
               WithClient None; WithDebug] ten_file)
    as (f' & E & K & C & _).
  - repeat constructor; apply builtin_in_range; lia.
  - exists f'. split; [exact E|].
    split; [apply K | apply C]; unfold GoInt.max_int; cbn; lia.
Defined.

(** ** What a successful [GetContext] has done *)

Lemma GetContext_inv (env : Env) (url : string) (opts : list Option_)
    (file : remoteFile) (st : state) :
  GetContext env url opts = inl (file, st) ->
  url_error env url = None /\
  exists file0 res,
    Options opts (default_file env (get_request url)) = (file0, None) /\
    Do (client file0) (probe_request url file0) = inl res /\
    resolve_size res = inl (size file) /\
    file = set_size (size file) file0 /\
    st = init_state file.
Proof.
  intros H. unfold GetContext, NewRequestWithContext in H.
  destruct (url_error env url) as [msg|] eqn:Hu; [discriminate|].
  split; [reflexivity|]. cbv beta iota in H.
  change {| Method := "GET"; URL := url; ReqHeader := [] |}
    with (get_request url) in H.
  destruct (Options opts (default_file env (get_request url)))
    as [file0 [e|]] eqn:Ho; [discriminate|].
  change (size_request {| Method := "HEAD"; URL := url; ReqHeader := [] |} file0)
    with (probe_request url file0) in H.
  destruct (Do (client file0) (probe_request url file0)) as [res|msg] eqn:Hd;
    [|discriminate].
  destruct (resolve_size res) as [sz|e] eqn:Hs; [|discriminate].
  injection H as <- <-. exists file0, res. cbn [size set_size]. done.
Qed.



Lemma GetContext_builtin (env : Env) (url : string) (opts : list Option_)
    (file : remoteFile) (st : state) :
  Forall builtin opts ->
  GetContext env url opts = inl (file, st) ->
  1 <= concurrency file <= GoInt.max_int /\
  1 <= chunkSize file <= GoInt.max_int /\
  Method (req file) = "GET"%string /\
  URL (req file) = url /\
  tasks st = [spawn file 0] /\
  cl_len st = 0%nat /\ cl_closed st = false /\
  pipe st = None /\ reads st = [] /\ rd_err st = None.
Proof.
  intros Hb H.
  destruct (GetContext_inv env url opts file st H)
    as (_ & file0 & res & Ho & _ & _ & -> & ->).
  destruct (builtin_Options opts (default_file env (get_request url)) Hb)
    as (f' & Ho' & K & C & _ & M & U).
  rewrite Ho in Ho'. injection Ho' as <-.
  cbn [set_size concurrency chunkSize req init_state tasks cl_len cl_closed
       pipe reads rd_err].
  cbn [default_file concurrency chunkSize req get_request Method URL] in K, C, M, U.
  unfold DefaultConcurrency, DefaultChunkSize, GoInt.max_int in *.
  split; [lia|]. split; [lia|]. done.
Qed.

(** X5. A reader that [GetContext] returns for options of the package
    has a concurrency of at least 1, so the permit channel is made with a
    positive capacity, and a chunk size of at least 1, so the ranges
    advance; its request is a GET for the given URL; and it starts from
    one goroutine at offset 0 with an empty permit channel, an open pipe
    and nothing delivered. *)
Theorem GetContext_configured (env : Env) (url : string) (opts : list Option_)
    (file : remoteFile) (st : state)
    (Hb : Forall builtin opts)
    (H : GetContext env url opts = inl (file, st)) :
  1 <= concurrency file <= GoInt.max_int /\
  1 <= chunkSize file <= GoInt.max_int /\
  Method (req file) = "GET"%string /\
  URL (req file) = url /\
  tasks st = [spawn file 0] /\
  cl_len st = 0%nat /\ cl_closed st = false /\
  pipe st = None /\ reads st = [] /\ rd_err st = None.
Proof.
  destruct (GetContext_inv env url opts file st H)
    as (_ & file0 & res & Ho & _ & _ & -> & ->).
  destruct (builtin_Options opts (default_file env (get_request url)) Hb)
    as (f' & Ho' & K & C & _ & M & U).
  rewrite Ho in Ho'. injection Ho' as <-.
  cbn [set_size concurrency chunkSize req init_state tasks cl_len cl_closed
       pipe reads rd_err].
  cbn [default_file concurrency chunkSize req get_request Method URL] in K, C, M, U.
  unfold DefaultConcurrency, DefaultChunkSize, GoInt.max_int in *.
  split; [lia|]. split; [lia|]. done.
Qed.

Lemma ten_options_builtin : Forall builtin ten_options.
Proof. repeat constructor; apply builtin_in_range; lia. Defined.

Lemma GetContext_configured_witness :
  1 <= concurrency ten_file <= GoInt.max_int /\
  1 <= chunkSize ten_file <= GoInt.max_int.
Proof.
  destruct (GetContext_configured (example_env (exact_server ten_bytes))
              example_url ten_options ten_file (init_state ten_file)
              ten_options_builtin eq_refl) as (K & C & _).
  split; [exact K | exact C].
Defined.

(** X6. [Get] end to end. Let the options be the package's own, let the
    probe answer with the length of a resource that is not empty, and
    let every range request be answered with exactly the requested
    bytes. Then [Get] returns a reader of that size, and on it: whenever
    a Read has reported end-of-stream the bytes read so far are the
    resource, and as long as nobody cancels the transfer can be run to
    that end. *)
Theorem Get_round_trip (env : Env) (url : string) (opts : list Option_)
    (content : list Byte.byte) (file0 : remoteFile) (res : Response)
    (Hb : Forall builtin opts)
    (Hurl : url_error env url = None)
    (Ho : Options opts (default_file env (get_request url)) = (file0, None))
    (Hd : Do (client file0) (probe_request url file0) = inl res)
    (Hlen : ContentLength res = Z.of_nat (length content))
    (Hne : content <> [])
    (Hsmall : Z.of_nat (length content) < 2 ^ 62)
    (Hex : exact content file0) :
  exists file,
    Get env url opts = inl (file, init_state file) /\
    size file = Z.of_nat (length content) /\
    forall st, reachable file st ->
      (rd_err st = Some EOF -> output st = content) /\
      (ctx_done st = None ->
       exists sched st', run file sched st = Some st' /\
         rd_err st' = Some EOF /\ output st' = content).
Proof.
  set (file := set_size (Z.of_nat (length content)) file0).
  assert (Get env url opts = inl (file, init_state file)) as HG.
  { unfold Get, GetContext, NewRequestWithContext. rewrite Hurl. cbv beta iota.
    change {| Method := "GET"; URL := url; ReqHeader := [] |}
      with (get_request url).
    rewrite Ho.
    change (size_request {| Method := "HEAD"; URL := url; ReqHeader := [] |} file0)
      with (probe_request url file0).
    rewrite Hd. unfold resolve_size. rewrite Hlen.
    destruct (Z.of_nat (length content) =? 0) eqn:E.
    - apply Z.eqb_eq in E. destruct content; [done | cbn in E; lia].
    - reflexivity. }
  exists file. split; [exact HG|]. split; [reflexivity|].
  destruct (GetContext_builtin env url opts file (init_state file) Hb HG)
    as (K & C & _).
  assert (valid file) as Hv.
  { unfold valid. cbn [size file set_size]. split; [lia|exact C]. }
  assert (exact content file) as Hex' by exact Hex.
  intros st Hr. split.
  - intros Hrd. by eapply (eof_output content file).
  - intros Hc.
    eapply (completes content file) with (n := S (measure file st)); eauto; lia.
Qed.

Lemma Get_round_trip_witness :
  Get (example_env (exact_server ten_bytes)) example_url ten_options
    = inl (ten_file, init_state ten_file) /\
  output (final_state ten_file ten_schedule) = ten_bytes.
Proof.
  destruct (Get_round_trip (example_env (exact_server ten_bytes)) example_url
              ten_options ten_bytes
              (fst (Options ten_options
                      (default_file (example_env (exact_server ten_bytes))
                         (get_request example_url))))
              (response 200 "200 OK" 10 [])
              ten_options_builtin eq_refl eq_refl eq_refl eq_refl)
    as (file & HG & _ & Hrun).
  - discriminate.
  - cbn. lia.
  - apply exact_server_exact; reflexivity.
  - assert (file = ten_file) as -> by (by injection HG as <-).
    split; [exact HG|].
    apply (Hrun (final_state ten_file ten_schedule) (final_reachable _ _)).
    reflexivity.
Defined.

(** ** Size resolution: what is read from the header *)

(** X7. With a [ContentLength] of 0 only the text after the last [/] of
    the [Range] header counts: whatever precedes it, unit and range
    included, is never looked at; a value without [/] is taken whole;
    the token [*] gives -1 and anything else is handed to [Atoi], signs
    included. A missing or empty header makes [Atoi] fail on the empty
    string, so such an answer, an empty resource's for one, cannot be
    opened. *)
Theorem resolve_size_last_segment (res : Response)
    (H0 : ContentLength res = 0) :
  (forall p t : string,
     has_char "/" t = false ->
     Header_Get (RespHeader res) headerRange
       = String.append p (String "/" t) ->
     resolve_size res
     = if String.eqb t "*" then inl (-1) else Strconv.Atoi t) /\
  (has_char "/" (Header_Get (RespHeader res) headerRange) = false ->
   resolve_size res
   = if String.eqb (Header_Get (RespHeader res) headerRange) "*"
     then inl (-1)
     else Strconv.Atoi (Header_Get (RespHeader res) headerRange)) /\
  (Header_Get (RespHeader res) headerRange = EmptyString ->
   resolve_size res = inr (ErrSyntax "Atoi" "")).
Proof.
  unfold resolve_size. rewrite H0. cbn [Z.eqb negb]. cbv zeta.
  split; [|split].
  - intros p t Ht E. rewrite E. by rewrite Split_last.
  - intros Hn. by rewrite Split_no_sep.
  - intros ->. reflexivity.
Qed.

Lemma resolve_size_last_segment_witness :
  resolve_size (range_probe "items 3-4/5/-12") = inl (-12) /\
  resolve_size (range_probe "77") = inl 77 /\
  resolve_size empty_resource_probe = inr (ErrSyntax "Atoi" "").
Proof.
  split; [|split].
  - apply (proj1 (resolve_size_last_segment (range_probe "items 3-4/5/-12") eq_refl)
             "items 3-4/5"%string "-12"%string); reflexivity.
  - apply (proj1 (proj2 (resolve_size_last_segment (range_probe "77") eq_refl)));
      reflexivity.
  - apply (proj2 (proj2 (resolve_size_last_segment empty_resource_probe eq_refl)));
      reflexivity.
Defined.

(** ** The ranges in closed form *)

Lemma chunk_count_spec f :
  valid f ->
  let n := Z.of_nat (chunk_count f) in
  1 <= n /\ (n - 1) * (chunkSize f + 1) <= size f < n * (chunkSize f + 1).
Proof.
  intros [Hs Hc]. unfold chunk_count. cbv zeta.
  assert (0 < chunkSize f + 1) as Hpos by lia.
  assert (0 <= size f / (chunkSize f + 1)) as Hq by (apply Z.div_pos; lia).
  rewrite Z2Nat.id by lia.
  pose proof (Z.mul_div_le (size f) (chunkSize f + 1) Hpos).
  pose proof (Z.mul_succ_div_gt (size f) (chunkSize f + 1) Hpos).
  split; [lia|]. split; nia.
Qed.

Lemma chunk_ranges_from f : forall m fuel i,
  valid f -> (i + m = chunk_count f)%nat -> (1 <= m)%nat -> (m <= fuel)%nat ->
  chunk_ranges f fuel (Z.of_nat i * (chunkSize f + 1))
  = map (nth_range f) (seq i m).
Proof.
  intros m fuel i Hv. revert fuel i.
  pose proof (chunk_count_spec f Hv) as Hn. cbv zeta in Hn.
  pose proof Hv as [Hs Hc]. unfold GoInt.max_int in Hc.
  induction m as [|m IH]; intros fuel i Him Hm Hf; [lia|].
  destruct fuel as [|fuel]; [lia|].
  set (s := Z.of_nat i * (chunkSize f + 1)).
  assert (Z.of_nat i + Z.of_nat (S m) = Z.of_nat (chunk_count f)) as Him' by lia.
  assert (s <= (Z.of_nat (chunk_count f) - 1) * (chunkSize f + 1)) as Hle.
  { unfold s. apply Z.mul_le_mono_nonneg_r; lia. }
  assert (0 <= s) as Hs00 by (unfold s; apply Z.mul_nonneg_nonneg; lia).
  assert (0 <= s <= size f) as Hs0 by lia.
  assert (s = 0 \/ chunkSize f < s) as Hs1.
  { destruct i as [|i]; [by left | right]. unfold s.
    assert (1 * (chunkSize f + 1) <= Z.of_nat (S i) * (chunkSize f + 1))
      by (apply Z.mul_le_mono_nonneg_r; lia).
    lia. }
  destruct (chunk_arith f s Hv Hs0 Hs1) as (Ht & He & Hx).
  cbn [chunk_ranges seq map]. rewrite Ht. f_equal.
  - unfold nth_range. fold s. by rewrite He.
  - rewrite Hx, He. destruct m as [|m].
    + (* the last range ends at [size f] *)
      assert (Z.min (s + chunkSize f) (size f) = size f) as ->.
      { assert (Z.of_nat i = Z.of_nat (chunk_count f) - 1) as Hi by lia.
        unfold s. rewrite Hi. nia. }
      destruct fuel as [|fuel]; [done|]. cbn [chunk_ranges seq map].
      assert (is_terminal f (size f + 1) = true) as ->
        by (by apply terminal_iff).
      done.
    + assert (Z.min (s + chunkSize f) (size f) + 1
              = Z.of_nat (S i) * (chunkSize f + 1)) as ->.
      { assert (Z.of_nat (S i) * (chunkSize f + 1)
                <= (Z.of_nat (chunk_count f) - 1) * (chunkSize f + 1))
          by (apply Z.mul_le_mono_nonneg_r; lia).
        unfold s. nia. }
      apply IH; lia.
Qed.

(** X8. For a size from 0 up and a chunk size of at least 1 the chain of
    ranges that [getChunk 0] requests is, for i from 0 to n-1 with
    n = size/(chunkSize+1) + 1, the range from i*(chunkSize+1) to
    i*(chunkSize+1)+chunkSize clipped to the size. So there are n
    requests; all but the last span chunkSize+1 positions; each starts
    right after its predecessor ends; and the last ends at the size
    itself, one position beyond the last byte of a resource of that
    length. *)
Theorem chunk_ranges_closed_form (f : remoteFile) (fuel : nat)
    (Hv : valid f) (Hf : (chunk_count f <= fuel)%nat) :
  chunk_ranges f fuel 0 = map (nth_range f) (seq 0 (chunk_count f)) /\
  length (chunk_ranges f fuel 0) = chunk_count f /\
  (forall i, (S i < chunk_count f)%nat ->
     snd (nth_range f i) - fst (nth_range f i) = chunkSize f /\
     fst (nth_range f (S i)) = snd (nth_range f i) + 1) /\
  snd (nth_range f (pred (chunk_count f))) = size f.
Proof.
  pose proof (chunk_count_spec f Hv) as Hn. cbv zeta in Hn.
  assert (chunk_ranges f fuel 0 = map (nth_range f) (seq 0 (chunk_count f))) as E.
  { apply (chunk_ranges_from f (chunk_count f) fuel 0%nat Hv); lia. }
  split; [exact E|]. split; [by rewrite E, length_map, length_seq|].
  split.
  - intros i Hi. unfold nth_range. cbn [fst snd]. nia.
  - unfold nth_range. cbn [snd]. nia.
Qed.

Lemma chunk_ranges_closed_form_witness :
  chunk_ranges ten_file 3 0 = [(0, 3); (4, 7); (8, 10)].
Proof.
  apply (proj1 (chunk_ranges_closed_form ten_file 3 valid_ten_file
                  ltac:(vm_compute; lia))).
Defined.

Lemma task_offset f st : valid f -> wf f st ->
  forall i t, tasks st !! i = Some t ->
    start t = Z.min (Z.of_nat i * (chunkSize f + 1)) (size f + 1) /\
    (i <= chunk_count f)%nat.
Proof.
  intros Hv W.
  pose proof (chunk_count_spec f Hv) as Hn. cbv zeta in Hn.
  pose proof Hv as [Hs Hc]. unfold GoInt.max_int in Hc.
  induction i as [|i IH]; intros t Hi.
  - destruct (wf_chain _ _ W) as ((t0 & H0 & Hs0) & _). simplify_eq.
    split; lia.
  - destruct (lookup_lt_is_Some_2 (tasks st) i) as [p Hp].
    { apply lookup_lt_Some in Hi. lia. }
    destruct (IH p Hp) as (Ep & Hip).
    destruct (start_succ f st i p t Hv W Hp Hi) as (Hle & Et).
    assert (0 <= Z.of_nat i * (chunkSize f + 1))
      by (apply Z.mul_nonneg_nonneg; lia).
    assert (start p = Z.of_nat i * (chunkSize f + 1)) as Ep' by lia.
    assert (Z.of_nat i < Z.of_nat (chunk_count f)) as Hlt by nia.
    split; [|lia]. rewrite Et, Ep'.
    replace (Z.of_nat (S i) * (chunkSize f + 1))
      with (Z.of_nat i * (chunkSize f + 1) + chunkSize f + 1) by lia.
    lia.
Qed.

(** X9. The goroutines of one fetch are numbered by their offsets: the
    one started as number i works on offset i*(chunkSize+1), or is the
    terminal one at size+1, which is number n = size/(chunkSize+1) + 1
    and no other; the range a non-terminal one requests is the i-th of
    the closed form; and never more than n+1 goroutines are started. *)
Theorem goroutine_offsets (f : remoteFile) (st : state) (i : nat) (t : task)
    (Hv : valid f) (Hr : reachable f st) (Hi : tasks st !! i = Some t) :
  start t = Z.min (Z.of_nat i * (chunkSize f + 1)) (size f + 1) /\
  (is_terminal f (start t) = true <-> i = chunk_count f) /\
  (is_terminal f (start t) = false ->
   (start t, chunk_end f (start t)) = nth_range f i) /\
  (length (tasks st) <= S (chunk_count f))%nat.
Proof.
  pose proof (reachable_wf _ _ Hr) as W.
  pose proof (chunk_count_spec f Hv) as Hn. cbv zeta in Hn.
  destruct (task_offset f st Hv W i t Hi) as (E & Hle).
  assert (is_terminal f (start t) = true <-> i = chunk_count f) as Hiff.
  { rewrite terminal_iff by done. rewrite E. split.
    - intros H. assert (~ (Z.of_nat i < Z.of_nat (chunk_count f))) by nia. lia.
    - intros ->. lia. }
  split; [exact E|]. split; [exact Hiff|]. split.
  - intros Hnt.
    assert (i <> chunk_count f) as Hne.
    { intros Heq. apply Hiff in Heq. congruence. }
    assert (Z.of_nat i * (chunkSize f + 1)
            <= (Z.of_nat (chunk_count f) - 1) * (chunkSize f + 1))
      by (apply Z.mul_le_mono_nonneg_r; destruct Hv; lia).
    assert (start t = Z.of_nat i * (chunkSize f + 1)) as Es by lia.
    destruct (starts_ok f st Hv W i t Hi) as (Hrange & Hshape).
    assert (start t <> size f + 1) by lia.
    destruct (chunk_arith f (start t) Hv) as (_ & He & _); [lia | lia |].
    unfold nth_range. by rewrite He, Es.
  - destruct (last_task_childless f st W) as (tl & Hl & _).
    destruct (task_offset f st Hv W _ tl Hl) as (_ & Hl'). lia.
Qed.

Lemma goroutine_offsets_witness :
  start {| start := 8; at_pc := Done; tok := true; nxt := 3 |}
    = Z.min (2 * (3 + 1)) (10 + 1) /\
  (length (tasks (final_state ten_file ten_schedule)) <= 4)%nat.
Proof.
  destruct (goroutine_offsets ten_file (final_state ten_file ten_schedule) 2
              {| start := 8; at_pc := Done; tok := true; nxt := 3 |}
              valid_ten_file (final_reachable _ _) eq_refl)
    as (E & _ & _ & Hlen).
  split; [exact E | exact Hlen].
Defined.

(** ** A failed chunk does not stop the others *)

Lemma done_settled f t : at_pc t = Done -> settled f t.
Proof. intros H. unfold settled, fetched, has_child. by rewrite H. Qed.

Lemma passed_settled f t :
  pc_ok f t -> passed (at_pc t) = true -> settled f t.
Proof.
  unfold pc_ok, settled, fetched, has_child.
  destruct (at_pc t); try done; by intros ->.
Qed.

Lemma issued_suffix f st : wf f st ->
  Forall (settled f) (tasks st) ->
  forall m k t, (k + m = length (tasks st))%nat -> (1 <= m)%nat ->
    tasks st !! k = Some t ->
    map (fun t => (start t, chunk_end f (start t)))
      (filter (fun t => fetched f t = true) (drop k (tasks st)))
    = chunk_ranges f m (start t).
Proof.
  intros W HD. induction m as [|m IH]; intros k t Hkm Hm Hk; [lia|].
  destruct (Forall_lookup_1 _ _ _ _ HD Hk) as (Hf & Hc).
  rewrite (drop_S _ _ _ Hk). cbn [chunk_ranges].
  destruct (is_terminal f (start t)) eqn:Ht; cbn [negb] in *.
  - pose proof (proj2 (proj2 (wf_chain _ _ W)) k t Hk Hc) as Hlen.
    rewrite filter_cons_False by congruence.
    rewrite drop_ge by lia. done.
  - destruct (proj1 (proj2 (wf_chain _ _ W)) k t Hk Hc) as (_ & t' & Hk' & Hs' & _).
    rewrite filter_cons_True by done.
    cbn [map]. f_equal. rewrite <- Hs'. apply IH; [lia| |done].
    apply lookup_lt_Some in Hk'. lia.
Qed.

Lemma settled_issued f st : reachable f st ->
  Forall (settled f) (tasks st) ->
  issued f st = chunk_ranges f (length (tasks st)) 0 /\
  (valid f -> issued f st = map (nth_range f) (seq 0 (chunk_count f))).
Proof.
  intros Hr HD.
  pose proof (reachable_wf _ _ Hr) as W.
  destruct (wf_chain _ _ W) as ((t0 & H0 & Hs0) & _).
  assert (issued f st = chunk_ranges f (length (tasks st)) 0) as E.
  { unfold issued. rewrite <- Hs0.
    rewrite <- (issued_suffix f st W HD (length (tasks st)) 0%nat t0); try done.
    apply lookup_lt_Some in H0. lia. }
  split; [exact E|]. intros Hv. rewrite E.
  apply (chunk_ranges_from f (chunk_count f) _ 0%nat Hv); try lia.
  - pose proof (chunk_count_spec f Hv) as Hn. cbv zeta in Hn. lia.
  - (* the last goroutine is the terminal one *)
    destruct (last_task_childless f st W) as (tl & Hl & Hcl).
    destruct (Forall_lookup_1 _ _ _ _ HD Hl) as (_ & Hc).
    assert (is_terminal f (start tl) = true) as Ht.
    { rewrite Hcl in Hc. by destruct (is_terminal _ _). }
    destruct (task_offset f st Hv W _ tl Hl) as (Es & _).
    apply terminal_iff in Ht; [|done].
    pose proof (chunk_count_spec f Hv) as Hn. cbv zeta in Hn.
    assert (~ (Z.of_nat (pred (length (tasks st))) < Z.of_nat (chunk_count f)))
      by nia.
    lia.
Qed.

(** X10. Nothing in [getChunk] looks at the state of the sink before
    fetching: once all goroutines have returned, [client.Do] has been
    called for every range of the chain, once each and in the order of
    the offsets, also when an earlier chunk had failed and the read had
    long ended with its error. *)
Theorem no_early_abort (f : remoteFile) (st : state)
    (Hr : reachable f st)
    (HD : Forall (fun t => at_pc t = Done) (tasks st)) :
  issued f st = chunk_ranges f (length (tasks st)) 0 /\
  (valid f -> issued f st = map (nth_range f) (seq 0 (chunk_count f))).
Proof.
  apply settled_issued; [done|].
  eapply Forall_impl; [exact HD|]. intros t. apply done_settled.
Qed.

Lemma valid_two_failures_file : valid two_failures_file.
Proof. unfold valid, GoInt.max_int. cbn. lia. Defined.

Lemma no_early_abort_witness :
  rd_err (final_state two_failures_file two_failures_schedule)
    = Some (StatusErr 404 "error") /\
  issued two_failures_file (final_state two_failures_file two_failures_complete)
    = [(0, 3); (4, 7); (8, 10)].
Proof.
  split; [vm_compute; reflexivity|].
  apply (proj2 (no_early_abort two_failures_file
                  (final_state two_failures_file two_failures_complete)
                  (final_reachable _ _)
                  ltac:(vm_compute; repeat constructor))
           valid_two_failures_file).
Defined.

(** ** The channels are used safely *)

(** X11. No goroutine ever panics on [concurrencyLock]: a send on it
    after the terminal goroutine has closed it cannot happen, since once
    it is closed no goroutine is still in front of its send; and a
    goroutine at its deferred receive finds a permit there, so it never
    blocks and never needs the zero value of a closed channel. *)
Theorem no_panic (f : remoteFile) (st : state) (Hr : reachable f st) :
  panicked st = false /\
  (forall a st', step f a st = Some st' -> panicked st' = false) /\
  (cl_closed st = true -> Forall (fun t => at_pc t <> Acquire) (tasks st)) /\
  (forall i t, tasks st !! i = Some t -> at_pc t = Release ->
     (0 < cl_len st)%nat).
Proof.
  pose proof (reachable_wf _ _ Hr) as W.
  split; [apply (wf_panic _ _ W)|]. split; [|split].
  - intros a st' Hs. apply (wf_panic f). apply reachable_wf.
    by eapply reach_step.
  - intros Hc. eapply Forall_impl; [apply (wf_closed _ _ W Hc)|].
    intros t [H|H] Hpc; unfold has_child in *; rewrite Hpc in *; done.
  - intros i t Hi Hpc.
    destruct (release_enabled f st i t W Hi Hpc) as (st' & _ & H & _). lia.
Qed.

Lemma no_panic_witness :
  panicked (final_state ten_file ten_schedule) = false /\
  Forall (fun t => at_pc t <> Acquire) (tasks (final_state ten_file ten_schedule)).
Proof.
  destruct (no_panic ten_file (final_state ten_file ten_schedule)
              (final_reachable _ _)) as (Hp & _ & Hc & _).
  split; [exact Hp | apply Hc; reflexivity].
Defined.

Lemma count_if_le_succ {A} (P Q : A -> bool) (l : list A) :
  (forall i x, l !! i = Some x -> P x = true -> Q x = false ->
     S i = length l) ->
  (count_if P l <= count_if Q l + 1)%nat.
Proof.
  induction l as [|x l IH]; intros H; cbn [count_if]; [lia|].
  assert (count_if P l <= count_if Q l + 1)%nat as IH'.
  { apply IH. intros i y Hi Hp Hq. specialize (H (S i) y Hi Hp Hq).
    cbn [length] in H. lia. }
  destruct (P x) eqn:Hp; [|destruct (Q x); lia].
  destruct (Q x) eqn:Hq; [lia|].
  specialize (H 0%nat x eq_refl Hp Hq). cbn [length] in H.
  destruct l; [cbn; lia | cbn in H; lia].
Qed.

(** X12. At any moment at most [concurrency]+1 goroutines of a fetch
    have not returned yet, the permit holders and the one goroutine they
    have spawned last, and at most [concurrency] response bodies are
    open. *)
Theorem live_goroutines (f : remoteFile) (st : state)
    (Hk : 0 <= concurrency f) (Hr : reachable f st) :
  Z.of_nat (count_if (fun t => negb (is_done (at_pc t))) (tasks st))
    <= concurrency f + 1 /\
  Z.of_nat (count_if (fun t => has_body (at_pc t)) (tasks st))
    <= concurrency f.
Proof.
  pose proof (reachable_wf _ _ Hr) as W.
  pose proof (wf_permits _ _ W) as Hp. pose proof (wf_bound _ _ W) as Hb.
  split.
  - pose proof (count_if_le_succ (fun t => negb (is_done (at_pc t)))
                  (fun t => holds_permit (at_pc t)) (tasks st)) as H.
    cbv beta in H. assert (forall i x, tasks st !! i = Some x ->
      negb (is_done (at_pc x)) = true -> holds_permit (at_pc x) = false ->
      S i = length (tasks st)) as Hlast.
    { intros i x Hi Hnd Hnp. symmetry.
      apply (proj2 (proj2 (wf_chain _ _ W)) i x Hi).
      unfold has_child. by destruct (at_pc x). }
    specialize (H Hlast). lia.
  - pose proof (count_if_le (fun t => has_body (at_pc t))
                  (fun t => holds_permit (at_pc t)) (tasks st)) as H.
    assert (forall t, has_body (at_pc t) = true -> holds_permit (at_pc t) = true)
      as Hi by (intros t; by destruct (at_pc t)).
    specialize (H Hi). lia.
Qed.

Lemma live_goroutines_witness :
  Z.of_nat (count_if (fun t => negb (is_done (at_pc t)))
              (tasks (final_state ten_file ten_halfway))) <= 2 + 1.
Proof.
  apply (proj1 (live_goroutines ten_file (final_state ten_file ten_halfway)
                  ltac:(cbn; lia) (final_reachable _ _))).
Defined.

(** ** The ordering token *)

(** X13. The ordering token of a goroutine is closed exactly when its
    predecessor has run its deferred [close(next)]: not before, and on
    every way out of the predecessor, its failures and the cancellation
    included, so a goroutine that gives up never leaves its successors
    waiting. The successor was started at the predecessor's end+1, and a
    goroutine that has a successor is never the terminal one. *)
Theorem token_handshake (f : remoteFile) (st : state) (i : nat) (t t' : task)
    (Hr : reachable f st)
    (Hi : tasks st !! i = Some t) (Hi' : tasks st !! S i = Some t') :
  tok t' = returned (at_pc t) /\
  start t' = next_start f (start t) /\
  nxt t = S i /\
  is_terminal f (start t) = false.
Proof.
  pose proof (reachable_wf _ _ Hr) as W.
  destruct (chained_child _ _ _ _ _ (wf_chain _ _ W) Hi Hi') as (Hc & Hn & Hs & Ht).
  split; [done|]. split; [done|]. split; [done|].
  eapply has_child_nonterminal; [|exact Hc].
  apply (Forall_lookup_1 _ _ _ _ (wf_pc _ _ W) Hi).
Qed.

Lemma token_handshake_witness :
  tok {| start := 4; at_pc := Done; tok := true; nxt := 2 |}
  = returned (at_pc {| start := 0; at_pc := Done; tok := true; nxt := 1 |}).
Proof.
  apply (token_handshake two_failures_file
           (final_state two_failures_file two_failures_complete) 0
           {| start := 0; at_pc := Done; tok := true; nxt := 1 |}
           {| start := 4; at_pc := Done; tok := true; nxt := 2 |}
           (final_reachable _ _) eq_refl eq_refl).
Defined.

(** ** Where the error of a Read comes from *)

Lemma transition_keeps_task f st st' i t :
  transition f st st' -> tasks st !! i = Some t ->
  exists t', tasks st' !! i = Some t' /\ start t' = start t.
Proof.
  intros T Hi. destruct (transition_tasks f st st' T) as (Hlen & Hback).
  pose proof (lookup_lt_Some _ _ _ Hi) as Hlt.
  destruct (lookup_lt_is_Some_2 (tasks st') i) as [t' Hi']; [lia|].
  exists t'. split; [done|].
  destruct (Hback i t' Hi') as [(t0 & H0 & Hs & _)|(-> & _)]; [|lia].
  by simplify_eq.
Qed.

Lemma transition_keeps_ctx f st st' c0 :
  transition f st st' -> ctx_done st = Some c0 -> ctx_done st' = Some c0.
Proof. intros T H. tr_cases T; congruence. Qed.

Lemma error_source_step f st st' e0 :
  transition f st st' -> error_source f st e0 -> error_source f st' e0.
Proof.
  intros T [->|[(c & Hc & ->)|[(i & t & Hi & Hnt & He)
                               |(i & t & body & msg & Hi & Hnt & Hf & ->)]]].
  - by left.
  - right; left. exists c. split; [|done]. by eapply transition_keeps_ctx.
  - right; right; left.
    destruct (transition_keeps_task _ _ _ _ _ T Hi) as (t' & Hi' & Hs).
    exists i, t'. by rewrite Hs.
  - right; right; right.
    destruct (transition_keeps_task _ _ _ _ _ T Hi) as (t' & Hi' & Hs).
    exists i, t', body, msg. by rewrite Hs.
Qed.

Lemma pipe_source f st :
  reachable f st -> forall e0, pipe st = Some e0 -> error_source f st e0.
Proof.
  revert st. apply (reachable_ind_tr f
    (fun st => forall e0, pipe st = Some e0 -> error_source f st e0)); [done|].
  intros st st' Hr IH T e0 Hq'.
  destruct (pipe st) as [e1|] eqn:Hq.
  { rewrite (pipe_stable _ _ _ _ T Hq) in Hq'. simplify_eq.
    eapply error_source_step; eauto. }
  pose proof (reachable_sink _ _ Hr) as SI.
  pose proof (reachable_wf _ _ Hr) as W.
  pose proof T as T0.
  tr_cases T; rewrite ?Hq in Hq'; simplify_eq;
    try (pose proof (Forall_lookup_1 _ _ _ _ (wf_pc _ _ W) Hi) as Hk;
         unfold pc_ok in Hk; rewrite Hpc in Hk).
  - by left.
  - right; left. by exists c.
  - right; right; left.
    destruct (transition_keeps_task _ _ _ _ _ T0 Hi) as (t' & Hi' & Hs).
    exists i, t'. split; [done|]. rewrite Hs. unfold fetch_error. by rewrite Hf.
  - right; left. by exists c.
  - right; right; right.
    pose proof (Forall_lookup_1 _ _ _ _ (si_body _ _ SI) Hi) as Hb.
    unfold body_ok in Hb. rewrite Hpc in Hb. destruct Hb as ((body & Hb) & _).
    destruct (transition_keeps_task _ _ _ _ _ T0 Hi) as (t' & Hi' & Hs).
    exists i, t', body, msg. by rewrite Hs.
Qed.

Lemma fetch_not_closed_pipe f s e0 :
  fetch f s = inl e0 -> e0 <> ErrClosedPipe.
Proof.
  unfold fetch. destruct (Do (client f) (range_request f s)) as [res|msg].
  - destruct ((StatusCode res <? 200) || (StatusCode res >? 299));
      intros [= <-]; done.
  - intros [= <-]. done.
Qed.

(** X14. An error that a Read reports is the error the sink was closed
    with, and it is one of four: end-of-stream; the error of the context,
    and then the context is done; the transport or status error of the
    range request of a goroutine that was started and is not the
    terminal one; or the error met while reading the body of such a
    request. It is never [io.ErrClosedPipe]. Without a cancellation an
    error other than end-of-stream is therefore always the error of one
    of the chunks. *)
Theorem read_error_provenance (f : remoteFile) (st : state) (e : error)
    (Hr : reachable f st) (Hrd : rd_err st = Some e) :
  pipe st = Some e /\
  error_source f st e /\
  e <> ErrClosedPipe /\
  (ctx_done st = None -> e <> EOF ->
   exists i t, tasks st !! i = Some t /\ is_terminal f (start t) = false /\
     match fetch f (start t) with
     | inl e' => e = e'
     | inr (_, Some msg) => e = BodyReadErr msg
     | inr (_, None) => False
     end).
Proof.
  pose proof (si_rd _ _ (reachable_sink _ _ Hr) _ Hrd) as Hp.
  pose proof (pipe_source f st Hr e Hp) as Hsrc.
  split; [done|]. split; [done|]. split.
  - destruct Hsrc as [->|[(c & _ & ->)|[(i & t & _ & _ & He)
                                       |(i & t & body & msg & _ & _ & _ & ->)]]];
      try done.
    apply fetch_error_inl in He. by eapply fetch_not_closed_pipe.
  - intros Hc Hne.
    destruct Hsrc as [->|[(c & Hc' & ->)|[(i & t & Hi & Hnt & He)
                                       |(i & t & body & msg & Hi & Hnt & Hf & ->)]]];
      try done; try congruence.
    + exists i, t. split; [done|]. split; [done|].
      by rewrite (fetch_error_inl _ _ _ He).
    + exists i, t. split; [done|]. split; [done|]. by rewrite Hf.
Qed.

Lemma read_error_provenance_witness :
  pipe (final_state two_failures_file two_failures_schedule)
    = Some (StatusErr 404 "error") /\
  StatusErr 404 "error" <> ErrClosedPipe.
Proof.
  destruct (read_error_provenance two_failures_file
              (final_state two_failures_file two_failures_schedule)
              (StatusErr 404 "error") (final_reachable _ _) eq_refl)
    as (Hp & _ & Hn & _).
  split; [exact Hp | exact Hn].
Defined.

(** ** Every goroutine returns *)

Lemma progress_any f st :
  reachable f st -> 1 <= concurrency f ->
  (rd_err st = None \/ exists i t, tasks st !! i = Some t /\ at_pc t <> Done) ->
  exists a st', is_cancel a = false /\ step f a st = Some st'.
Proof.
  intros Hr Hconc Hq.
  pose proof (reachable_wf _ _ Hr) as W.
  pose proof (reachable_sink _ _ Hr) as SI.
  pose proof (wf_panic _ _ W) as Hpan.
  destruct (returned_reader st) eqn:Hrr; cycle 1.
  { exists AReturn. eexists. split; [done|]. unfold step. by rewrite Hpan, Hrr. }
  (* a task at its deferred receive can always go on *)
  destruct (list_find (fun t => at_release (at_pc t) = true) (tasks st))
    as [[i t]|] eqn:Hfind.
  { apply list_find_Some in Hfind as (Hi & Hrel & _).
    assert (at_pc t = Release) as Hpc by (by destruct (at_pc t)).
    destruct (release_enabled f st i t W Hi Hpc) as (st' & Hs & _).
    exists (AStep i), st'. done. }
  apply list_find_None in Hfind.
  destruct (list_find (fun t => returned (at_pc t) = false) (tasks st))
    as [[w t]|] eqn:Hw; cycle 1.
  { (* every goroutine is done: the consumer reads the close error *)
    apply list_find_None in Hw.
    assert (forall i t, tasks st !! i = Some t -> at_pc t = Done) as HD.
    { intros i t Hi.
      pose proof (Forall_lookup_1 _ _ _ _ Hw Hi) as Hret. cbn in Hret.
      pose proof (Forall_lookup_1 _ _ _ _ Hfind Hi) as Hnrel. cbn in Hnrel.
      destruct (at_pc t); done. }
    destruct Hq as [Hrd|(i & t & Hi & Hnd)]; [|by specialize (HD i t Hi)].
    destruct (pipe st) as [e0|] eqn:Hp.
    - exists AReadErr. eexists. split; [done|]. unfold step.
      by rewrite Hpan, Hp, Hrd, Hrr.
    - exfalso. destruct (last_task_childless f st W) as (tl & Hl & Hcl).
      pose proof (HD _ _ Hl) as Hpc.
      assert (passed (at_pc tl) = true) as Hpass by (by rewrite Hpc).
      destruct (Forall_lookup_1 _ _ _ _ (si_open _ _ SI Hp) Hl Hpass)
        as (_ & ? & _).
      congruence. }
  apply list_find_Some in Hw as (Hi & Hnr & Hbefore).
  assert (all_returned_before st w) as Ha.
  { intros k tk Hk Hl. specialize (Hbefore k tk Hl Hk).
    by apply not_false_is_true in Hbefore. }
  assert (tok t = true) as Htok.
  { destruct w as [|w].
    - unfold returned_reader in Hrr. destruct (tasks st) as [|x xs]; [done|].
      cbn in Hi. by simplify_eq.
    - destruct (lookup_lt_is_Some_2 (tasks st) w) as [p Hp'].
      { apply lookup_lt_Some in Hi. lia. }
      destruct (chained_child _ _ _ _ _ (wf_chain _ _ W) Hp' Hi) as (_ & _ & _ & Ht).
      rewrite Ht. apply (Ha w p); [lia | done]. }
  destruct (at_pc t) eqn:Hpc; try done.
  - exists (AStep w). eexists. split; [done|]. unfold step, step_task.
    by rewrite Hpan, Hi, Hpc, Htok.
  - exists (AStep w). eexists. split; [done|]. unfold step, step_task.
    by rewrite Hpan, Hi, Hpc.
  - (* taking a permit: nobody holds one *)
    assert (cl_closed st = false) as Hcl.
    { destruct (cl_closed st) eqn:E; [|done].
      pose proof (Forall_lookup_1 _ _ _ _ (wf_closed _ _ W E) Hi) as [H|H].
      - unfold has_child in H. by rewrite Hpc in H.
      - by rewrite Hpc in H. }
    assert (cl_len st = 0%nat) as Hlen.
    { rewrite (wf_permits _ _ W). apply count_if_none. intros x Hx.
      apply list_elem_of_In, list_elem_of_lookup in Hx as [k Hk].
      assert (has_child f t = false) as Hch
        by (unfold has_child; by rewrite Hpc).
      pose proof (proj2 (proj2 (wf_chain _ _ W)) w t Hi Hch) as Hlast.
      destruct (decide (k = w)) as [->|Hne].
      - simplify_eq. by rewrite Hpc.
      - assert (k < w)%nat as Hlt by (apply lookup_lt_Some in Hk; lia).
        pose proof (Ha k x Hlt Hk) as Hret.
        pose proof (Forall_lookup_1 _ _ _ _ Hfind Hk) as Hnrel. cbn in Hnrel.
        destruct (at_pc x); try done. }
    exists (AStep w). eexists. split; [done|]. unfold step, step_task.
    assert ((Z.of_nat 0 <? concurrency f) = true) as E by (apply Z.ltb_lt; lia).
    by rewrite Hpan, Hi, Hpc, Hcl, Hlen, E.
  - exists (AStep w). unfold step, step_task. rewrite Hpan, Hi, Hpc.
    destruct (fetch f (start t)) as [e|[body berr]]; eauto.
  - exists (AStep w). eexists. split; [done|]. unfold step, step_task.
    by rewrite Hpan, Hi, Hpc, Htok.
  - destruct (pipe st) as [e0|] eqn:Hp.
    { exists (AStep w). eexists. split; [done|]. unfold step, step_task.
      by rewrite Hpan, Hi, Hpc, Hp. }
    assert (rd_err st = None) as Hrd.
    { destruct (rd_err st) as [e1|] eqn:E; [|done].
      pose proof (si_rd _ _ SI _ E). congruence. }
    destruct rest as [|b rest].
    + exists (AStep w). unfold step, step_task. rewrite Hpan, Hi, Hpc, Hp.
      destruct berr; eauto.
    + exists (ARead w 1). eexists. split; [done|]. unfold step, step_read.
      by rewrite Hpan, Hi, Hpc, Hp, Hrd, Hrr.
  - exists (AStep w). eexists. split; [done|]. unfold step, step_task.
    by rewrite Hpan, Hi, Hpc.
Qed.

(** Once the terminal goroutine has returned, [concurrencyLock] is closed. *)
Lemma terminal_done_closed f st :
  reachable f st ->
  forall j t, tasks st !! j = Some t -> at_pc t = Done ->
    is_terminal f (start t) = true -> cl_closed st = true.
Proof.
  revert st. apply (reachable_ind_tr f (fun st =>
    forall j t, tasks st !! j = Some t -> at_pc t = Done ->
      is_terminal f (start t) = true -> cl_closed st = true)).
  { intros [|j] t Hj Hd; [|done]. cbn in Hj. simplify_eq.
    unfold spawn in Hd. cbn in Hd. by destruct (is_terminal f 0). }
  intros st st' Hr IH T j t' Hj' Hd Ht.
  pose proof (reachable_wf _ _ Hr) as W.
  assert (forall i0 t0, tasks st !! i0 = Some t0 -> at_pc t0 = Release ->
            j <> i0 \/ False) as Hrel.
  { intros i0 t0 Hi0 Hpc0. destruct (decide (j = i0)) as [->|]; [|by left].
    right. pose proof (Forall_lookup_1 _ _ _ _ (wf_pc _ _ W) Hi0) as Hk.
    unfold pc_ok in Hk. rewrite Hpc0 in Hk.
    destruct (transition_tasks f st st' T) as (_ & Hback).
    destruct (Hback i0 t' Hj') as [(t1 & H1 & Hs & _)|(-> & _)].
    - simplify_eq. congruence.
    - apply lookup_lt_Some in Hi0. lia. }
  pose proof T as T0.
  tr_cases T;
    try (apply lookup_alter_Some in Hj' as [(-> & y & Hy & ->)|(_ & Hj')];
         [simplify_eq; try done | by eauto]).
  - by apply (IH 0%nat y).
  - eauto.
  - eauto.
  - exfalso. apply lookup_app_Some in Hj' as [Hl|(Hge & Hl)].
    + apply lookup_alter_Some in Hl as [(-> & y & Hy & ->)|(_ & Hl)]; [done|].
      apply lookup_alter_Some in Hl as [(-> & y & Hy & ->)|(_ & Hl)].
      * simplify_eq. cbn in Hd. congruence.
      * pose proof (IH _ _ Hl Hd Ht). congruence.
    + apply list_lookup_singleton_Some in Hl as [_ <-].
      unfold spawn in Hd. cbn in Hd. by destruct (is_terminal _ _).
  - apply lookup_alter_Some in Hj' as [(-> & y & Hy & ->)|(_ & Hj')]; [done|].
    apply lookup_alter_Some in Hj' as [(-> & y & Hy & ->)|(_ & Hj')]; eauto.
  - destruct (Hrel _ _ Hi Hpc) as [Hne|[]]. done.
  - eauto.
Qed.

Lemma valid_size_content f :
  valid f -> size f = Z.of_nat (length (repeat Byte.x00 (Z.to_nat (size f)))).
Proof. intros [Hs _]. rewrite repeat_length. lia. Qed.

Lemma quiescent_dec st :
  (rd_err st = None \/ exists i t, tasks st !! i = Some t /\ at_pc t <> Done) \/
  (Forall (fun t => at_pc t = Done) (tasks st) /\ exists e, rd_err st = Some e).
Proof.
  destruct (rd_err st) as [e|]; [|by left; left].
  destruct (list_find (fun t => is_done (at_pc t) = false) (tasks st))
    as [[i t]|] eqn:Hfind.
  - apply list_find_Some in Hfind as (Hi & Hnd & _).
    left; right. exists i, t. split; [done|]. intros E. by rewrite E in Hnd.
  - apply list_find_None in Hfind. right. split; [|by exists e].
    eapply Forall_impl; [exact Hfind|]. intros t Ht. cbn in Ht.
    by destruct (at_pc t).
Qed.

Lemma drains f : valid f -> 1 <= concurrency f ->
  forall n st, (measure f st < n)%nat -> reachable f st ->
  exists sched st', run f sched st = Some st' /\
    Forall (fun a => is_cancel a = false) sched /\
    Forall (fun t => at_pc t = Done) (tasks st') /\
    (exists e, rd_err st' = Some e).
Proof.
  intros Hv Hk. induction n as [|n IH]; intros st Hm Hr; [lia|].
  destruct (quiescent_dec st) as [Hq|(HD & Hrd)].
  - destruct (progress_any f st Hr Hk Hq) as (a & st1 & Ha & Hs).
    pose proof (measure_decreases _ f Hv (valid_size_content f Hv) _ _
                  (reachable_wf _ _ Hr) (step_transition _ _ _ _ Hs)) as Hd.
    destruct (IH st1) as (sched & st' & Hrun & Hnc & Hres).
    + lia.
    + by eapply reach_step.
    + exists (a :: sched), st'. cbn [run]. rewrite Hs.
      split; [done|]. split; [by constructor | done].
  - exists [], st. split; [done|]. split; [constructor | done].
Qed.

Lemma run_keeps_ctx f sched : forall st st',
  Forall (fun a => is_cancel a = false) sched ->
  run f sched st = Some st' -> ctx_done st' = ctx_done st.
Proof.
  induction sched as [|a sched IH]; intros st st' Hnc; cbn [run].
  - by intros [= <-].
  - destruct (step f a st) as [st1|] eqn:E; [|discriminate]. intros Hrun.
    apply Forall_cons in Hnc as [Ha Hnc].
    rewrite (IH st1 st' Hnc Hrun). by eapply step_keeps_ctx.
Qed.

(** X15. Whatever the calls of [client.Do] return and whether or not
    the context is cancelled, a fetch with a concurrency of at least 1
    cannot get stuck and cannot go on for ever: no run has more steps
    than [measure], and from every reachable state some run in which
    the consumer keeps reading, without any cancellation, ends with
    every goroutine returned, the Read having reported its final error,
    all permits given back and [concurrencyLock] closed. *)
Theorem always_drains (f : remoteFile) (st : state)
    (Hv : valid f) (Hk : 1 <= concurrency f) (Hr : reachable f st) :
  (forall sched st', run f sched st = Some st' ->
     (length sched <= measure f st)%nat) /\
  exists sched st',
    run f sched st = Some st' /\
    Forall (fun a => is_cancel a = false) sched /\
    Forall (fun t => at_pc t = Done) (tasks st') /\
    (exists e, rd_err st' = Some e) /\
    cl_len st' = 0%nat /\ cl_closed st' = true /\
    ctx_done st' = ctx_done st.
Proof.
  split.
  - intros sched st' Hrun.
    pose proof (run_bound _ f Hv (valid_size_content f Hv) sched st st' Hr Hrun).
    lia.
  - destruct (drains f Hv Hk (S (measure f st)) st) as (sched & st' & Hrun & Hnc & HD & Hrd);
      [lia | done |].
    exists sched, st'. split; [done|]. split; [done|]. split; [done|].
    split; [done|].
    pose proof (run_reachable _ _ _ _ Hr Hrun) as Hr'.
    pose proof (reachable_wf _ _ Hr') as W'.
    split; [|split].
    + rewrite (wf_permits _ _ W'). apply count_if_none. intros x Hx.
      apply list_elem_of_In in Hx.
      rewrite Forall_forall in HD. by rewrite (HD x Hx).
    + destruct (last_task_childless f st' W') as (tl & Hl & Hcl).
      pose proof (Forall_lookup_1 _ _ _ _ HD Hl) as Hpc.
      eapply (terminal_done_closed f st' Hr' _ tl Hl Hpc).
      unfold has_child in Hcl. rewrite Hpc in Hcl.
      by destruct (is_terminal f (start tl)).
    + by eapply run_keeps_ctx.
Qed.

Lemma always_drains_witness :
  exists sched st',
    run two_failures_file sched
      (final_state two_failures_file two_failures_schedule) = Some st' /\
    Forall (fun t => at_pc t = Done) (tasks st') /\ cl_len st' = 0%nat.
Proof.
  destruct (always_drains two_failures_file
              (final_state two_failures_file two_failures_schedule)
              valid_two_failures_file ltac:(cbn; lia) (final_reachable _ _))
    as (_ & sched & st' & Hrun & _ & HD & _ & Hl & _).
  exists sched, st'. split; [exact Hrun|]. split; [exact HD | exact Hl].
Defined.

(** ** What the stream consists of *)

Lemma map_start_alter (g : task -> task) i ts :
  (forall t, start (g t) = start t) ->
  map start (alter g i ts) = map start ts.
Proof.
  intros Hg. revert i. induction ts as [|x ts IH]; intros [|i]; cbn; try done.
  - by rewrite Hg.
  - by rewrite IH.
Qed.

Lemma bodies_snoc f ss j s :
  ss !! j = Some s ->
  bodies f (take (S j) ss) = bodies f (take j ss) ++ chunk_body f s.
Proof.
  intros H. rewrite (take_S_r _ _ _ H). unfold bodies.
  rewrite map_app, concat_app. cbn. by rewrite app_nil_r.
Qed.

Lemma starts_lookup st j t :
  tasks st !! j = Some t -> starts st !! j = Some (start t).
Proof. intros H. unfold starts. by rewrite list_lookup_fmap, H. Qed.

Lemma stream_init f : stream_inv f (init_state f).
Proof.
  split; [|done]. intros _ [|j] t Hj _ _; [|done].
  injection Hj as <-. unfold delivered_upto, spawn. cbn.
  by destruct (is_terminal f 0).
Qed.

Ltac same_starts :=
  rewrite ?map_start_alter by (intros; reflexivity).

Lemma stream_step_open f st st' :
  wf f st -> sink_inv f st -> stream_inv f st -> transition f st st' ->
  pipe st' = None ->
  forall j t', tasks st' !! j = Some t' -> all_returned_before st' j ->
    returned (at_pc t') = false ->
    delivered_upto f (starts st') (output st') j (at_pc t').
Proof.
  intros W SI [O _] T Hp' j t' Hj Ha Hnr.
  pose proof (pipe_open_before _ _ _ T Hp') as Hp0. specialize (O Hp0).
  pose proof (si_open _ _ SI Hp0) as Op.
  pose proof T as T0. unfold starts in *.
  tr_cases T; try (rewrite Hp0 in Hp'; discriminate); try congruence;
    try (pose proof (Forall_lookup_1 _ _ _ _ (wf_pc _ _ W) Hi) as Hk;
         unfold pc_ok in Hk; rewrite Hpc in Hk);
    try (pose proof (Forall_lookup_1 _ _ _ _ Op Hi) as Ho;
         unfold open_ok, has_child in Ho; rewrite Hpc in Ho; cbn in Ho);
    same_starts.
  - (* GetContext returns *)
    destruct (wf_chain _ _ W) as ((t0 & Ht0 & _) & _).
    destruct (holder_back st (close_seq 0 st) with_tok 0%nat t0 j t'
                Ht0 eq_refl eq_refl Hj Ha) as [Ha0 [[-> ->]|[Hne Hj0]]].
    + exact (O _ _ Ht0 Ha0 Hnr).
    + exact (O _ _ Hj0 Ha0 Hnr).
  - exact (O _ _ Hj Ha Hnr).
  - by destruct Ho as (_ & ? & _).
  - exact (O _ _ Hj Ha Hnr).
  - (* a permit is taken and the next task spawned *)
    set (g := with_pc Fetch ∘ with_nxt (length (tasks st))).
    assert (alter (with_pc Fetch) i (alter (with_nxt (length (tasks st))) i (tasks st))
            = alter g i (tasks st)) as Eg by apply list_alter_alter_eq.
    rewrite Eg in Hj. rewrite Eg.
    assert (forall k tk, (k < j)%nat ->
              alter g i (tasks st) !! k = Some tk -> returned (at_pc tk) = true)
      as Ha1.
    { intros k tk Hkj Hl. apply (Ha k tk Hkj). cbn. rewrite Eg.
      by apply lookup_app_l_Some. }
    apply lookup_app_Some in Hj as [Hj|(Hge & Hj)].
    + assert (j < length (tasks st))%nat as Hjl
        by (apply lookup_lt_Some in Hj; by rewrite length_alter in Hj).
      assert (forall k, (k <= length (tasks st))%nat ->
                take k (map start (alter g i (tasks st) ++
                                   [spawn f (next_start f (start t))]))
                = take k (map start (tasks st))) as Htk.
      { intros k Hkl. rewrite map_app, take_app_le
          by (rewrite length_map, length_alter; lia).
        by rewrite map_start_alter. }
      assert (forall p, delivered_upto f (map start (tasks st)) (output st) j p ->
                delivered_upto f
                  (map start (alter g i (tasks st) ++
                              [spawn f (next_start f (start t))]))
                  (output st) j p) as Hsame.
      { intros p. unfold delivered_upto. rewrite !Htk by lia. done. }
      destruct (holder_back st (set_tasks (alter g i (tasks st)) st) g i t j t'
                  Hi eq_refl ltac:(by cbn; rewrite Hpc) Hj Ha1)
        as [Ha0 [[-> ->]|[Hne Hj0]]].
      * pose proof (O _ _ Hi Ha0 ltac:(by rewrite Hpc)) as D.
        apply Hsame. unfold delivered_upto in *. by rewrite Hpc in D.
      * apply Hsame. exact (O _ _ Hj0 Ha0 Hnr).
    + exfalso. rewrite length_alter in Hge.
      assert (i < j)%nat as Hij by (apply lookup_lt_Some in Hi; lia).
      by specialize (Ha1 i (g t) Hij (lookup_alter_eq _ _ _ _ Hi)).
  - (* the fetch succeeded *)
    destruct (holder_back st (set_pc i (Select body berr) st) _ i t j t'
                Hi eq_refl ltac:(by cbn; rewrite Hpc) Hj Ha)
      as [Ha0 [[-> ->]|[Hne Hj0]]].
    + pose proof (O _ _ Hi Ha0 ltac:(by rewrite Hpc)) as D.
      unfold delivered_upto in *. by rewrite Hpc in D.
    + exact (O _ _ Hj0 Ha0 Hnr).
  - (* the token case of the select *)
    destruct (holder_back st (set_pc i (Copy body berr) st) _ i t j t'
                Hi eq_refl ltac:(by cbn; rewrite Hpc) Hj Ha)
      as [Ha0 [[-> ->]|[Hne Hj0]]].
    + pose proof (O _ _ Hi Ha0 ltac:(by rewrite Hpc)) as D.
      unfold delivered_upto in *. rewrite Hpc in D. cbn.
      pose proof (Forall_lookup_1 _ _ _ _ (si_body _ _ SI) Hi) as Hbo.
      unfold body_ok in Hbo. rewrite Hpc in Hbo.
      rewrite (bodies_snoc f _ i (start t)) by (by rewrite list_lookup_fmap, Hi).
      rewrite output_set_pc, D. f_equal.
      unfold chunk_body. by rewrite Hk, Hbo.
    + exact (O _ _ Hj0 Ha0 Hnr).
  - (* io.Copy is through *)
    destruct (holder_back st (set_pc i CloseNext st) _ i t j t'
                Hi eq_refl ltac:(by cbn; rewrite Hpc) Hj Ha)
      as [Ha0 [[-> ->]|[Hne Hj0]]].
    + pose proof (O _ _ Hi Ha0 ltac:(by rewrite Hpc)) as D.
      unfold delivered_upto in *. rewrite Hpc in D. cbn.
      by rewrite app_nil_r in D.
    + exact (O _ _ Hj0 Ha0 Hnr).
  - (* the deferred close(next) passes the turn on *)
    destruct Ho as (Htok & _ & _); [done|].
    pose proof (chain_returned _ _ W Op _ _ Hi Htok) as Hai.
    pose proof (O _ _ Hi Hai ltac:(by rewrite Hpc)) as D.
    unfold delivered_upto in D. rewrite Hpc in D.
    destruct (wf_chain _ _ W) as (_ & H2 & _).
    destruct (H2 i t Hi ltac:(unfold has_child; by rewrite Hpc))
      as (Hn & c & Hc & Hcs & Hct).
    rewrite Hpc in Hct. cbn in Hct. rewrite Hn in *.
    assert (passed (at_pc c) = false) as Hcp.
    { destruct (passed (at_pc c)) eqn:E; [|done].
      destruct (Forall_lookup_1 _ _ _ _ Op Hc E) as (? & _). congruence. }
    assert (forall k, k <> i -> k <> S i ->
              alter (with_pc Release) i (alter with_tok (S i) (tasks st)) !! k
              = tasks st !! k) as Hother.
    { intros k H1 H2'. by rewrite !list_lookup_alter_ne. }
    assert (alter (with_pc Release) i (alter with_tok (S i) (tasks st)) !! S i
            = Some (with_tok c)) as Hsi.
    { rewrite list_lookup_alter_ne by lia. by apply lookup_alter_eq. }
    assert (alter (with_pc Release) i (alter with_tok (S i) (tasks st)) !! i
            = Some (with_pc Release t)) as Hii.
    { apply lookup_alter_eq. by rewrite list_lookup_alter_ne by lia. }
    destruct (Nat.lt_trichotomy j i) as [Hlt|[->|Hgt]].
    + rewrite Hother in Hj by lia. specialize (Hai j t' Hlt Hj). congruence.
    + rewrite Hii in Hj. injection Hj as <-. done.
    + destruct (decide (j = S i)) as [->|Hne].
      * rewrite Hsi in Hj. injection Hj as <-.
        unfold delivered_upto. cbn.
        rewrite output_set_pc. change (output (close_seq (S i) st)) with (output st).
        rewrite D. by destruct (at_pc c).
      * exfalso. assert (S i < j)%nat as Hlt by lia.
        specialize (Ha (S i) (with_tok c) Hlt Hsi). cbn in Ha.
        apply returned_passed in Ha. congruence.
  - (* the permit is given back *)
    destruct (holder_back st (set_pc i Done (set_cl n (cl_closed st) st)) _ i t j t'
                Hi eq_refl ltac:(by cbn; rewrite Hpc) Hj Ha)
      as [Ha0 [[-> ->]|[Hne Hj0]]]; [done|].
    exact (O _ _ Hj0 Ha0 Hnr).
  - destruct (holder_back st (set_pc i Done st) _ i t j t'
                Hi eq_refl ltac:(by cbn; rewrite Hpc) Hj Ha)
      as [Ha0 [[-> ->]|[Hne Hj0]]]; [done|].
    exact (O _ _ Hj0 Ha0 Hnr).
  - (* a Read takes bytes from the writer *)
    destruct (holder_back st
                (set_pc i (Copy (drop n rest) berr) (add_read i (take n rest) st))
                _ i t j t' Hi eq_refl ltac:(by cbn; rewrite Hpc) Hj Ha)
      as [Ha0 [[-> ->]|[Hne Hj0]]].
    + pose proof (O _ _ Hi Ha0 ltac:(by rewrite Hpc)) as D.
      unfold delivered_upto in *. rewrite Hpc in D. cbn.
      by rewrite output_set_pc, output_add_read, <- app_assoc, take_drop.
    + exfalso. apply Hne.
      eapply (holder_unique f st i t j t'); eauto; by rewrite Hpc.
Qed.

Lemma stream_step_eof f st st' :
  wf f st -> sink_inv f st -> stream_inv f st -> transition f st st' ->
  pipe st' = Some EOF -> output st' = bodies f (starts st').
Proof.
  intros W SI [O E] T Hp'.
  destruct (pipe st) as [e0|] eqn:Hp0.
  - pose proof (pipe_stable _ _ _ _ T Hp0) as Hs. rewrite Hs in Hp'.
    injection Hp' as ->. specialize (E eq_refl).
    pose proof (si_eof _ _ SI Hp0) as Ef.
    assert (output st' = output st) as ->.
    { unfold output. by rewrite (closed_reads_stable _ _ _ _ T Hp0). }
    rewrite E. f_equal. unfold starts.
    tr_cases T; same_starts; try done.
    exfalso. destruct (Forall_lookup_1 _ _ _ _ Ef Hi) as (Hps & _).
    by rewrite Hpc in Hps.
  - specialize (O eq_refl). pose proof (si_open _ _ SI Hp0) as Op.
    unfold starts in *.
    tr_cases T; try (rewrite ?Hp0 in Hp'; discriminate); same_starts.
    + pose proof (chain_returned _ _ W Op _ _ Hi Htk) as Hai.
      pose proof (O _ _ Hi Hai ltac:(by rewrite Hpc)) as D.
      unfold delivered_upto in D. rewrite Hpc in D.
      pose proof (Forall_lookup_1 _ _ _ _ (wf_pc _ _ W) Hi) as Hk.
      unfold pc_ok in Hk. rewrite Hpc in Hk.
      pose proof (proj2 (proj2 (wf_chain _ _ W)) i t Hi
                    ltac:(unfold has_child; by rewrite Hpc)) as Hlen.
      rewrite output_set_pc. change (output (close_with EOF st)) with (output st).
      rewrite D.
      rewrite <- (take_ge (map start (tasks st)) (S i)) at 2
        by (rewrite length_map; lia).
      rewrite (bodies_snoc f _ i (start t)) by (by rewrite list_lookup_fmap, Hi).
      unfold chunk_body. rewrite Hk. by rewrite app_nil_r.
    + rewrite Hp0 in Hp'. injection Hp' as ->. by apply fetch_not_eof in Hf.
Qed.

Lemma reachable_stream f st : reachable f st -> stream_inv f st.
Proof.
  revert st. apply reachable_ind_tr; [apply stream_init|].
  intros st st' Hr I T.
  pose proof (reachable_wf _ _ Hr) as W.
  pose proof (reachable_sink _ _ Hr) as SI.
  split.
  - by eapply stream_step_open.
  - by eapply stream_step_eof.
Qed.

Lemma bodies_issued f ts :
  Forall (settled f) ts ->
  bodies f (map start ts)
  = concat (map (fun r : Z * Z => chunk_body f (fst r))
              (map (fun t => (start t, chunk_end f (start t)))
                 (filter (fun t => fetched f t = true) ts))).
Proof.
  induction 1 as [|t ts (Hf & _) Hs IH]; [done|].
  unfold bodies in *. cbn [map concat]. rewrite IH.
  destruct (is_terminal f (start t)) eqn:Ht; cbn [negb] in Hf.
  - rewrite filter_cons_False by congruence.
    unfold chunk_body at 1. by rewrite Ht.
  - rewrite filter_cons_True by done. done.
Qed.

(** X16. What end-of-stream means for any server. When a Read has
    reported end-of-stream, every range of the chain has been requested,
    none of these requests failed, and the bytes read are the bodies of
    the answers one after the other in the order of the offsets, each
    in full: whatever the server sent, nothing of it is missing and
    nothing is out of place. *)
Theorem eof_is_concatenation (f : remoteFile) (st : state)
    (Hr : reachable f st) (Hrd : rd_err st = Some EOF) :
  output st = concat (map (fun r => chunk_body f (fst r)) (issued f st)) /\
  issued f st = chunk_ranges f (length (tasks st)) 0 /\
  Forall (fun r => fetch_error f (fst r) = None) (issued f st) /\
  (valid f -> issued f st = map (nth_range f) (seq 0 (chunk_count f))).
Proof.
  pose proof (reachable_wf _ _ Hr) as W.
  pose proof (reachable_sink _ _ Hr) as SI.
  pose proof (si_rd _ _ SI _ Hrd) as Hp.
  pose proof (si_eof _ _ SI Hp) as Ef.
  assert (Forall (settled f) (tasks st)) as HS.
  { apply Forall_lookup. intros i t Hi.
    destruct (Forall_lookup_1 _ _ _ _ Ef Hi) as (Hps & _).
    apply passed_settled; [|done].
    apply (Forall_lookup_1 _ _ _ _ (wf_pc _ _ W) Hi). }
  destruct (settled_issued f st Hr HS) as (E1 & E2).
  split; [|split; [done|split; [|done]]].
  - rewrite (proj2 (reachable_stream f st Hr) Hp). unfold starts, issued.
    by apply bodies_issued.
  - unfold issued. apply Forall_forall. intros r Hin.
    apply list_elem_of_In, in_map_iff in Hin as (t & <- & Hin).
    apply list_elem_of_In, list_elem_of_filter in Hin as [Hf Hin].
    apply list_elem_of_lookup in Hin as [i Hi].
    destruct (Forall_lookup_1 _ _ _ _ Ef Hi) as (_ & _ & Hc). cbn [fst].
    apply Hc. by apply fetched_has_child.
Qed.

Lemma eof_is_concatenation_witness :
  output (final_state ten_file ten_schedule)
  = concat (map (fun r => chunk_body ten_file (fst r))
              (issued ten_file (final_state ten_file ten_schedule))) /\
  issued ten_file (final_state ten_file ten_schedule)
  = [(0, 3); (4, 7); (8, 10)].
Proof.
  destruct (eof_is_concatenation ten_file (final_state ten_file ten_schedule)
              (final_reachable _ _) eq_refl) as (E & _ & _ & Hi).
  split; [exact E | exact (Hi valid_ten_file)].
Defined.

Lemma bodies_app f l1 l2 : bodies f (l1 ++ l2) = bodies f l1 ++ bodies f l2.
Proof. unfold bodies. by rewrite map_app, concat_app. Qed.

Lemma output_prefix f st :
  reachable f st -> exists rest0, output st ++ rest0 = bodies f (starts st).
Proof.
  revert st. apply (reachable_ind_tr f (fun st =>
    exists rest0, output st ++ rest0 = bodies f (starts st))).
  { by exists (bodies f (starts (init_state f))). }
  intros st st' Hr [rest0 IH] T.
  pose proof (reachable_wf _ _ Hr) as W.
  pose proof (reachable_sink _ _ Hr) as SI.
  pose proof (reachable_stream _ _ Hr) as [O _].
  unfold starts in *.
  tr_cases T; same_starts; try (by exists rest0).
  - (* a new goroutine: one more body at the end *)
    exists (rest0 ++ chunk_body f (next_start f (start t))).
    rewrite map_app, bodies_app. same_starts.
    change (output _) with (output st). rewrite app_assoc, IH.
    unfold bodies at 3. cbn. by rewrite app_nil_r.
  - (* a Read *)
    specialize (O Hp).
    pose proof (Forall_lookup_1 _ _ _ _ (si_body _ _ SI) Hi) as Hb.
    destruct (body_ok_copy f t rest berr Hb Hpc) as (_ & Htok).
    pose proof (chain_returned _ _ W (si_open _ _ SI Hp) _ _ Hi Htok) as Hai.
    pose proof (O _ _ Hi Hai ltac:(by rewrite Hpc)) as D.
    unfold delivered_upto, starts in D. rewrite Hpc in D.
    exists (drop n rest ++ bodies f (drop (S i) (map start (tasks st)))).
    rewrite output_set_pc, output_add_read.
    rewrite <- (take_drop (S i) (map start (tasks st))) at 2.
    rewrite bodies_app, <- D, <- !app_assoc. f_equal.
    by rewrite app_assoc, take_drop.
Qed.

Lemma starts_closed_form f st : valid f -> wf f st ->
  starts st
  = map (fun i => Z.min (Z.of_nat i * (chunkSize f + 1)) (size f + 1))
      (seq 0 (length (tasks st))).
Proof.
  intros Hv W. apply list_eq. intros i. unfold starts.
  rewrite !list_lookup_fmap.
  destruct (tasks st !! i) as [t|] eqn:Hi; cbn.
  - destruct (task_offset f st Hv W i t Hi) as (E & _).
    rewrite lookup_seq_lt by (by eapply lookup_lt_Some). cbn. by rewrite E.
  - apply lookup_ge_None in Hi. by rewrite lookup_seq_ge.
Qed.

Lemma bodies_offsets f k : valid f -> (k <= chunk_count f)%nat ->
  bodies f (map (fun i => Z.min (Z.of_nat i * (chunkSize f + 1)) (size f + 1))
              (seq 0 k))
  = bodies f (map (fun i => fst (nth_range f i)) (seq 0 k)).
Proof.
  intros Hv Hk. f_equal. apply map_ext_in. intros i Hi.
  apply in_seq in Hi. unfold nth_range. cbn [fst].
  pose proof (chunk_count_spec f Hv) as Hn. cbv zeta in Hn.
  assert (Z.of_nat i * (chunkSize f + 1)
          <= (Z.of_nat (chunk_count f) - 1) * (chunkSize f + 1))
    by (apply Z.mul_le_mono_nonneg_r; destruct Hv; lia).
  lia.
Qed.

(** X17. At every moment, for any server, after failures and after a
    cancellation as well, the bytes the consumer has read are a prefix
    of the bodies of the answers to the ranges of the chain taken in the
    order of the offsets, a failed request counting for nothing:
    nothing is ever delivered twice, out of order or with a gap. *)
Theorem delivered_prefix (f : remoteFile) (st : state)
    (Hv : valid f) (Hr : reachable f st) :
  exists rest0, output st ++ rest0 = whole_stream f.
Proof.
  pose proof (reachable_wf _ _ Hr) as W.
  destruct (output_prefix f st Hr) as (rest0 & E).
  rewrite (starts_closed_form f st Hv W) in E.
  pose proof (chunk_count_spec f Hv) as Hn. cbv zeta in Hn.
  assert (length (tasks st) <= S (chunk_count f))%nat as Hlen.
  { destruct (last_task_childless f st W) as (tl & Hl & _).
    destruct (task_offset f st Hv W _ tl Hl) as (_ & Hl'). lia. }
  unfold whole_stream.
  destruct (decide (length (tasks st) <= chunk_count f)%nat) as [Hle|Hgt].
  - rewrite bodies_offsets in E by done.
    exists (rest0 ++ bodies f (map (fun i => fst (nth_range f i))
                         (seq (length (tasks st))
                            (chunk_count f - length (tasks st))))).
    rewrite app_assoc, E, <- bodies_app, <- map_app, <- seq_app.
    do 3 f_equal. lia.
  - assert (length (tasks st) = S (chunk_count f)) as El by lia.
    rewrite El, seq_S, map_app, bodies_app in E. cbn [map Nat.add] in E.
    rewrite bodies_offsets in E by done.
    exists rest0. rewrite E.
    assert (Z.min (Z.of_nat (chunk_count f) * (chunkSize f + 1)) (size f + 1)
            = size f + 1) as -> by lia.
    unfold bodies at 2. cbn. unfold chunk_body.
    rewrite (proj2 (terminal_iff f _ Hv) eq_refl). by rewrite !app_nil_r.
Qed.

Lemma delivered_prefix_witness :
  exists rest0,
    output (final_state ten_file ten_halfway) ++ rest0 = whole_stream ten_file.
Proof.
  apply (delivered_prefix ten_file (final_state ten_file ten_halfway)
           valid_ten_file (final_reachable _ _)).
Defined.
